(** * Myia front end: a shallow embedding of [myia/front.py]

    The translator ([Parser]) walks the host (Python) syntax tree and
    produces a closure-converted intermediate representation.  The
    embedding follows the source method by method:

    - Python objects that are mutated in place ([Parser] instances, the
      tables of [ParseEnv] objects, the symbol supply) live in an explicit
      state that a small state-and-exception monad threads through the
      methods;
    - [self.visit] is a late-bound dispatch, so every method takes the
      visitor [rec] it calls back into, and the knot is tied by a fuel
      counter;
    - a [VariableTracker] keeps a reference to its parent; no method writes
      to a tracker while one of its children is in use, so the chain is
      carried by value;
    - source locations are kept where the source passes them explicitly
      (exceptions, [_Assign]); the location stamped on IR nodes by [.at] is
      diagnostic only and is not part of the model. *)

From Stdlib Require Import String Ascii List Bool Arith ZArith Lia.
Import ListNotations.
Open Scope string_scope.

Set Implicit Arguments.
Set Warnings "-register-all".

(** ** Host syntax: the subset of Python's [ast] the translator inspects *)

Module ast.

Record position := mkpos { lineno : Z; col_offset : Z }.

Inductive operator :=
| Add | Sub | Mult | MatMult | Div | Mod | Pow
| LShift | RShift | BitOr | BitXor | BitAnd | FloorDiv.

Inductive unaryop := Invert | Not | UAdd | USub.

Inductive cmpop := Eq | NotEq | Lt | LtE | Gt | GtE | Is | IsNot | In | NotIn.

(** Literal payloads ([Num.n], [Str.s], [NameConstant.value]).  Only
    integer numerals are represented. *)
Inductive constant :=
| CNum (n : Z) | CStr (s : string) | CBool (b : bool) | CNone.

Record arguments (E : Type) := mkarguments {
  args : list string;            (* the [arg] names of positional formals *)
  vararg : option string;
  kwonlyargs : list string;
  kw_defaults : list (option E);
  kwarg : option string;
  defaults : list E
}.

Record keyword (E : Type) := mkkeyword { arg : option string; value : E }.

Inductive expr :=
| BinOp (pos : position) (left : expr) (op : operator) (right : expr)
| UnaryOp (pos : position) (op : unaryop) (operand : expr)
| Lambda (pos : position) (args : arguments expr) (body : expr)
| Compare (pos : position) (left : expr) (ops : list cmpop)
          (comparators : list expr)
| Call (pos : position) (func : expr) (args : list expr)
       (keywords : list (keyword expr))
| Num (pos : position) (n : Z)
| Str (pos : position) (s : string)
| NameConstant (pos : position) (value : constant)
| Attribute (pos : position) (value : expr) (attr : string)
| Subscript (pos : position) (value : expr) (slice : slice)
| Name (pos : position) (id : string)
| Tuple (pos : position) (elts : list expr)
| OtherExpr (pos : position) (cls : string)
with slice :=
| Index (value : expr)
| Slice (lower upper step : option expr)
| ExtSlice (dims : list slice).

Inductive stmt :=
| FunctionDef (pos : position) (name : string) (args : arguments expr)
              (body : list stmt) (decorator_list : list expr)
| Return (pos : position) (value : option expr)
| Assign (pos : position) (targets : list expr) (value : expr)
| AugAssign (pos : position) (target : expr) (op : operator) (value : expr)
| While (pos : position) (test : expr) (body orelse : list stmt)
| If (pos : position) (test : expr) (body orelse : list stmt)
| Expr (pos : position) (value : expr)
| OtherStmt (pos : position) (cls : string).

Inductive mod_ := Module (body : list stmt).

Definition expr_pos (e : expr) : position :=
  match e with
  | BinOp p _ _ _ | UnaryOp p _ _ | Lambda p _ _ | Compare p _ _ _
  | Call p _ _ _ | Num p _ | Str p _ | NameConstant p _ | Attribute p _ _
  | Subscript p _ _ | Name p _ | Tuple p _ | OtherExpr p _ => p
  end.

Definition stmt_pos (s : stmt) : position :=
  match s with
  | FunctionDef p _ _ _ _ | Return p _ | Assign p _ _ | AugAssign p _ _ _
  | While p _ _ _ | If p _ _ _ | Expr p _ | OtherStmt p _ => p
  end.

End ast.

(** ** Intermediate representation *)

Record Location := mkLocation { url : string; line : Z; column : Z }.

(** Modelled from the spec: the identifier class [Symbol] of [myia.ast]
    (section 3: a uniqueness token, an optional namespace tag, a display
    name; section 4.1: optionally derived from a parent identifier plus a
    tag).  [version] is the uniqueness token; a symbol written out by hand
    ([Symbol(name, namespace='global')]) has token [0]. *)
Record Symbol := mkSymbol {
  label : string;
  namespace : option string;
  version : nat;
  relation : option string
}.

(** Modelled from the spec: the node classes of [myia.ast] (section 3).
    [Apply] carries the statically-safe tag [cannot_fail]; [_Assign] is the
    pending binding that [body_wrapper] folds into a [Let]. *)
Inductive MyiaASTNode :=
| Sym (s : Symbol)
| Value (c : ast.constant)
| Tuple (values : list MyiaASTNode)
| Apply (fn : MyiaASTNode) (args : list MyiaASTNode) (cannot_fail : bool)
| Let (bindings : list (Symbol * MyiaASTNode)) (body : MyiaASTNode)
| Begin (stmts : list MyiaASTNode)
| Closure (fn : Symbol) (args : list MyiaASTNode)
| _Assign (varname : Symbol) (value : MyiaASTNode) (location : option Location).

Coercion Sym : Symbol >-> MyiaASTNode.

(** Modelled from the spec: [Lambda] of [myia.ast] (section 3,
    FunctionDef): ordered parameters, a body, its [ref] and the table that
    owns it. *)
Record Lambda := mkLambda {
  lambda_args : list Symbol;
  lambda_body : MyiaASTNode;
  lambda_ref : Symbol;
  lambda_global_env : nat
}.

(** ** Dictionaries

    Python [dict]s (and [OrderedDict]s) keep insertion order; assigning to
    a key that is present keeps its position. *)

Section Dict.
Variables K V : Type.
Variable eqb : K -> K -> bool.

Fixpoint dict_get (d : list (K * V)) (k : K) : option V :=
  match d with
  | [] => None
  | (k', v) :: r => if eqb k k' then Some v else dict_get r k
  end.

Fixpoint dict_set (d : list (K * V)) (k : K) (v : V) : list (K * V) :=
  match d with
  | [] => [(k, v)]
  | (k', v') :: r =>
      if eqb k k' then (k', v) :: r else (k', v') :: dict_set r k v
  end.

Definition dict_mem (d : list (K * V)) (k : K) : bool :=
  match dict_get d k with Some _ => true | None => false end.

Definition dict_keys (d : list (K * V)) : list K := map fst d.
Definition dict_values (d : list (K * V)) : list V := map snd d.
End Dict.

Definition option_eqb {A} (eqb : A -> A -> bool) (x y : option A) : bool :=
  match x, y with
  | Some a, Some b => eqb a b
  | None, None => true
  | _, _ => false
  end.

Definition symbol_eqb (a b : Symbol) : bool :=
  String.eqb (label a) (label b)
  && option_eqb String.eqb (namespace a) (namespace b)
  && Nat.eqb (version a) (version b)
  && option_eqb String.eqb (relation a) (relation b).

(** Names recorded in an [OrderedDict] whose values are never read
    ([local_assignments]): only the ordered key list is kept. *)
Definition name_mem (k : string) (ks : list string) : bool :=
  existsb (String.eqb k) ks.

Definition name_add (ks : list string) (k : string) : list string :=
  if name_mem k ks then ks else ks ++ [k].

(** [set(a) != set(b)] on two key collections. *)
Definition name_subset (a b : list string) : bool :=
  forallb (fun k => name_mem k b) a.

Definition name_set_eqb (a b : list string) : bool :=
  name_subset a b && name_subset b a.

(** [" ".join(sorted(names))]. *)
Fixpoint insert_sorted (k : string) (l : list string) : list string :=
  match l with
  | [] => [k]
  | x :: r => if String.leb k x then k :: l else x :: insert_sorted k r
  end.

Definition sorted (l : list string) : list string :=
  fold_right insert_sorted [] l.

Definition join (sep : string) (l : list string) : string :=
  match l with
  | [] => ""
  | x :: r => fold_left (fun acc y => acc ++ sep ++ y) r x
  end.

(** ** Scope tracking *)

Inductive exn :=
| MyiaSyntaxError (location : option Location) (message : string)
| NameError (message : string)
| TypeError (message : string)
| ValueError (message : string)
| AttributeError (message : string)
| IndexError (message : string).

(** [class VariableTracker]: a frame of bindings and the enclosing
    tracker. *)
Inductive VariableTracker :=
| mkVariableTracker (parent : option VariableTracker)
                    (bindings : list (string * Symbol)).

Definition vt_parent (t : VariableTracker) : option VariableTracker :=
  match t with mkVariableTracker p _ => p end.

Definition vt_bindings (t : VariableTracker) : list (string * Symbol) :=
  match t with mkVariableTracker _ b => b end.

(** [VariableTracker.get_free]. *)
Fixpoint get_free (self : VariableTracker) (name : string)
  : exn + (bool * Symbol) :=
  match self with
  | mkVariableTracker parent bindings =>
      match dict_get String.eqb bindings name with
      | Some s => inr (false, s)
      | None =>
          match parent with
          | None => inl (NameError ("Undeclared variable: " ++ name))
          | Some par =>
              match get_free par name with
              | inl e => inl e
              | inr (_, s) => inr (true, s)
              end
          end
      end
  end.

(** [VariableTracker.__getitem__]. *)
Definition vt_getitem (self : VariableTracker) (name : string)
  : exn + Symbol :=
  match get_free self name with
  | inl e => inl e
  | inr (_, s) => inr s
  end.

(** [VariableTracker.__setitem__]. *)
Definition vt_setitem (self : VariableTracker) (name : string) (value : Symbol)
  : VariableTracker :=
  mkVariableTracker (vt_parent self)
                    (dict_set String.eqb (vt_bindings self) name value).

(** ** Translator state *)

(** [class Locator]. *)
Record Locator := mkLocator { loc_url : string; line_offset : Z }.

Definition Locator_call (l : Locator) (p : ast.position) : option Location :=
  Some (mkLocation (loc_url l) (ast.lineno p + line_offset l - 1)
                   (ast.col_offset p)).

(** Modelled from the spec: [GenSym] of [myia.ast], the Symbol Generator
    of section 4.1.  A generator stamps its namespace tag on what it
    issues; the tokens themselves come from one supply kept in the
    [World] below. *)
Record GenSym := mkGenSym { gen_namespace : option string }.

(** Modelled from the spec: [ParseEnv] of [myia.ast], the Global
    Definition Table of section 2.  The object is shared and mutated, so a
    translator holds a handle: the immutable namespace tag and the index of
    the table in the [World]. *)
Record ParseEnv := mkParseEnv { env_id : nat; env_namespace : option string }.

Definition table := list (Symbol * Lambda).

Record World := mkWorld {
  supply : nat;            (* next uniqueness token *)
  tables : list table      (* the bindings of every ParseEnv created so far *)
}.

Definition macro := list MyiaASTNode -> MyiaASTNode.

(** [class Parser]: constructor arguments, then the fields. *)
Record Parser := mkParser {
  locator : Locator;
  global_env : ParseEnv;
  gen : GenSym;
  dry : bool;                      (* [None] counts as false *)
  pull_free_variables : bool;
  top_level : bool;
  macros : list (string * macro);
  return_error : option string;
  dest : Symbol;
  vtrack : VariableTracker;
  free_variables : list (string * Symbol);
  local_assignments : list string;
  returns : bool
}.

Definition set_vtrack (p : Parser) (v : VariableTracker) : Parser :=
  mkParser (locator p) (global_env p) (gen p) (dry p) (pull_free_variables p)
           (top_level p) (macros p) (return_error p) (dest p) v
           (free_variables p) (local_assignments p) (returns p).

Definition set_free_variables (p : Parser) (f : list (string * Symbol))
  : Parser :=
  mkParser (locator p) (global_env p) (gen p) (dry p) (pull_free_variables p)
           (top_level p) (macros p) (return_error p) (dest p) (vtrack p)
           f (local_assignments p) (returns p).

Definition set_local_assignments (p : Parser) (l : list string) : Parser :=
  mkParser (locator p) (global_env p) (gen p) (dry p) (pull_free_variables p)
           (top_level p) (macros p) (return_error p) (dest p) (vtrack p)
           (free_variables p) l (returns p).

Definition set_returns (p : Parser) (b : bool) : Parser :=
  mkParser (locator p) (global_env p) (gen p) (dry p) (pull_free_variables p)
           (top_level p) (macros p) (return_error p) (dest p) (vtrack p)
           (free_variables p) (local_assignments p) b.

Definition set_return_error (p : Parser) (e : option string) : Parser :=
  mkParser (locator p) (global_env p) (gen p) (dry p) (pull_free_variables p)
           (top_level p) (macros p) e (dest p) (vtrack p)
           (free_variables p) (local_assignments p) (returns p).

(** ** The monad: the current translator ([self]), the shared world,
    exceptions, and fuel exhaustion of the recursive dispatch *)

Definition State := (Parser * World)%type.

Inductive outcome (A : Type) :=
| Ok (a : A) (s : State)
| Raise (e : exn)
| OutOfFuel.

Arguments Raise {A} e.
Arguments OutOfFuel {A}.

Definition M (A : Type) := State -> outcome A.

Definition ret {A} (a : A) : M A := fun s => Ok a s.

Definition bind {A B} (m : M A) (k : A -> M B) : M B :=
  fun s => match m s with
           | Ok a s' => k a s'
           | Raise e => Raise e
           | OutOfFuel => OutOfFuel
           end.

Definition raise {A} (e : exn) : M A := fun _ => Raise e.

Declare Scope monad_scope.
Delimit Scope monad_scope with monad.
Notation "x <- m ;; k" := (bind m (fun x => k))
  (at level 61, m at next level, right associativity) : monad_scope.
Notation "' pat <- m ;; k" := (bind m (fun x => match x with pat => k end))
  (at level 61, pat pattern, m at next level, right associativity)
  : monad_scope.
Notation "m ;; k" := (bind m (fun _ => k))
  (at level 61, right associativity) : monad_scope.
Open Scope monad_scope.

Definition get_self : M Parser := fun s => Ok (fst s) s.

Definition modify_self (f : Parser -> Parser) : M unit :=
  fun s => Ok tt (f (fst s), snd s).

(** A Python exception raised by a pure helper. *)
Definition lift {A} (r : exn + A) : M A :=
  match r with inl e => raise e | inr a => ret a end.

(** [p.method(...)]: run a method on another translator object and keep
    the object's new state. *)
Definition on {A} (p : Parser) (m : M A) : M (A * Parser) :=
  fun s => match m (p, snd s) with
           | Ok a s' => Ok (a, fst s') (fst s, snd s')
           | Raise e => Raise e
           | OutOfFuel => OutOfFuel
           end.

Fixpoint mapM {A B} (f : A -> M B) (l : list A) : M (list B) :=
  match l with
  | [] => ret []
  | x :: r => y <- f x ;; ys <- mapM f r ;; ret (y :: ys)
  end.

(** [[f(i, a) for i, a in enumerate(l)]], counting from [i]. *)
Fixpoint mapM_enumerate {A B} (f : nat -> A -> M B) (i : nat) (l : list A)
  : M (list B) :=
  match l with
  | [] => ret []
  | x :: r => y <- f i x ;; ys <- mapM_enumerate f (S i) r ;; ret (y :: ys)
  end.

Fixpoint map_exn {A B} (f : A -> exn + B) (l : list A) : exn + list B :=
  match l with
  | [] => inr []
  | x :: r =>
      match f x with
      | inl e => inl e
      | inr y => match map_exn f r with
                 | inl e => inl e
                 | inr ys => inr (y :: ys)
                 end
      end
  end.

(** [GenSym.__call__(s, rel)]: a fresh symbol named after a string or after
    an existing symbol, with an optional relation tag. *)
Definition GenSym_call (g : GenSym) (s : string + Symbol) (rel : option string)
  : M Symbol :=
  fun st =>
    let w := snd st in
    Ok (mkSymbol (match s with inl n => n | inr sym => label sym end)
                 (gen_namespace g) (supply w) rel)
       (fst st, mkWorld (S (supply w)) (tables w)).

(** [ParseEnv.gen]: the generator owned by a table. *)
Definition ParseEnv_gen (env : ParseEnv) : GenSym :=
  mkGenSym (env_namespace env).

(** [ParseEnv(namespace=...)]: a new, empty table. *)
Definition ParseEnv_new (ns : option string) : M ParseEnv :=
  fun st =>
    let w := snd st in
    Ok (mkParseEnv (length (tables w)) ns)
       (fst st, mkWorld (supply w) (tables w ++ [[]])).

Fixpoint update_nth {A} (n : nat) (f : A -> A) (l : list A) : list A :=
  match l, n with
  | [], _ => []
  | x :: r, O => f x :: r
  | x :: r, S n' => x :: update_nth n' f r
  end.

(** Modelled from the spec: [ParseEnv.__setitem__] of [myia.ast]
    (section 2: the table maps an identifier to its function definition):
    the definition is filed under the identifier in the table the handle
    names.  A handle always names a table that exists. *)
Definition ParseEnv_setitem (env : ParseEnv) (ref : Symbol) (l : Lambda)
  : M unit :=
  fun st =>
    let w := snd st in
    Ok tt (fst st,
           mkWorld (supply w)
                   (update_nth (env_id env)
                               (fun t => dict_set symbol_eqb t ref l)
                               (tables w))).

(** Modelled from the spec: the namespace tags of section 3 ([local] for
    what a translator's own generator issues, [global] for the unit's
    table). *)
Definition GenSym_default : GenSym := mkGenSym (Some "local").

(** Modelled from the spec: the [builtins] of [myia.symbols] (glossary:
    fixed-identity functions [index], [getattr], [setslice], [switch],
    [identity]). *)
Module builtins.
Definition builtin (name : string) : Symbol :=
  mkSymbol name (Some "global::builtin") 0 None.
Definition index := builtin "index".
Definition getattr := builtin "getattr".
Definition setslice := builtin "setslice".
Definition switch := builtin "switch".
Definition identity := builtin "identity".
End builtins.

(** Modelled from the spec: [get_operator] of [myia.symbols] (section
    4.2: each operator is mapped to a fixed builtin identifier by a
    table). *)
Definition get_operator_bin (op : ast.operator) : Symbol :=
  builtins.builtin
    match op with
    | ast.Add => "add" | ast.Sub => "subtract" | ast.Mult => "multiply"
    | ast.MatMult => "dot" | ast.Div => "divide" | ast.Mod => "mod"
    | ast.Pow => "power" | ast.LShift => "lshift" | ast.RShift => "rshift"
    | ast.BitOr => "bit_or" | ast.BitXor => "bit_xor"
    | ast.BitAnd => "bit_and" | ast.FloorDiv => "floor_divide"
    end.

Definition get_operator_unary (op : ast.unaryop) : Symbol :=
  builtins.builtin
    match op with
    | ast.Invert => "bit_not" | ast.Not => "not"
    | ast.UAdd => "unary_add" | ast.USub => "unary_subtract"
    end.

Definition get_operator_cmp (op : ast.cmpop) : Symbol :=
  builtins.builtin
    match op with
    | ast.Eq => "equal" | ast.NotEq => "not_equal" | ast.Lt => "less"
    | ast.LtE => "less_equal" | ast.Gt => "greater"
    | ast.GtE => "greater_equal" | ast.Is => "is" | ast.IsNot => "is_not"
    | ast.In => "in" | ast.NotIn => "not_in"
    end.

(** ** [class Parser] *)

Definition truthy_list {A} (l : list A) : bool :=
  match l with [] => false | _ => true end.

Definition truthy_option {A} (o : option A) : bool :=
  match o with Some _ => true | None => false end.

(** [Parser.__init__]. *)
Definition Parser_init (locator : Locator) (global_env : ParseEnv)
    (macros : list (string * macro)) (gen : option GenSym) (dry : bool)
    (pull_free_variables top_level : bool) (return_error : option string)
    (dest : option Symbol) : M Parser :=
  let g := match gen with Some g => g | None => GenSym_default end in
  d <- match dest with
       | Some d => ret d
       | None => GenSym_call g (inl "#lambda") None
       end ;;
  ret (mkParser locator global_env g dry pull_free_variables top_level
                macros return_error d (mkVariableTracker None []) [] []
                false).

(** [Parser.sub_parser]; the keywords the callers pass are
    [global_env], [dry], [pull_free_variables] and [dest]. *)
Definition sub_parser (kw_global_env : option ParseEnv) (kw_dry : option bool)
    (kw_pull_free_variables : option bool) (kw_dest : option Symbol)
  : M Parser :=
  self <- get_self ;;
  p <- Parser_init
         (locator self)
         (match kw_global_env with Some e => e | None => global_env self end)
         (macros self)
         None
         (match kw_dry with Some d => d | None => dry self end)
         (match kw_pull_free_variables with Some b => b | None => false end)
         false
         (return_error self)
         kw_dest ;;
  ret (set_vtrack p (mkVariableTracker (Some (vtrack self)) [])).

(** [Parser.reg_lambda]. *)
Definition reg_lambda (ref : Symbol) (args : list Symbol)
    (body : MyiaASTNode) : M Symbol :=
  self <- get_self ;;
  let l := mkLambda args body ref (env_id (global_env self)) in
  (if negb (dry self) then ParseEnv_setitem (global_env self) ref l
   else ret tt) ;;
  ret ref.

(** [Parser.new_variable]; [input] is reduced to its [base_name]. *)
Definition new_variable (base_name : string) : M Symbol :=
  self <- get_self ;;
  sym <- GenSym_call (gen self) (inl base_name) None ;;
  modify_self (fun p => set_vtrack p (vt_setitem (vtrack p) base_name sym)) ;;
  ret sym.

(** [Parser.make_assign]. *)
Definition make_assign (base_name : string) (value : MyiaASTNode)
    (location : option Location) : M MyiaASTNode :=
  sym <- new_variable base_name ;;
  modify_self (fun p =>
    set_local_assignments p (name_add (local_assignments p) base_name)) ;;
  ret (_Assign sym value location).

(** [Parser.multi_assign]. *)
Definition multi_assign (ass : list string) (expr : MyiaASTNode)
  : M MyiaASTNode :=
  self <- get_self ;;
  tmp <- GenSym_call (gen self) (inl "#tmp") None ;;
  stmts <- mapM_enumerate
             (fun i a =>
                let idx := Apply builtins.index
                                 [Sym tmp; Value (ast.CNum (Z.of_nat i))]
                                 true in
                make_assign a idx None)
             0 ass ;;
  ret (Begin (_Assign tmp expr None :: stmts)).

(** [Parser.prepare_closure]. *)
Definition prepare_closure (variable : option string) (ref : option Symbol)
  : M Parser :=
  self <- get_self ;;
  ref <- match ref with
         | Some r => ret r
         | None =>
             GenSym_call (ParseEnv_gen (global_env self))
                         (inl (match variable with
                               | Some v => if String.eqb v "" then "#lambda"
                                           else v
                               | None => "#lambda"
                               end))
                         None
         end ;;
  p <- sub_parser None None (Some true) (Some ref) ;;
  ret (match variable with
       | Some v => set_vtrack p (vt_setitem (vtrack p) v ref)
       | None => p
       end).

(** [Parser.visit_variable]. *)
Definition visit_variable (name : string) : M Symbol :=
  self <- get_self ;;
  match get_free (vtrack self) name with
  | inr (free, v) =>
      if free then
        v <- (if pull_free_variables self then new_variable name
              else ret v) ;;
        modify_self (fun p =>
          set_free_variables p
            (dict_set String.eqb (free_variables p) name v)) ;;
        ret v
      else ret v
  | inl (NameError _) => ret (mkSymbol name (Some "global") 0 None)
  | inl e => raise e
  end.

(** [Parser.construct_closure]. *)
Definition construct_closure (p : Parser) (args : list Symbol)
    (body : MyiaASTNode) : M MyiaASTNode :=
  let clos_args := dict_values (free_variables p) in
  clos_values <- mapM visit_variable (dict_keys (free_variables p)) ;;
  lbda <- reg_lambda (dest p) (clos_args ++ args) body ;;
  if (0 <? length clos_args)%nat
  then ret (Closure lbda (map Sym clos_values))
  else ret (Sym lbda).

(** Modelled from the spec: [group_contiguous] of [myia.util] (section
    3: grouping is determined purely by contiguity): maximal runs of
    elements with the same key, each tagged with the key. *)
Fixpoint group_contiguous {A} (l : list A) (f : A -> bool)
  : list (bool * list A) :=
  match l with
  | [] => []
  | x :: r =>
      match group_contiguous r f with
      | (b, grp) :: gs =>
          if Bool.eqb (f x) b then (b, x :: grp) :: gs
          else (f x, [x]) :: (b, grp) :: gs
      | [] => [(f x, [x])]
      end
  end.

Definition is_Assign (n : MyiaASTNode) : bool :=
  match n with _Assign _ _ _ => true | _ => false end.

Definition node_location (n : MyiaASTNode) : option Location :=
  match n with _Assign _ _ l => l | _ => None end.

Definition assign_binding (n : MyiaASTNode) : exn + (Symbol * MyiaASTNode) :=
  match n with
  | _Assign s v _ => inr (s, v)
  | _ => inl (AttributeError "object has no attribute 'varname'")
  end.

(** The closure [helper] inside [Parser.body_wrapper]. *)
Fixpoint helper (groups : list (bool * list MyiaASTNode))
    (result : option MyiaASTNode) : exn + MyiaASTNode :=
  match groups with
  | [] => inl (ValueError "not enough values to unpack (expected at least 1, got 0)")
  | (isass, grp) :: rest =>
      if isass then
        match map_exn assign_binding grp with
        | inl e => inl e
        | inr bindings =>
            match rest with
            | [] =>
                match result with
                | None =>
                    inl (MyiaSyntaxError (node_location (last grp (Tuple [])))
                                         "Missing return statement.")
                | Some r => inr (Let bindings r)
                end
            | _ =>
                match helper rest result with
                | inl e => inl e
                | inr b => inr (Let bindings b)
                end
            end
        end
      else
        match rest with
        | [] =>
            match grp with
            | [g] => inr g
            | _ => inr (Begin grp)
            end
        | _ =>
            match helper rest result with
            | inl e => inl e
            | inr b => inr (Begin (grp ++ [b]))
            end
        end
  end.

(** The recursive dispatch [self.visit], by syntactic sort.  The keyword
    argument of [visit] is [allow_decorator] when present. *)
Record visitor := mkVisitor {
  v_expr : ast.expr -> M MyiaASTNode;
  v_slice : ast.slice -> M MyiaASTNode;
  v_stmt : option bool -> ast.stmt -> M MyiaASTNode
}.

Definition make_location (p : ast.position) : M (option Location) :=
  self <- get_self ;; ret (Locator_call (locator self) p).

(** The statement loop of [Parser.body_wrapper]. *)
Fixpoint body_loop (rec : visitor) (stmts : list ast.stmt)
    (results : list MyiaASTNode) : M (list MyiaASTNode) :=
  match stmts with
  | [] => ret results
  | stmt :: rest =>
      self <- get_self ;;
      let ret_ := returns self in
      r <- v_stmt rec None stmt ;;
      if ret_ then
        loc <- make_location (ast.stmt_pos stmt) ;;
        raise (MyiaSyntaxError loc
                 "There should be no statements after return.")
      else
        body_loop rec rest
          (match r with
           | Begin stmts' => results ++ stmts'
           | _ => results ++ [r]
           end)
  end.

(** [Parser.body_wrapper]: the returned closure is [helper] applied to the
    groups computed here. *)
Definition body_wrapper (rec : visitor) (stmts : list ast.stmt)
  : M (list (bool * list MyiaASTNode)) :=
  results <- body_loop rec stmts [] ;;
  ret (group_contiguous results is_Assign).

(** [Parser.visit_body]. *)
Definition visit_body (rec : visitor) (stmts : list ast.stmt)
  : M MyiaASTNode :=
  groups <- body_wrapper rec stmts ;;
  lift (helper groups None).

(** The [body] argument of [make_closure]: a callable given the fresh
    translator, a statement list, or a single node. *)
Inductive closure_body :=
| BodyCallable (f : M MyiaASTNode)
| BodyStmts (l : list ast.stmt)
| BodyExpr (e : ast.expr).

(** [Parser.make_closure]. *)
Definition make_closure (rec : visitor) (args : list string)
    (body : closure_body) (loc : option Location) (variable : string)
    (ref : option Symbol) : M MyiaASTNode :=
  p <- prepare_closure (Some variable) ref ;;
  '(r, p) <- on p (sargs <- mapM new_variable args ;;
                   fbody <- match body with
                            | BodyCallable f => f
                            | BodyStmts l => visit_body rec l
                            | BodyExpr e => v_expr rec e
                            end ;;
                   ret (sargs, fbody)) ;;
  construct_closure p (fst r) (snd r).

(** A call [self.make_closure(args, body, **kw)]: the keywords are bound
    to the parameters of [make_closure]; a keyword that is not a parameter
    is a [TypeError]. *)
Inductive kwvalue :=
| KwLocation (l : option Location)
| KwString (s : string)
| KwSymbol (s : Symbol).

Definition make_closure_params : list string :=
  ["args"; "body"; "loc"; "variable"; "ref"].

Definition call_make_closure (rec : visitor) (args : list string)
    (body : closure_body) (kw : list (string * kwvalue)) : M MyiaASTNode :=
  match find (fun k => negb (name_mem k make_closure_params)) (dict_keys kw)
  with
  | Some k =>
      raise (TypeError ("make_closure() got an unexpected keyword argument '"
                        ++ k ++ "'"))
  | None =>
      make_closure rec args body
        (match dict_get String.eqb kw "loc" with
         | Some (KwLocation l) => l
         | _ => None
         end)
        (match dict_get String.eqb kw "variable" with
         | Some (KwString v) => v
         | _ => "#lambda"
         end)
        (match dict_get String.eqb kw "ref" with
         | Some (KwSymbol r) => Some r
         | _ => None
         end)
  end.

(** *** The [visit_*] methods *)

Definition expr_cls (e : ast.expr) : string :=
  match e with
  | ast.BinOp _ _ _ _ => "BinOp" | ast.UnaryOp _ _ _ => "UnaryOp"
  | ast.Lambda _ _ _ => "Lambda" | ast.Compare _ _ _ _ => "Compare"
  | ast.Call _ _ _ _ => "Call" | ast.Num _ _ => "Num" | ast.Str _ _ => "Str"
  | ast.NameConstant _ _ => "NameConstant"
  | ast.Attribute _ _ _ => "Attribute" | ast.Subscript _ _ _ => "Subscript"
  | ast.Name _ _ => "Name" | ast.Tuple _ _ => "Tuple"
  | ast.OtherExpr _ cls => cls
  end.

(** [self.visit(None)]: no [visit_NoneType] exists. *)
Definition visit_None : M MyiaASTNode :=
  raise (MyiaSyntaxError None "Unrecognized Python AST node type: NoneType").

(** A method that takes no keyword is called with the keywords of
    [visit]. *)
Definition no_kwargs (method : string) (kw : option bool) : M unit :=
  match kw with
  | None => ret tt
  | Some _ =>
      raise (TypeError (method ++
               "() got an unexpected keyword argument 'allow_decorator'"))
  end.

Definition visit_Assign (rec : visitor) (targets : list ast.expr)
    (value : ast.expr) (loc : option Location) : M MyiaASTNode :=
  match targets with
  | [] => raise (ValueError "not enough values to unpack (expected 1, got 0)")
  | [targ] =>
      match targ with
      | ast.Tuple _ _ =>
          raise (MyiaSyntaxError loc
                   "Deconstructing assignment is not supported.")
      | ast.Subscript _ tvalue tslice =>
          match tvalue with
          | ast.Name _ id =>
              val <- v_expr rec value ;;
              base <- v_expr rec tvalue ;;
              idx <- v_slice rec tslice ;;
              make_assign id (Apply builtins.setslice [base; idx; val] false)
                          loc
          | _ =>
              raise (MyiaSyntaxError loc
                       "You can only set a slice on a variable.")
          end
      | ast.Name _ id =>
          val <- v_expr rec value ;;
          make_assign id val loc
      | _ =>
          (* the message ends with [repr(targ)], the default repr of the
             target object; the address it prints is not fixed by the
             source and is left out *)
          raise (MyiaSyntaxError loc
                   ("Unsupported targ for Assign: <_ast." ++ expr_cls targ
                    ++ " object>"))
      end
  | _ => raise (ValueError "too many values to unpack (expected 1)")
  end.

Definition visit_Attribute (rec : visitor) (value : ast.expr) (attr : string)
  : M MyiaASTNode :=
  v <- v_expr rec value ;;
  ret (Apply builtins.getattr [v; Value (ast.CStr attr)] false).

Definition visit_AugAssign (rec : visitor) (target : ast.expr)
    (op : ast.operator) (value : ast.expr) (loc : option Location)
  : M MyiaASTNode :=
  match target with
  | ast.Name _ id =>
      aug <- v_expr rec value ;;
      let op := get_operator_bin op in
      visit_variable id ;;
      self <- get_self ;;
      prev <- lift (vt_getitem (vtrack self) id) ;;
      let val := Apply op [Sym prev; aug] false in
      make_assign id val loc
  | _ =>
      raise (MyiaSyntaxError loc
               "Augmented assignment to subscripts or slices is not supported.")
  end.

Definition visit_BinOp (rec : visitor) (left : ast.expr) (op : ast.operator)
    (right : ast.expr) : M MyiaASTNode :=
  let op := get_operator_bin op in
  l <- v_expr rec left ;;
  r <- v_expr rec right ;;
  ret (Apply op [l; r] false).

Definition visit_Call (rec : visitor) (func : ast.expr)
    (args : list ast.expr) (keywords : list (ast.keyword ast.expr))
    (loc : option Location) : M MyiaASTNode :=
  if (0 <? length keywords)%nat then
    raise (MyiaSyntaxError loc "Keyword arguments are not allowed.")
  else
    args <- mapM (v_expr rec) args ;;
    self <- get_self ;;
    match match func with
          | ast.Name _ id => dict_get String.eqb (macros self) id
          | _ => None
          end
    with
    | Some m => ret (m args)
    | None =>
        func <- v_expr rec func ;;
        ret (Apply func args false)
    end.

Definition visit_Compare (rec : visitor) (left : ast.expr)
    (ops : list ast.cmpop) (comparators : list ast.expr)
    (loc : option Location) : M MyiaASTNode :=
  match map get_operator_cmp ops with
  | [op] =>
      l <- v_expr rec left ;;
      match comparators with
      | c :: _ =>
          cmp <- v_expr rec c ;;
          ret (Apply op [l; cmp] false)
      | [] => raise (IndexError "list index out of range")
      end
  | _ =>
      raise (MyiaSyntaxError loc
               "Comparisons must have a maximum of two operands")
  end.

Definition visit_Expr (rec : visitor) (value : ast.expr) : M MyiaASTNode :=
  v_expr rec value.

Definition visit_ExtSlice (rec : visitor) (dims : list ast.slice)
  : M MyiaASTNode :=
  vs <- mapM (v_slice rec) dims ;;
  ret (Tuple vs).

Definition visit_FunctionDef (rec : visitor) (name : string)
    (args : ast.arguments ast.expr) (body : list ast.stmt)
    (decorator_list : list ast.expr) (loc : option Location)
    (allow_decorator : bool) : M MyiaASTNode :=
  if truthy_option (ast.vararg args) || truthy_option (ast.kwarg args) then
    raise (MyiaSyntaxError loc "Varargs are not allowed.")
  else if truthy_list (ast.kwonlyargs args) then
    raise (MyiaSyntaxError loc "Keyword-only arguments are not allowed.")
  else if truthy_list (ast.defaults args)
          || truthy_list (ast.kw_defaults args) then
    raise (MyiaSyntaxError loc "Default arguments are not allowed.")
  else if negb allow_decorator && (0 <? length decorator_list)%nat then
    raise (MyiaSyntaxError loc "Functions should not have decorators.")
  else
    self <- get_self ;;
    let lbl := if top_level self then name else "#:" ++ name in
    ref <- GenSym_call (ParseEnv_gen (global_env self)) (inl lbl) None ;;
    sym <- new_variable name ;;
    clos <- call_make_closure rec (ast.args args) (BodyStmts body)
              [("loc", KwLocation loc); ("label", KwString name);
               ("ref", KwSymbol ref)] ;;
    ret (_Assign sym clos loc).

(** The local function [mkapply] of [visit_If]. *)
Definition mkapply (rec : visitor) (test : ast.expr)
    (p1 : Parser) (body : list (bool * list MyiaASTNode))
    (p2 : Parser) (orelse : list (bool * list MyiaASTNode))
    (then_finalize else_finalize : option MyiaASTNode) : M MyiaASTNode :=
  then_body <- lift (helper body then_finalize) ;;
  then_branch <- construct_closure p1 [] then_body ;;
  else_body <- lift (helper orelse else_finalize) ;;
  else_branch <- construct_closure p2 [] else_body ;;
  t <- v_expr rec test ;;
  ret (Apply (Apply builtins.switch [t; then_branch; else_branch] false)
             [] false).

Definition visit_If (rec : visitor) (test : ast.expr)
    (node_body node_orelse : list ast.stmt) (loc : option Location)
  : M MyiaASTNode :=
  self <- get_self ;;
  ref1 <- GenSym_call (ParseEnv_gen (global_env self)) (inr (dest self))
                      (Some "✓") ;;
  p1 <- prepare_closure None (Some ref1) ;;
  '(body, p1) <- on p1 (body_wrapper rec node_body) ;;
  ref2 <- GenSym_call (ParseEnv_gen (global_env self)) (inr (dest self))
                      (Some "✗") ;;
  p2 <- prepare_closure None (Some ref2) ;;
  '(orelse, p2) <- on p2 (body_wrapper rec node_orelse) ;;
  if negb (Bool.eqb (returns p1) (returns p2)) then
    raise (MyiaSyntaxError loc
      "Either none or all branches of an if statement must return a value.")
  else if negb (name_set_eqb (local_assignments p1) (local_assignments p2))
  then
    raise (MyiaSyntaxError loc
      ("All branches of an if statement must assign to the same set "
       ++ " of variables." ++ String (ascii_of_nat 10) "True branch sets: "
       ++ join " " (sorted (local_assignments p1))
       ++ String (ascii_of_nat 10) "Else branch sets: "
       ++ join " " (sorted (local_assignments p2))))
  else if returns p1 then
    modify_self (fun p => set_returns p true) ;;
    mkapply rec test p1 body p2 orelse None None
  else
    let ass := local_assignments p1 in
    match ass with
    | [a] =>
        x1 <- lift (vt_getitem (vtrack p1) a) ;;
        x2 <- lift (vt_getitem (vtrack p2) a) ;;
        app <- mkapply rec test p1 body p2 orelse
                       (Some (Sym x1)) (Some (Sym x2)) ;;
        make_assign a app None
    | _ =>
        t1 <- lift (map_exn (vt_getitem (vtrack p1)) ass) ;;
        t2 <- lift (map_exn (vt_getitem (vtrack p2)) ass) ;;
        app <- mkapply rec test p1 body p2 orelse
                       (Some (Tuple (map Sym t1)))
                       (Some (Tuple (map Sym t2))) ;;
        multi_assign ass app
    end.

Definition visit_Index (rec : visitor) (value : ast.expr) : M MyiaASTNode :=
  v_expr rec value.

Definition visit_Lambda (rec : visitor) (args : ast.arguments ast.expr)
    (body : ast.expr) (loc : option Location) : M MyiaASTNode :=
  call_make_closure rec (ast.args args) (BodyExpr body)
                    [("loc", KwLocation loc)].

Definition visit_Name (id : string) : M MyiaASTNode :=
  v <- visit_variable id ;; ret (Sym v).

Definition visit_NameConstant (value : ast.constant) : M MyiaASTNode :=
  ret (Value value).

Definition visit_Num (n : Z) : M MyiaASTNode := ret (Value (ast.CNum n)).

Definition visit_Return (rec : visitor) (value : option ast.expr)
    (loc : option Location) : M MyiaASTNode :=
  self <- get_self ;;
  match return_error self with
  | Some msg =>
      if String.eqb msg "" then ret tt else raise (MyiaSyntaxError loc msg)
  | None => ret tt
  end ;;
  modify_self (fun p => set_returns p true) ;;
  match value with Some e => v_expr rec e | None => visit_None end.

Definition visit_opt (rec : visitor) (e : option ast.expr)
    (dflt : ast.constant) : M MyiaASTNode :=
  match e with Some e => v_expr rec e | None => ret (Value dflt) end.

Definition visit_Slice (rec : visitor) (lower upper step : option ast.expr)
  : M MyiaASTNode :=
  l <- visit_opt rec lower (ast.CNum 0) ;;
  u <- visit_opt rec upper ast.CNone ;;
  s <- visit_opt rec step (ast.CNum 1) ;;
  ret (Apply (Sym (mkSymbol "slice" None 0 None)) [l; u; s] false).

Definition visit_Str (s : string) : M MyiaASTNode := ret (Value (ast.CStr s)).

Definition visit_Tuple (rec : visitor) (elts : list ast.expr)
  : M MyiaASTNode :=
  vs <- mapM (v_expr rec) elts ;;
  ret (Tuple vs).

Definition visit_Subscript (rec : visitor) (value : ast.expr)
    (slice : ast.slice) : M MyiaASTNode :=
  v <- v_expr rec value ;;
  i <- v_slice rec slice ;;
  ret (Apply builtins.index [v; i] false).

Definition visit_UnaryOp (rec : visitor) (op : ast.unaryop)
    (operand : ast.expr) : M MyiaASTNode :=
  let op := get_operator_unary op in
  v <- v_expr rec operand ;;
  ret (Apply op [v] false).

(** The positional arguments of [explore_vars]: a statement list goes
    through [body_wrapper], anything else through [visit]. *)
Inductive explore_item :=
| ExploreExpr (e : ast.expr)
| ExploreStmts (l : list ast.stmt).

Record while_vars := mk_while_vars { in_ : list string; out : list string }.

(** [Parser.explore_vars]. *)
Definition explore_vars (rec : visitor) (exprs : list explore_item)
    (return_error : option string) : M while_vars :=
  env <- ParseEnv_new None ;;
  testp <- sub_parser (Some env) (Some true) None None ;;
  let testp := set_return_error testp return_error in
  '(_, testp) <- on testp
                   (mapM (fun expr =>
                            match expr with
                            | ExploreStmts l => body_wrapper rec l ;; ret tt
                            | ExploreExpr e => v_expr rec e ;; ret tt
                            end)
                         exprs) ;;
  (* invars = testp.free_variables; invars.update(testp.local_assignments) *)
  let invars := fold_left name_add (local_assignments testp)
                          (dict_keys (free_variables testp)) in
  ret (mk_while_vars invars (local_assignments testp)).

(** [Parser.visit_While]. *)
Definition visit_While (rec : visitor) (test : ast.expr)
    (node_body : list ast.stmt) : M MyiaASTNode :=
  self <- get_self ;;
  wsym <- GenSym_call (ParseEnv_gen (global_env self)) (inr (dest self))
                      (Some "↻") ;;
  wbsym <- GenSym_call (ParseEnv_gen (global_env self)) (inr (dest self))
                       (Some "⥁") ;;
  (* We visit the body once to get the free variables *)
  while_vars <- explore_vars rec [ExploreExpr test; ExploreStmts node_body]
                             None ;;
  let in_vars := in_ while_vars in
  let out_vars := out while_vars in
  mapM visit_variable in_vars ;;
  (* We visit once more, this time adding the free vars as parameters *)
  p <- sub_parser None None None (Some wsym) ;;
  '(r, p) <- on p (in_syms <- mapM new_variable in_vars ;;
                   p0 <- get_self ;;
                   initial_values <-
                     lift (map_exn (vt_getitem (vtrack p0)) out_vars) ;;
                   test <- v_expr rec test ;;
                   body <- body_wrapper rec node_body ;;
                   ret (in_syms, initial_values, test, body)) ;;
  let '(in_syms, initial_values, test, body) := r in
  let if_args := in_syms in
  next <- lift (map_exn (vt_getitem (vtrack p)) in_vars) ;;
  if_body <- lift (helper body (Some (Apply wsym (map Sym next) false))) ;;
  if_fn <- reg_lambda wbsym if_args if_body ;;
  let new_body :=
    Apply (Apply builtins.switch
                 [test;
                  Closure if_fn (map Sym in_syms);
                  Closure builtins.identity [Tuple (map Sym initial_values)]]
                 false)
          [] false in
  reg_lambda wsym in_syms new_body ;;
  self <- get_self ;;
  vals <- lift (map_exn (vt_getitem (vtrack self)) in_vars) ;;
  multi_assign out_vars (Apply wsym (map Sym vals) false).

(** *** [LocVisitor.visit]: one step of dispatch on the node class *)

(** Modelled from the spec: [MyiaASTNode.at] of [myia.ast] (section 2: a
    Location is attached to IR nodes): the node with the given location
    attached.  Of the nodes kept here only an assignment carries its
    location, so every other node is returned as it is. *)
Definition at_ (n : MyiaASTNode) (loc : option Location) : MyiaASTNode :=
  match n with
  | _Assign v val _ => _Assign v val loc
  | _ => n
  end.

Definition visit_expr (rec : visitor) (node : ast.expr) : M MyiaASTNode :=
  loc <- make_location (ast.expr_pos node) ;;
  rval <-
  match node with
  | ast.BinOp _ l op r => visit_BinOp rec l op r
  | ast.UnaryOp _ op e => visit_UnaryOp rec op e
  | ast.Lambda _ args body => visit_Lambda rec args body loc
  | ast.Compare _ l ops cs => visit_Compare rec l ops cs loc
  | ast.Call _ f args kws => visit_Call rec f args kws loc
  | ast.Num _ n => visit_Num n
  | ast.Str _ s => visit_Str s
  | ast.NameConstant _ c => visit_NameConstant c
  | ast.Attribute _ v attr => visit_Attribute rec v attr
  | ast.Subscript _ v sl => visit_Subscript rec v sl
  | ast.Name _ id => visit_Name id
  | ast.Tuple _ elts => visit_Tuple rec elts
  | ast.OtherExpr _ cls =>
      raise (MyiaSyntaxError loc
               ("Unrecognized Python AST node type: " ++ cls))
  end ;;
  ret (at_ rval loc).

(** A slice node has no position: its location is [None]. *)
Definition visit_slice (rec : visitor) (node : ast.slice) : M MyiaASTNode :=
  rval <-
  match node with
  | ast.Index v => visit_Index rec v
  | ast.Slice l u s => visit_Slice rec l u s
  | ast.ExtSlice dims => visit_ExtSlice rec dims
  end ;;
  ret (at_ rval None).

Definition visit_stmt (rec : visitor) (kw : option bool) (node : ast.stmt)
  : M MyiaASTNode :=
  loc <- make_location (ast.stmt_pos node) ;;
  rval <-
  match node with
  | ast.FunctionDef _ name args body decorators =>
      visit_FunctionDef rec name args body decorators loc
                        (match kw with Some b => b | None => false end)
  | ast.Return _ v => no_kwargs "visit_Return" kw ;; visit_Return rec v loc
  | ast.Assign _ targets v =>
      no_kwargs "visit_Assign" kw ;; visit_Assign rec targets v loc
  | ast.AugAssign _ t op v =>
      no_kwargs "visit_AugAssign" kw ;; visit_AugAssign rec t op v loc
  | ast.While _ test body _ =>
      no_kwargs "visit_While" kw ;; visit_While rec test body
  | ast.If _ test body orelse =>
      no_kwargs "visit_If" kw ;; visit_If rec test body orelse loc
  | ast.Expr _ v => visit_Expr rec v
  | ast.OtherStmt _ cls =>
      raise (MyiaSyntaxError loc
               ("Unrecognized Python AST node type: " ++ cls))
  end ;;
  ret (at_ rval loc).

(** [Parser.visit_Module]. *)
Definition visit_Module (rec : visitor) (node : ast.mod_)
    (allow_decorator : bool) : M (list MyiaASTNode) :=
  match node with
  | ast.Module body => mapM (v_stmt rec (Some allow_decorator)) body
  end.

Definition out_of_fuel {A} : M A := fun _ => OutOfFuel.

(** The translator with its dispatch closed: [visit fuel] follows
    [self.visit] through at most [fuel] nested nodes. *)
Fixpoint visit (fuel : nat) : visitor :=
  match fuel with
  | O => mkVisitor (fun _ => out_of_fuel) (fun _ => out_of_fuel)
                   (fun _ _ => out_of_fuel)
  | S n => mkVisitor (visit_expr (visit n)) (visit_slice (visit n))
                     (visit_stmt (visit n))
  end.

(** * Specification vocabulary *)

Unset Implicit Arguments.

(** A name is bound in some frame of the scope chain. *)
Fixpoint bound_in_chain (t : VariableTracker) (name : string) : bool :=
  match t with
  | mkVariableTracker parent bindings =>
      dict_mem String.eqb bindings name
      || match parent with
         | Some par => bound_in_chain par name
         | None => false
         end
  end.

Definition succeeds {A} (o : outcome A) : bool :=
  match o with Ok _ _ => true | _ => false end.

Definition is_NameError (e : exn) : bool :=
  match e with NameError _ => true | _ => false end.

(** What [LocVisitor.visit] makes of the outcome of a method: a node that
    is returned gets the location of the visited node. *)
Definition stamped (loc : option Location) (o : outcome MyiaASTNode)
  : outcome MyiaASTNode :=
  match o with
  | Ok r s => Ok (at_ r loc) s
  | Raise e => Raise e
  | OutOfFuel => OutOfFuel
  end.

Definition no_name_error : exn -> Prop := fun e => is_NameError e = false.

(** The entry count of the table a handle names. *)
Definition entry_count (w : World) (env : ParseEnv) : nat :=
  length (nth (env_id env) (tables w) []).

(** The first half of [visit_If]: each branch is translated by its own
    prepared translator. *)
Definition translate_branches (rec : visitor)
    (node_body node_orelse : list ast.stmt)
  : M ((list (bool * list MyiaASTNode) * Parser)
       * (list (bool * list MyiaASTNode) * Parser)) :=
  self <- get_self ;;
  ref1 <- GenSym_call (ParseEnv_gen (global_env self)) (inr (dest self))
                      (Some "✓") ;;
  p1 <- prepare_closure None (Some ref1) ;;
  b1 <- on p1 (body_wrapper rec node_body) ;;
  ref2 <- GenSym_call (ParseEnv_gen (global_env self)) (inr (dest self))
                      (Some "✗") ;;
  p2 <- prepare_closure None (Some ref2) ;;
  b2 <- on p2 (body_wrapper rec node_orelse) ;;
  ret (b1, b2).

(** The second half of [visit_If]: validation of the two branches and
    the merge of their bindings. *)
Definition merge_branches (rec : visitor) (test : ast.expr)
    (loc : option Location)
    (b1 b2 : list (bool * list MyiaASTNode) * Parser) : M MyiaASTNode :=
  let '(body, p1) := b1 in
  let '(orelse, p2) := b2 in
  if negb (Bool.eqb (returns p1) (returns p2)) then
    raise (MyiaSyntaxError loc
      "Either none or all branches of an if statement must return a value.")
  else if negb (name_set_eqb (local_assignments p1) (local_assignments p2))
  then
    raise (MyiaSyntaxError loc
      ("All branches of an if statement must assign to the same set "
       ++ " of variables." ++ String (ascii_of_nat 10) "True branch sets: "
       ++ join " " (sorted (local_assignments p1))
       ++ String (ascii_of_nat 10) "Else branch sets: "
       ++ join " " (sorted (local_assignments p2))))
  else if returns p1 then
    modify_self (fun p => set_returns p true) ;;
    mkapply rec test p1 body p2 orelse None None
  else
    let ass := local_assignments p1 in
    match ass with
    | [a] =>
        x1 <- lift (vt_getitem (vtrack p1) a) ;;
        x2 <- lift (vt_getitem (vtrack p2) a) ;;
        app <- mkapply rec test p1 body p2 orelse
                       (Some (Sym x1)) (Some (Sym x2)) ;;
        make_assign a app None
    | _ =>
        t1 <- lift (map_exn (vt_getitem (vtrack p1)) ass) ;;
        t2 <- lift (map_exn (vt_getitem (vtrack p2)) ass) ;;
        app <- mkapply rec test p1 body p2 orelse
                       (Some (Tuple (map Sym t1)))
                       (Some (Tuple (map Sym t2))) ;;
        multi_assign ass app
    end.

(** The two messages of [visit_If]. *)
Definition return_mismatch_message : string :=
  "Either none or all branches of an if statement must return a value.".

Definition assign_mismatch_message (a b : list string) : string :=
  "All branches of an if statement must assign to the same set "
  ++ " of variables." ++ String (ascii_of_nat 10) "True branch sets: "
  ++ join " " (sorted a)
  ++ String (ascii_of_nat 10) "Else branch sets: "
  ++ join " " (sorted b).



(** A property of a computation in the style of a Hoare triple, with
    the shape every invariant of the translator has: [PP] is kept by the
    translator in control, [RW] relates the world before and after, [V]
    holds of the result, and only exceptions in [EX] escape. *)
Definition sound (PP : Parser -> Prop) (RW : World -> World -> Prop)
    (EX : exn -> Prop) {A} (m : M A) (V : A -> Prop) : Prop :=
  forall p w,
    PP p ->
    match m (p, w) with
    | Ok a (p', w') => PP p' /\ RW w w' /\ V a
    | Raise e => EX e
    | OutOfFuel => True
    end.

Definition any {A} : A -> Prop := fun _ => True.

(** Statements that neither branch, loop, nor define. *)
Definition simple_stmt (s : ast.stmt) : Prop :=
  match s with
  | ast.Return _ _ | ast.Assign _ _ _ | ast.Expr _ _ => True
  | _ => False
  end.

(** Tables that exist are left as they are. *)
Definition tables_kept (w w' : World) : Prop :=
  forall i t, nth_error (tables w) i = Some t ->
              nth_error (tables w') i = Some t.

(** Every locally assigned name is bound in the innermost frame. *)
Definition assigned_bound (p : Parser) : Prop :=
  forall n, In n (local_assignments p) ->
            dict_mem String.eqb (vt_bindings (vtrack p)) n = true.

Definition keeps_assigned_bound {A} (m : M A) (V : A -> Prop) : Prop :=
  sound assigned_bound (fun _ _ => True) (fun _ => True) m V.

(** A dry translator stays dry and leaves the existing tables alone. *)
Definition keeps_dry {A} (m : M A) (V : A -> Prop) : Prop :=
  sound (fun p => dry p = true) tables_kept (fun _ => True) m V.

(** ** Sample translation units *)

Definition pos0 : ast.position := ast.mkpos 1 0.

Definition genv0 : ParseEnv := mkParseEnv 0 (Some "global").

Definition world0 : World := mkWorld 1 [[]].

(** The translator [parse_source] builds for a unit. *)
Definition top0 : Parser :=
  mkParser (mkLocator "f.py" 1) genv0 GenSym_default false false true []
           None (mkSymbol "#lambda" (Some "local") 0 None)
           (mkVariableTracker None []) [] [] false.

Definition args_x : ast.arguments ast.expr :=
  ast.mkarguments ["x"] None [] [] None [].

(** [def f(x): return x] *)
Definition def_f : ast.stmt :=
  ast.FunctionDef pos0 "f" args_x
                  [ast.Return pos0 (Some (ast.Name pos0 "x"))] [].

(** [while c: return 1] *)
Definition while_return : ast.stmt :=
  ast.While pos0 (ast.Name pos0 "c")
            [ast.Return pos0 (Some (ast.Num pos0 1))] [].


Definition assign (name : string) (n : Z) : ast.stmt :=
  ast.Assign pos0 [ast.Name pos0 name] (ast.Num pos0 n).

(** [if c: a = 1 else: b = 2] *)
Definition if_mismatch : ast.stmt :=
  ast.If pos0 (ast.Name pos0 "c") [assign "a" 1] [assign "b" 2].

(** [if c: return 1 else: a = 2] *)
Definition if_half_return : ast.stmt :=
  ast.If pos0 (ast.Name pos0 "c")
         [ast.Return pos0 (Some (ast.Num pos0 1))] [assign "a" 2].

(** [if c: a = 1; b = 2 else: b = 3; a = 4] *)
Definition if_two_names : ast.stmt :=
  ast.If pos0 (ast.Name pos0 "c")
         [assign "a" 1; assign "b" 2] [assign "b" 3; assign "a" 4].

(** A translator in whose scope [x] is bound. *)
Definition sym_x : Symbol := mkSymbol "x" (Some "local") 1 None.

Definition top_x : Parser :=
  set_vtrack top0 (mkVariableTracker None [("x", sym_x)]).

Definition world1 : World := mkWorld 2 [[]].

(** [x += 1] and [v[0] += 1] *)
Definition aug_x : ast.stmt :=
  ast.AugAssign pos0 (ast.Name pos0 "x") ast.Add (ast.Num pos0 1).

Definition aug_subscript : ast.stmt :=
  ast.AugAssign pos0
    (ast.Subscript pos0 (ast.Name pos0 "v") (ast.Index (ast.Num pos0 0)))
    ast.Add (ast.Num pos0 1).








(** ** Forgetting uniqueness tokens

    What the translator decides (errors, recorded names, the shape of the
    nodes) does not depend on which tokens the supply hands out.  Two
    values are compared after their tokens are erased. *)

Definition erase_sym (s : Symbol) : Symbol :=
  mkSymbol (label s) (namespace s) 0 (relation s).

Fixpoint erase_node (n : MyiaASTNode) : MyiaASTNode :=
  match n with
  | Sym s => Sym (erase_sym s)
  | Value c => Value c
  | Tuple vs => Tuple (map erase_node vs)
  | Apply f args c => Apply (erase_node f) (map erase_node args) c
  | Let bs body =>
      Let (map (fun b : Symbol * MyiaASTNode =>
                  let (s, v) := b in (erase_sym s, erase_node v)) bs)
          (erase_node body)
  | Begin stmts => Begin (map erase_node stmts)
  | Closure f args => Closure (erase_sym f) (map erase_node args)
  | _Assign v val loc => _Assign (erase_sym v) (erase_node val) loc
  end.

Definition erase_dict (d : list (string * Symbol)) : list (string * Symbol) :=
  map (fun kv => (fst kv, erase_sym (snd kv))) d.

Fixpoint erase_vt (t : VariableTracker) : VariableTracker :=
  match t with
  | mkVariableTracker parent b =>
      mkVariableTracker
        (match parent with Some par => Some (erase_vt par) | None => None end)
        (erase_dict b)
  end.

Definition erase_groups (g : list (bool * list MyiaASTNode))
  : list (bool * list MyiaASTNode) :=
  map (fun x => (fst x, map erase_node (snd x))) g.

(** A macro may look at its arguments, but not at their tokens. *)
Definition macros_parametric (ms : list (string * macro)) : Prop :=
  forall k m, In (k, m) ms ->
    forall a1 a2,
      map erase_node a1 = map erase_node a2 ->
      erase_node (m a1) = erase_node (m a2).

(** Two translators that differ only in tokens (and in which table they
    write to). *)
Record similar (p1 p2 : Parser) : Prop := mk_similar {
  sim_locator : locator p1 = locator p2;
  sim_env : env_namespace (global_env p1) = env_namespace (global_env p2);
  sim_gen : gen p1 = gen p2;
  sim_dry : dry p1 = dry p2;
  sim_pull : pull_free_variables p1 = pull_free_variables p2;
  sim_top : top_level p1 = top_level p2;
  sim_macros : macros p1 = macros p2;
  sim_parametric : macros_parametric (macros p1);
  sim_return_error : return_error p1 = return_error p2;
  sim_dest : erase_sym (dest p1) = erase_sym (dest p2);
  sim_vtrack : erase_vt (vtrack p1) = erase_vt (vtrack p2);
  sim_free : erase_dict (free_variables p1) = erase_dict (free_variables p2);
  sim_assigned : local_assignments p1 = local_assignments p2;
  sim_returns : returns p1 = returns p2
}.

(** Two computations that, started from similar translators in any two
    worlds, end alike: the same exception, or results related by [R] and
    similar translators again. *)
Definition related {A} (R : A -> A -> Prop) (m1 m2 : M A) : Prop :=
  forall p1 w1 p2 w2,
    similar p1 p2 ->
    match m1 (p1, w1), m2 (p2, w2) with
    | Ok a1 (q1, _), Ok a2 (q2, _) => R a1 a2 /\ similar q1 q2
    | Raise e1, Raise e2 => e1 = e2
    | OutOfFuel, OutOfFuel => True
    | _, _ => False
    end.

Definition rel_sym (a b : Symbol) : Prop := erase_sym a = erase_sym b.
Definition rel_node (a b : MyiaASTNode) : Prop := erase_node a = erase_node b.
Definition rel_syms (a b : list Symbol) : Prop :=
  map erase_sym a = map erase_sym b.
Definition rel_nodes (a b : list MyiaASTNode) : Prop :=
  map erase_node a = map erase_node b.
Definition rel_groups (a b : list (bool * list MyiaASTNode)) : Prop :=
  erase_groups a = erase_groups b.
Definition rel_any {A} (a b : A) : Prop := True.

(** Two results of a fallible pure function that agree up to tokens. *)
Definition rel_result {A} (R : A -> A -> Prop) (r1 r2 : exn + A) : Prop :=
  match r1, r2 with
  | inl e1, inl e2 => e1 = e2
  | inr a1, inr a2 => R a1 a2
  | _, _ => False
  end.

Definition erase_binding (b : Symbol * MyiaASTNode) : Symbol * MyiaASTNode :=
  let (s, v) := b in (erase_sym s, erase_node v).

Definition sym_source_label (s : string + Symbol) : string :=
  match s with inl n => n | inr sym => label sym end.

Definition rel_option {A} (R : A -> A -> Prop) (o1 o2 : option A) : Prop :=
  match o1, o2 with
  | Some a, Some b => R a b
  | None, None => True
  | _, _ => False
  end.

(** A translator with a macro table: [pair(...)] builds a tuple of its
    translated arguments. *)
Definition pair_macro : macro := fun args => Tuple args.

Definition top_pair : Parser :=
  mkParser (mkLocator "f.py" 1) genv0 GenSym_default false false true
           [("pair", pair_macro)] None
           (mkSymbol "#lambda" (Some "local") 0 None)
           (mkVariableTracker None [("x", sym_x)]) [] [] false.

(** The test and body of [while x: x += 1; y = pair(x, n)]. *)
Definition loop_items : list explore_item :=
  [ExploreExpr (ast.Name pos0 "x");
   ExploreStmts
     [aug_x;
      ast.Assign pos0 [ast.Name pos0 "y"]
        (ast.Call pos0 (ast.Name pos0 "pair")
                  [ast.Name pos0 "x"; ast.Name pos0 "n"] [])]].

Definition loop_run : outcome while_vars :=
  Eval vm_compute in explore_vars (visit 4) loop_items None (top_pair, world1).

Definition loop_vars : while_vars :=
  Eval vm_compute in
    match loop_run with Ok v _ => v | _ => mk_while_vars [] [] end.

Definition loop_world : World :=
  Eval vm_compute in
    match loop_run with Ok _ (_, w) => w | _ => world1 end.

(** ** Further properties: vocabulary *)

(** Every group is non-empty and holds only nodes of its own kind. *)
Definition well_grouped (groups : list (bool * list MyiaASTNode)) : Prop :=
  Forall (fun g => snd g <> []
                   /\ Forall (fun x => is_Assign x = fst g) (snd g))
         groups.

(** The statement kinds whose [visit_*] method takes no keyword. *)
Definition takes_no_keyword (st : ast.stmt) : bool :=
  match st with
  | ast.Return _ _ | ast.Assign _ _ _ | ast.AugAssign _ _ _ _
  | ast.While _ _ _ _ | ast.If _ _ _ _ => true
  | _ => false
  end.

(** No key of a table is lost. *)
Definition table_keys_kept (t t' : table) : Prop :=
  forall k, dict_mem symbol_eqb t k = true -> dict_mem symbol_eqb t' k = true.

(** The world only grows: tokens are not handed out again, tables stay
    where they are and keep their keys. *)
Definition world_grows (w w' : World) : Prop :=
  supply w <= supply w'
  /\ forall i t, nth_error (tables w) i = Some t ->
       exists t', nth_error (tables w') i = Some t' /\ table_keys_kept t t'.

Definition grows {A} (m : M A) (V : A -> Prop) : Prop :=
  sound (fun _ => True) world_grows (fun _ => True) m V.

(** The translation of [a = 1] by the sample translator that has already
    returned. *)
Definition assign_a_run : outcome MyiaASTNode :=
  Eval vm_compute in
    v_stmt (visit 2) None (assign "a" 1) (set_returns top0 true, world0).

Definition assign_a_node : MyiaASTNode :=
  Eval vm_compute in match assign_a_run with Ok r _ => r | _ => Tuple [] end.

Definition assign_a_state : State :=
  Eval vm_compute in
    match assign_a_run with Ok _ s => s | _ => (top0, world0) end.

(** [lambda x: x], as an expression statement, and a dry translator. *)
Definition lambda_stmt : ast.stmt :=
  ast.Expr pos0 (ast.Lambda pos0 args_x (ast.Name pos0 "x")).

Definition top_dry : Parser :=
  mkParser (mkLocator "f.py" 1) genv0 GenSym_default true false true []
           None (mkSymbol "#lambda" (Some "local") 0 None)
           (mkVariableTracker None []) [] [] false.

Definition lambda_dry_run : outcome MyiaASTNode :=
  Eval vm_compute in v_stmt (visit 3) None lambda_stmt (top_dry, world0).

Definition lambda_dry_node : MyiaASTNode :=
  Eval vm_compute in
    match lambda_dry_run with Ok r _ => r | _ => Tuple [] end.

Definition lambda_dry_state : State :=
  Eval vm_compute in
    match lambda_dry_run with Ok _ s => s | _ => (top_dry, world0) end.

Definition lambda_run : outcome MyiaASTNode :=
  Eval vm_compute in v_stmt (visit 3) None lambda_stmt (top0, world0).

Definition lambda_node : MyiaASTNode :=
  Eval vm_compute in match lambda_run with Ok r _ => r | _ => Tuple [] end.

Definition lambda_state : State :=
  Eval vm_compute in
    match lambda_run with Ok _ s => s | _ => (top0, world0) end.

(** The translation of [if_two_names] by the sample translator. *)
Definition if_two_names_run : outcome MyiaASTNode :=
  Eval vm_compute in v_stmt (visit 3) None if_two_names (top0, world0).

Definition if_two_names_node : MyiaASTNode :=
  Eval vm_compute in
    match if_two_names_run with Ok r _ => r | _ => Tuple [] end.

Definition if_two_names_state : State :=
  Eval vm_compute in
    match if_two_names_run with Ok _ s => s | _ => (top0, world0) end.

(** What every sub-translator inherits unchanged. *)
Definition inherits (self p : Parser) : Prop :=
  macros p = macros self /\ locator p = locator self.

Definition keeps_inherited (self : Parser) {A} (m : M A) (V : A -> Prop)
  : Prop :=
  sound (inherits self) (fun _ _ => True) (fun _ => True) m V.

(** [pair(x, 1)] called where [pair] is a macro. *)
Definition pair_call : ast.expr :=
  ast.Call pos0 (ast.Name pos0 "pair")
           [ast.Name pos0 "x"; ast.Num pos0 1] [].

Definition pair_call_run : outcome MyiaASTNode :=
  Eval vm_compute in v_expr (visit 2) pair_call (top_pair, world1).

Definition pair_call_node : MyiaASTNode :=
  Eval vm_compute in
    match pair_call_run with Ok r _ => r | _ => Tuple [] end.

Definition pair_call_state : State :=
  Eval vm_compute in
    match pair_call_run with Ok _ s => s | _ => (top_pair, world1) end.


(** [while x: x += 1], translated where [x] is bound. *)
Definition while_x : ast.stmt :=
  ast.While pos0 (ast.Name pos0 "x") [aug_x] [].

Definition while_x_run : outcome MyiaASTNode :=
  Eval vm_compute in v_stmt (visit 4) None while_x (top_x, world1).

Definition while_x_node : MyiaASTNode :=
  Eval vm_compute in
    match while_x_run with Ok r _ => r | _ => Tuple [] end.

Definition while_x_state : State :=
  Eval vm_compute in
    match while_x_run with Ok _ s => s | _ => (top_x, world1) end.

(** ** What translating an expression leaves alone *)

(** The translator in control after an expression has been translated:
    it has recorded no assignment and no return, and the names its scope
    chain binds are the same. *)
Definition expr_frame (p p' : Parser) : Prop :=
  local_assignments p' = local_assignments p
  /\ returns p' = returns p
  /\ forall n, bound_in_chain (vtrack p') n = bound_in_chain (vtrack p) n.

Definition frames {A} (m : M A) : Prop :=
  forall p w,
    match m (p, w) with
    | Ok _ (p', _) => expr_frame p p'
    | _ => True
    end.

(** ** Loop discovery, step by step *)

(** The state in which [explore_vars] starts its dry translator: a new
    table, a dry sub-translator on it, and the [return_error] asked
    for. *)
Definition discovery_translator (self : Parser) (w : World)
    (re : option string) : State :=
  match (env <- ParseEnv_new None ;;
         testp <- sub_parser (Some env) (Some true) None None ;;
         ret (set_return_error testp re)) (self, w) with
  | Ok testp (_, w') => (testp, w')
  | _ => (self, w)
  end.

(** The loop of [explore_vars] over its arguments. *)
Definition explore_items (rec : visitor) (exprs : list explore_item)
  : M (list unit) :=
  mapM (fun expr =>
          match expr with
          | ExploreStmts l => body_wrapper rec l ;; ret tt
          | ExploreExpr e => v_expr rec e ;; ret tt
          end)
       exprs.

(** Statements that look no name up in the tracker directly: no augmented
    assignment and no loop, also inside the branches of a conditional.
    (The body of a function definition does not count: it is never
    reached.) *)
Fixpoint no_strict_lookup (st : ast.stmt) : bool :=
  match st with
  | ast.AugAssign _ _ _ _ => false
  | ast.While _ _ _ _ => false
  | ast.If _ _ body orelse =>
      forallb no_strict_lookup body && forallb no_strict_lookup orelse
  | _ => true
  end.

(** Translation that keeps every assigned name bound and lets no
    [NameError] escape. *)
Definition reads_safely {A} (m : M A) : Prop :=
  sound assigned_bound (fun _ _ => True) no_name_error m any.

(** [x += 1] at the head of a loop on [c], where neither is declared. *)
Definition undeclared_update : list explore_item :=
  [ExploreExpr (ast.Name pos0 "c"); ExploreStmts [aug_x]].

Definition undeclared_test_run : outcome MyiaASTNode :=
  Eval vm_compute in
    v_expr (visit 2) (ast.Name pos0 "c") (discovery_translator top0 world0 None).

Definition undeclared_test_node : MyiaASTNode :=
  Eval vm_compute in
    match undeclared_test_run with Ok r _ => r | _ => Tuple [] end.

Definition undeclared_test_state : State :=
  Eval vm_compute in
    match undeclared_test_run with Ok _ s => s | _ => (top0, world0) end.

(** ** Conditionals that assign nothing *)











(** ** Conditionals that assign several names *)














(** ** Kinds of assignment target *)

Definition is_Name (e : ast.expr) : bool :=
  match e with ast.Name _ _ => true | _ => false end.

Definition is_Subscript (e : ast.expr) : bool :=
  match e with ast.Subscript _ _ _ => true | _ => false end.

Definition is_Tuple (e : ast.expr) : bool :=
  match e with ast.Tuple _ _ => true | _ => false end.

(** * Properties *)

(** ** Scope lookup *)

Lemma VariableTracker_chain_ind (P : VariableTracker -> Prop) :
  (forall b, P (mkVariableTracker None b)) ->
  (forall par b, P par -> P (mkVariableTracker (Some par) b)) ->
  forall t, P t.
Proof.
  intros Hroot Hchild. fix IH 1. intros [[par|] b].
  - apply Hchild, IH.
  - apply Hroot.
Qed.

Lemma get_free_unbound t name :
  bound_in_chain t name = false ->
  get_free t name = inl (NameError ("Undeclared variable: " ++ name)).
Proof.
  induction t as [b | par b IH] using VariableTracker_chain_ind;
    cbn [bound_in_chain get_free]; unfold dict_mem;
    destruct (dict_get String.eqb b name); cbn; try discriminate.
  - reflexivity.
  - intros H. rewrite (IH H). reflexivity.
Qed.

Lemma get_free_bound t name :
  bound_in_chain t name = true ->
  exists free s, get_free t name = inr (free, s).
Proof.
  induction t as [b | par b IH] using VariableTracker_chain_ind;
    cbn [bound_in_chain get_free]; unfold dict_mem;
    destruct (dict_get String.eqb b name); cbn; try discriminate; eauto.
  intros H. destruct (IH H) as (free & s & ->). eauto.
Qed.

(** C2: a name read whose name is bound in no frame of the scope chain
    resolves, without raising and without changing any state, to the
    symbol of that name in the global namespace. *)
Theorem visit_variable_unbound_is_global :
  forall fuel pos name self w,
    bound_in_chain (vtrack self) name = false ->
    visit_variable name (self, w)
      = Ok (mkSymbol name (Some "global") 0 None) (self, w)
    /\ v_expr (visit (S fuel)) (ast.Name pos name) (self, w)
      = Ok (Sym (mkSymbol name (Some "global") 0 None)) (self, w).
Proof.
  intros fuel pos name self w H.
  assert (Hv : visit_variable name (self, w)
               = Ok (mkSymbol name (Some "global") 0 None) (self, w)).
  { unfold visit_variable, bind, get_self. cbn [fst].
    rewrite (get_free_unbound _ _ H). reflexivity. }
  split; [exact Hv|].
  cbn [visit v_expr]. unfold visit_expr, make_location, visit_Name, bind,
    get_self, ret in *. cbn [fst] in *. rewrite Hv. reflexivity.
Qed.

Lemma visit_variable_unbound_is_global_witness :
  visit_variable "y" (top0, world0)
    = Ok (mkSymbol "y" (Some "global") 0 None) (top0, world0)
  /\ v_expr (visit 1) (ast.Name pos0 "y") (top0, world0)
    = Ok (Sym (mkSymbol "y" (Some "global") 0 None)) (top0, world0).
Proof.
  apply (visit_variable_unbound_is_global 0 pos0 "y" top0 world0).
  reflexivity.
Defined.

(** ** Function definitions *)

(** C1 (the code departs from the claim): a function definition that
    passes every guard of [visit_FunctionDef] does not yield an
    assignment; the call to [make_closure] passes the keyword [label],
    which is not one of its parameters, and raises [TypeError]. *)
Theorem visit_FunctionDef_unexpected_keyword :
  forall fuel kw pos name args body decorators self w,
    ast.vararg args = None -> ast.kwarg args = None ->
    ast.kwonlyargs args = [] -> ast.defaults args = [] ->
    ast.kw_defaults args = [] ->
    (decorators = [] \/ kw = Some true) ->
    v_stmt (visit (S fuel)) kw
           (ast.FunctionDef pos name args body decorators) (self, w)
    = Raise (TypeError
               "make_closure() got an unexpected keyword argument 'label'").
Proof.
  intros fuel kw pos name args body decorators self w Hv Hk Hko Hd Hkd Hdec.
  cbn [visit v_stmt]. unfold visit_stmt, visit_FunctionDef.
  rewrite Hv, Hk, Hko, Hd, Hkd. cbn [truthy_option truthy_list orb].
  assert (Hg : negb (match kw with Some b => b | None => false end)
               && (0 <? length decorators)%nat = false).
  { destruct Hdec as [-> | ->]; cbn; [apply andb_false_r | reflexivity]. }
  unfold bind at 1. cbn [make_location]. unfold bind at 1. cbn [get_self ret].
  rewrite Hg. reflexivity.
Qed.

Lemma visit_FunctionDef_unexpected_keyword_witness :
  v_stmt (visit 1) (Some true) def_f (top0, world0)
  = Raise (TypeError
             "make_closure() got an unexpected keyword argument 'label'").
Proof.
  apply (visit_FunctionDef_unexpected_keyword
           0 (Some true) pos0 "f" args_x
           [ast.Return pos0 (Some (ast.Name pos0 "x"))] [] top0 world0);
    try reflexivity.
  left; reflexivity.
Defined.

(** ** Loops *)

(** C8 (the code departs from the claim): [visit_While] hands no
    return-prohibition message to the translator of the loop body, so
    [while c: return 1] is translated without any error. *)
Theorem visit_While_accepts_return :
  succeeds (v_stmt (visit 3) None while_return (top0, world0)) = true.
Proof. vm_compute. reflexivity. Qed.

(** ** Reasoning about monadic code *)

Lemma bind_Ok {A B} {m : M A} (k : A -> M B) {s a s1} :
  m s = Ok a s1 -> bind m k s = k a s1.
Proof. unfold bind. intros ->. reflexivity. Qed.

Lemma bind_Raise {A B} {m : M A} (k : A -> M B) {s e} :
  m s = Raise e -> bind m k s = Raise e.
Proof. unfold bind. intros ->. reflexivity. Qed.

Lemma bind_inv {A B} (m : M A) (k : A -> M B) s b s' :
  bind m k s = Ok b s' ->
  exists a s1, m s = Ok a s1 /\ k a s1 = Ok b s'.
Proof.
  unfold bind. destruct (m s) as [a s1| |]; try discriminate. eauto.
Qed.

Ltac split_outcomes :=
  repeat match goal with
         | |- context [match ?x with
                       | Ok _ _ => _ | Raise _ => _ | OutOfFuel => _
                       end] =>
             first [ destruct x as [[? ?] ?| |] | destruct x as [? ?| |] ];
             try reflexivity
         end.

(** ** Names as sets *)

Lemma name_mem_In k l : name_mem k l = true <-> In k l.
Proof.
  unfold name_mem. rewrite existsb_exists. split.
  - intros (x & Hx & E). apply String.eqb_eq in E. now subst.
  - intros H. exists k. split; [exact H | apply String.eqb_refl].
Qed.

Lemma name_subset_incl a b : name_subset a b = true <-> incl a b.
Proof.
  unfold name_subset. rewrite forallb_forall. unfold incl.
  split; intros H k Hk; apply name_mem_In; auto.
Qed.

Lemma name_set_eqb_spec a b :
  name_set_eqb a b = true <-> (forall k, In k a <-> In k b).
Proof.
  unfold name_set_eqb. rewrite andb_true_iff, !name_subset_incl.
  unfold incl. split.
  - intros [H1 H2] k. split; auto.
  - intros H. split; intros k; apply H.
Qed.

(** ** Conditionals *)

Lemma visit_If_split rec test nb no loc s :
  visit_If rec test nb no loc s
  = (r <- translate_branches rec nb no ;;
     merge_branches rec test loc (fst r) (snd r)) s.
Proof.
  unfold visit_If, translate_branches, merge_branches, bind.
  cbn [get_self fst snd GenSym_call]. split_outcomes.
Qed.

Lemma visit_stmt_If fuel pos test nb no self w :
  v_stmt (visit (S fuel)) None (ast.If pos test nb no) (self, w)
  = (r <- translate_branches (visit fuel) nb no ;;
     x <- merge_branches (visit fuel) test (Locator_call (locator self) pos)
                         (fst r) (snd r) ;;
     ret (at_ x (Locator_call (locator self) pos))) (self, w).
Proof.
  change (v_stmt (visit (S fuel)) None (ast.If pos test nb no) (self, w))
    with ((r <- visit_If (visit fuel) test nb no
                         (Locator_call (locator self) pos) ;;
           ret (at_ r (Locator_call (locator self) pos))) (self, w)).
  unfold bind at 1. rewrite visit_If_split. unfold bind.
  destruct (translate_branches (visit fuel) nb no (self, w)); reflexivity.
Qed.

Lemma bind_bind {A B C} (m : M A) (k : A -> M B) (h : B -> M C) s :
  bind (bind m k) h s = bind m (fun a => bind (k a) h) s.
Proof. unfold bind. destruct (m s); reflexivity. Qed.

(** C4: once both branches of an if statement have been translated,
    translation raises the syntax error of [visit_If] whenever the
    has-returned flags of the branches differ, and whenever their sets of
    locally assigned names differ; no result is produced from reconciled
    sets. *)
Theorem visit_If_rejects_mismatched_branches :
  forall fuel pos test body orelse self w g1 p1 g2 p2 s1,
    translate_branches (visit fuel) body orelse (self, w)
      = Ok ((g1, p1), (g2, p2)) s1 ->
    (returns p1 <> returns p2 ->
     v_stmt (visit (S fuel)) None (ast.If pos test body orelse) (self, w)
     = Raise (MyiaSyntaxError (Locator_call (locator self) pos)
                              return_mismatch_message))
    /\ (returns p1 = returns p2 ->
        ~ (forall k, In k (local_assignments p1)
                     <-> In k (local_assignments p2)) ->
        v_stmt (visit (S fuel)) None (ast.If pos test body orelse) (self, w)
        = Raise (MyiaSyntaxError
                   (Locator_call (locator self) pos)
                   (assign_mismatch_message (local_assignments p1)
                                            (local_assignments p2)))).
Proof.
  intros fuel pos test body orelse self w g1 p1 g2 p2 s1 Hb.
  rewrite visit_stmt_If, (bind_Ok _ Hb).
  cbn [fst snd merge_branches]. split.
  - intros Hr. destruct (returns p1), (returns p2); try congruence;
      reflexivity.
  - intros Hr Hs. rewrite Hr, Bool.eqb_reflx. cbn [negb].
    destruct (name_set_eqb (local_assignments p1) (local_assignments p2))
      eqn:E.
    + exfalso. apply Hs. now apply name_set_eqb_spec.
    + reflexivity.
Qed.

Lemma visit_If_rejects_mismatched_branches_witness :
  v_stmt (visit 3) None if_half_return (top0, world0)
  = Raise (MyiaSyntaxError (Locator_call (locator top0) pos0)
                           return_mismatch_message)
  /\ v_stmt (visit 3) None if_mismatch (top0, world0)
     = Raise (MyiaSyntaxError (Locator_call (locator top0) pos0)
                              (assign_mismatch_message ["a"] ["b"])).
Proof.
  split.
  - eapply (proj1 (visit_If_rejects_mismatched_branches
                     2 pos0 (ast.Name pos0 "c")
                     [ast.Return pos0 (Some (ast.Num pos0 1))]
                     [assign "a" 2] top0 world0 _ _ _ _ _
                     ltac:(lazy; reflexivity))).
    cbn. discriminate.
  - eapply (proj2 (visit_If_rejects_mismatched_branches
                     2 pos0 (ast.Name pos0 "c") [assign "a" 1]
                     [assign "b" 2] top0 world0 _ _ _ _ _
                     ltac:(lazy; reflexivity))).
    + reflexivity.
    + cbn. intros H. destruct (proj1 (H "a")) as [E | []]; [now left|].
      discriminate.
Defined.

Ltac bind_inv H :=
  let a := fresh "a" in
  let s := fresh "s" in
  let Hm := fresh "Hm" in
  apply bind_inv in H; destruct H as (a & s & Hm & H).

Lemma lift_inv {A} (r : exn + A) s a s' :
  lift r s = Ok a s' -> r = inr a /\ s' = s.
Proof.
  destruct r; cbn; [discriminate|]. unfold ret. intros H.
  injection H as -> ->. auto.
Qed.

Lemma mkapply_shape rec test p1 g1 p2 g2 f1 f2 s app s' :
  mkapply rec test p1 g1 p2 g2 f1 f2 s = Ok app s' ->
  exists t b1 b2,
    app = Apply (Apply builtins.switch [t; b1; b2] false) [] false.
Proof.
  unfold mkapply. intros H. do 5 bind_inv H.
  unfold ret in H. injection H as <- _. eauto.
Qed.


(** ** Dictionaries and trackers *)

Lemma dict_get_set_same {V} (d : list (string * V)) k v :
  dict_get String.eqb (dict_set String.eqb d k v) k = Some v.
Proof.
  induction d as [| [k' v'] d IH]; cbn.
  - now rewrite String.eqb_refl.
  - destruct (String.eqb k k') eqn:E; cbn; rewrite E; auto.
Qed.

Lemma dict_get_set_other {V} (d : list (string * V)) k k' v :
  k' <> k ->
  dict_get String.eqb (dict_set String.eqb d k v) k'
  = dict_get String.eqb d k'.
Proof.
  intros Hne. induction d as [| [k0 v0] d IH]; cbn.
  - destruct (String.eqb k' k) eqn:E; [apply String.eqb_eq in E; congruence|].
    reflexivity.
  - destruct (String.eqb k k0) eqn:E; cbn.
    + apply String.eqb_eq in E. subst k0.
      destruct (String.eqb k' k) eqn:E'; [|reflexivity].
      apply String.eqb_eq in E'. congruence.
    + now rewrite IH.
Qed.

Lemma vt_getitem_setitem_same t k v :
  vt_getitem (vt_setitem t k v) k = inr v.
Proof.
  destruct t as [par b]. unfold vt_getitem, vt_setitem. cbn.
  now rewrite dict_get_set_same.
Qed.

Lemma get_free_setitem_other t k k' v :
  k' <> k -> get_free (vt_setitem t k v) k' = get_free t k'.
Proof.
  intros Hne. destruct t as [par b]. unfold vt_setitem. cbn.
  now rewrite dict_get_set_other.
Qed.

Lemma name_add_In l k : In k (name_add l k).
Proof.
  unfold name_add. destruct (name_mem k l) eqn:E.
  - now apply name_mem_In.
  - apply in_or_app. right. now left.
Qed.

(** ** Augmented assignment *)

Lemma bind_stamped (m : M MyiaASTNode) loc s :
  (r <- m ;; ret (at_ r loc)) s = stamped loc (m s).
Proof. unfold bind, stamped. destruct (m s); reflexivity. Qed.

Lemma v_stmt_AugAssign fuel pos target op value self w :
  v_stmt (visit (S fuel)) None (ast.AugAssign pos target op value) (self, w)
  = stamped (Locator_call (locator self) pos)
      (visit_AugAssign (visit fuel) target op value
                       (Locator_call (locator self) pos) (self, w)).
Proof. rewrite <- bind_stamped. reflexivity. Qed.

(** C10: an augmented assignment whose target is a plain name bound in
    the scope chain yields an assignment of a fresh symbol for the name to
    [Apply(op, prev, operand)], where [prev] is what the name resolves to
    (its binding, or the alias just pulled for it when the binding is free
    and the translator pulls free variables); the name is recorded as
    locally assigned and rebound to the fresh symbol.  Any other target
    (a subscript, a slice, an attribute) raises the syntax error. *)
Theorem visit_AugAssign_spec :
  forall fuel pos target op value self w,
    (forall tpos id aug p1 w1,
       target = ast.Name tpos id ->
       v_expr (visit fuel) value (self, w) = Ok aug (p1, w1) ->
       bound_in_chain (vtrack p1) id = true ->
       exists free v pf wf,
         get_free (vtrack p1) id = inr (free, v)
         /\ let pulled := free && pull_free_variables p1 in
            let prev :=
              if pulled
              then mkSymbol id (gen_namespace (gen p1)) (supply w1) None
              else v in
            let sym :=
              mkSymbol id (gen_namespace (gen p1))
                       (if pulled then S (supply w1) else supply w1) None in
            v_stmt (visit (S fuel)) None
                   (ast.AugAssign pos target op value) (self, w)
            = Ok (_Assign sym
                          (Apply (get_operator_bin op) [Sym prev; aug] false)
                          (Locator_call (locator self) pos))
                 (pf, wf)
            /\ vt_getitem (vtrack pf) id = inr sym
            /\ In id (local_assignments pf)
            /\ supply wf = S (version sym))
    /\ ((forall tpos id, target <> ast.Name tpos id) ->
        v_stmt (visit (S fuel)) None
               (ast.AugAssign pos target op value) (self, w)
        = Raise (MyiaSyntaxError
                   (Locator_call (locator self) pos)
                   "Augmented assignment to subscripts or slices is not supported.")).
Proof.
  intros fuel pos target op value self w. split.
  - intros tpos id aug p1 w1 -> Hv Hb.
    destruct (get_free_bound _ _ Hb) as (free & v & Hg).
    exists free, v.
    rewrite v_stmt_AugAssign. unfold visit_AugAssign.
    rewrite (bind_Ok _ Hv).
    unfold visit_variable, vt_getitem, make_assign, new_variable, bind,
      get_self, modify_self, lift, ret, GenSym_call.
    cbn [fst snd]. rewrite Hg.
    destruct free; [destruct (pull_free_variables p1)|];
      cbn [andb fst snd vtrack set_vtrack set_free_variables gen supply
           local_assignments set_local_assignments tables];
      try rewrite Hg;
      repeat match goal with
             | |- context [get_free (vt_setitem ?t ?k ?s) ?k] =>
                 let H := fresh in
                 pose proof (vt_getitem_setitem_same t k s) as H;
                 unfold vt_getitem in H;
                 destruct (get_free (vt_setitem t k s) k) as [?|[? ?]];
                 [discriminate H | injection H as ->]
             end;
      do 2 eexists; (split; [reflexivity|]); cbn;
      (split; [reflexivity|]);
      (split; [apply vt_getitem_setitem_same|]);
      (split; [apply name_add_In | reflexivity]).
  - intros Hn. rewrite v_stmt_AugAssign. unfold visit_AugAssign.
    destruct target; try reflexivity. exfalso. eapply Hn. reflexivity.
Qed.

Lemma visit_AugAssign_spec_witness :
  (exists pf wf,
     v_stmt (visit 2) None aug_x (top_x, world1)
     = Ok (_Assign (mkSymbol "x" (Some "local") 2 None)
                   (Apply (get_operator_bin ast.Add)
                          [Sym sym_x; Value (ast.CNum 1)] false)
                   (Locator_call (locator top_x) pos0))
          (pf, wf)
     /\ vt_getitem (vtrack pf) "x" = inr (mkSymbol "x" (Some "local") 2 None)
     /\ In "x" (local_assignments pf))
  /\ v_stmt (visit 2) None aug_subscript (top_x, world1)
     = Raise (MyiaSyntaxError
                (Locator_call (locator top_x) pos0)
                "Augmented assignment to subscripts or slices is not supported.").
Proof.
  split.
  - destruct (proj1 (visit_AugAssign_spec
                       1 pos0 (ast.Name pos0 "x") ast.Add (ast.Num pos0 1)
                       top_x world1)
                    pos0 "x" _ _ _ eq_refl eq_refl eq_refl)
      as (free & v & pf & wf & Hg & H & Hv & Hin & _).
    cbn in Hg. injection Hg as <- <-.
    exists pf, wf. repeat split; assumption.
  - apply (proj2 (visit_AugAssign_spec
                    1 pos0
                    (ast.Subscript pos0 (ast.Name pos0 "v")
                                   (ast.Index (ast.Num pos0 0)))
                    ast.Add (ast.Num pos0 1) top_x world1)).
    intros tpos id. discriminate.
Defined.

(** ** Closure construction *)

Lemma get_free_error t name e :
  get_free t name = inl e ->
  e = NameError ("Undeclared variable: " ++ name).
Proof.
  induction t as [b | par b IH] using VariableTracker_chain_ind;
    cbn [get_free]; destruct (dict_get String.eqb b name); try discriminate.
  - congruence.
  - destruct (get_free par name) as [e'|[? ?]]; [|discriminate].
    intros H. injection H as <-. now apply IH.
Qed.

Lemma bound_in_chain_get_free t name :
  bound_in_chain t name = true <-> exists r, get_free t name = inr r.
Proof.
  split.
  - intros H. destruct (get_free_bound _ _ H) as (f & s & E). eauto.
  - intros [r E]. destruct (bound_in_chain t name) eqn:B; [reflexivity|].
    rewrite (get_free_unbound _ _ B) in E. discriminate.
Qed.

(** [visit_variable] never raises; it leaves the table untouched, keeps
    the resolution of every other name, and returns what the name
    resolves to afterwards. *)
Lemma visit_variable_total name p w :
  exists v p' w',
    visit_variable name (p, w) = Ok v (p', w')
    /\ dry p' = dry p /\ global_env p' = global_env p
    /\ tables w' = tables w
    /\ (forall m, m <> name ->
                  get_free (vtrack p') m = get_free (vtrack p) m)
    /\ (bound_in_chain (vtrack p) name = true ->
        vt_getitem (vtrack p') name = inr v).
Proof.
  unfold visit_variable, bind, get_self. cbn [fst].
  destruct (get_free (vtrack p) name) as [e|[free v]] eqn:Hg.
  - rewrite (get_free_error _ _ _ Hg). do 3 eexists.
    split; [reflexivity|]. repeat split; auto.
    intros Hb. apply bound_in_chain_get_free in Hb. destruct Hb as [r E].
    congruence.
  - destruct free; [destruct (pull_free_variables p) eqn:Hp|].
    + unfold new_variable, bind, get_self, modify_self, ret, GenSym_call.
      cbn. do 3 eexists. split; [reflexivity|]. cbn. repeat split; auto.
      * intros m Hm. now apply get_free_setitem_other.
      * intros _. apply vt_getitem_setitem_same.
    + unfold modify_self, ret. cbn. do 3 eexists.
      split; [reflexivity|]. cbn. repeat split; auto.
      intros _. unfold vt_getitem. now rewrite Hg.
    + unfold ret. do 3 eexists. split; [reflexivity|]. repeat split; auto.
      intros _. unfold vt_getitem. now rewrite Hg.
Qed.







(** ** Invariants of the translator

    One induction over the dispatch serves every invariant of the shape
    [sound PP RW EX]: it is enough that the primitive steps keep it. *)

Section Invariant.
Variable PP : Parser -> Prop.
Variable RW : World -> World -> Prop.
Variable EX : exn -> Prop.

Hypothesis RW_refl : forall w, RW w w.
Hypothesis RW_trans : forall a b c, RW a b -> RW b c -> RW a c.
Hypothesis EX_other : forall e, is_NameError e = false -> EX e.

Hypothesis step_gen : forall g s rel, sound PP RW EX (GenSym_call g s rel) any.
Hypothesis step_env : forall ns, sound PP RW EX (ParseEnv_new ns) any.
Hypothesis step_reg :
  forall ref args body, sound PP RW EX (reg_lambda ref args body) any.
Hypothesis step_new : forall n, sound PP RW EX (new_variable n) any.
Hypothesis step_assign :
  forall n v l, sound PP RW EX (make_assign n v l) any.
Hypothesis step_var : forall n, sound PP RW EX (visit_variable n) any.
Hypothesis step_returns :
  sound PP RW EX (modify_self (fun p => set_returns p true)) any.
Hypothesis step_sub :
  forall ge kd kp kdest,
    kd <> Some false -> sound PP RW EX (sub_parser ge kd kp kdest) PP.
Hypothesis keep_setitem :
  forall p n s, PP p -> PP (set_vtrack p (vt_setitem (vtrack p) n s)).
Hypothesis keep_return_error :
  forall p e, PP p -> PP (set_return_error p e).

Local Abbreviation snd_ := (sound PP RW EX).

Lemma sound_ret {A} (a : A) (V : A -> Prop) : V a -> snd_ (ret a) V.
Proof. intros Ha p w Hp. cbn. auto. Qed.

Lemma sound_raise {A} e (V : A -> Prop) : EX e -> snd_ (raise e) V.
Proof. intros He p w Hp. exact He. Qed.

Lemma sound_bind {A B} (m : M A) (k : A -> M B) V W :
  snd_ m V -> (forall a, V a -> snd_ (k a) W) -> snd_ (bind m k) W.
Proof.
  intros Hm Hk p w Hp. unfold bind. specialize (Hm p w Hp).
  destruct (m (p, w)) as [a [p1 w1]| |]; auto.
  destruct Hm as (Hp1 & Hw1 & Ha). specialize (Hk a Ha p1 w1 Hp1).
  destruct (k a (p1, w1)) as [b [p2 w2]| |]; auto.
  destruct Hk as (Hp2 & Hw2 & Hb). eauto.
Qed.

Lemma sound_weaken {A} (m : M A) (V W : A -> Prop) :
  snd_ m V -> (forall a, V a -> W a) -> snd_ m W.
Proof.
  intros Hm HVW p w Hp. specialize (Hm p w Hp).
  destruct (m (p, w)) as [a [p1 w1]| |]; auto.
  destruct Hm as (? & ? & ?). auto.
Qed.

Lemma sound_stamp (m : M MyiaASTNode) loc :
  snd_ m any -> snd_ (r <- m ;; ret (at_ r loc)) any.
Proof.
  intros H. eapply sound_bind; [exact H|]. intros r _.
  apply sound_ret. exact I.
Qed.

Lemma sound_get_self : snd_ get_self PP.
Proof. intros p w Hp. cbn. auto. Qed.

Lemma sound_lift {A} (r : exn + A) (V : A -> Prop) :
  (forall e, r = inl e -> EX e) -> (forall a, r = inr a -> V a) ->
  snd_ (lift r) V.
Proof.
  intros He Ha p w Hp. destruct r; cbn; auto.
Qed.

Lemma sound_on {A} (p : Parser) (m : M A) V :
  PP p -> snd_ m V -> snd_ (on p m) (fun r => V (fst r) /\ PP (snd r)).
Proof.
  intros Hp Hm self w Hself. unfold on. cbn [snd fst].
  specialize (Hm p w Hp). destruct (m (p, w)) as [a [p1 w1]| |]; auto.
  destruct Hm as (? & ? & ?). cbn. auto.
Qed.

Lemma sound_mapM {A B} (f : A -> M B) (l : list A) :
  (forall a, snd_ (f a) any) -> snd_ (mapM f l) any.
Proof.
  intros Hf. induction l as [| a l IH]; cbn [mapM].
  - now apply sound_ret.
  - eapply sound_bind; [apply Hf|]. intros b _.
    eapply sound_bind; [apply IH|]. intros bs _. now apply sound_ret.
Qed.

Lemma sound_mapM_Forall {A B} (f : A -> M B) (l : list A) :
  Forall (fun a => snd_ (f a) any) l -> snd_ (mapM f l) any.
Proof.
  induction 1 as [| a l Ha _ IH]; cbn [mapM].
  - now apply sound_ret.
  - eapply sound_bind; [apply Ha|]. intros b _.
    eapply sound_bind; [apply IH|]. intros bs _. now apply sound_ret.
Qed.

Lemma sound_mapM_enumerate {A B} (f : nat -> A -> M B) (l : list A) :
  (forall i a, snd_ (f i a) any) ->
  forall i, snd_ (mapM_enumerate f i l) any.
Proof.
  intros Hf. induction l as [| a l IH]; intros i; cbn [mapM_enumerate].
  - now apply sound_ret.
  - eapply sound_bind; [apply Hf|]. intros b _.
    eapply sound_bind; [apply IH|]. intros bs _. now apply sound_ret.
Qed.

Lemma helper_error groups result e :
  helper groups result = inl e -> is_NameError e = false.
Proof.
  revert e. induction groups as [| [isass grp] rest IH]; intros e; cbn.
  - intros H. injection H as <-. reflexivity.
  - destruct isass.
    + destruct (map_exn assign_binding grp) as [e'|bs] eqn:Hb.
      * intros H. injection H as <-. clear IH.
        revert e' Hb. induction grp as [| g grp IHg]; cbn; [discriminate|].
        intros e'. destruct g; cbn; try (intros H; injection H as <-;
                                         reflexivity).
        destruct (map_exn assign_binding grp); [|discriminate].
        intros H. injection H as <-. now apply IHg.
      * destruct rest as [| r rest'].
        -- destruct result; [discriminate|]. intros H. injection H as <-.
           reflexivity.
        -- destruct (helper (r :: rest') result); [|discriminate].
           intros H. injection H as <-. now apply IH.
    + destruct rest as [| r rest'].
      * destruct grp as [| g [| g' grp']]; discriminate.
      * destruct (helper (r :: rest') result); [|discriminate].
        intros H. injection H as <-. now apply IH.
Qed.

Lemma sound_helper groups result :
  snd_ (lift (helper groups result)) any.
Proof.
  apply sound_lift; [|intros; exact I].
  intros e He. eapply EX_other, helper_error, He.
Qed.

Lemma sound_multi_assign ass expr : snd_ (multi_assign ass expr) any.
Proof.
  unfold multi_assign.
  eapply sound_bind; [apply sound_get_self|]. intros self _.
  eapply sound_bind; [apply step_gen|]. intros tmp _.
  eapply sound_bind; [apply sound_mapM_enumerate; intros; apply step_assign|].
  intros stmts _. now apply sound_ret.
Qed.

Lemma sound_prepare_closure variable ref :
  snd_ (prepare_closure variable ref) PP.
Proof.
  unfold prepare_closure.
  eapply sound_bind; [apply sound_get_self|]. intros self _.
  eapply sound_bind.
  { instantiate (1 := any). destruct ref; [now apply sound_ret|].
    apply step_gen. }
  intros r _.
  eapply sound_bind; [apply step_sub; discriminate|]. intros p Hp.
  apply sound_ret. destruct variable; auto.
Qed.

Lemma sound_construct_closure p args body :
  snd_ (construct_closure p args body) any.
Proof.
  unfold construct_closure.
  eapply sound_bind; [apply sound_mapM, step_var|]. intros vals _.
  eapply sound_bind; [apply step_reg|]. intros lbda _.
  destruct (0 <? _)%nat; now apply sound_ret.
Qed.

Lemma sound_make_closure_with (body_m : M MyiaASTNode) args variable ref :
  snd_ body_m any ->
  snd_ (p <- prepare_closure (Some variable) ref ;;
        '(r, p) <- on p (sargs <- mapM new_variable args ;;
                         fbody <- body_m ;;
                         ret (sargs, fbody)) ;;
        construct_closure p (fst r) (snd r)) any.
Proof.
  intros Hbody.
  eapply sound_bind; [apply sound_prepare_closure|]. intros p Hp.
  eapply sound_bind.
  { apply sound_on; [exact Hp|].
    eapply sound_bind; [apply sound_mapM, step_new|]. intros sargs _.
    eapply sound_bind; [apply Hbody|]. intros fbody _.
    apply sound_ret. instantiate (1 := any). exact I. }
  intros [r p'] _. apply sound_construct_closure.
Qed.

(** *** The methods, given a visitor that keeps the invariant *)

Section Methods.
Variable rec : visitor.
Hypothesis rec_expr : forall e, snd_ (v_expr rec e) any.
Hypothesis rec_slice : forall sl, snd_ (v_slice rec sl) any.

Lemma sound_make_location pos : snd_ (make_location pos) any.
Proof.
  unfold make_location. eapply sound_bind; [apply sound_get_self|].
  intros self _. now apply sound_ret.
Qed.

Ltac step :=
  lazymatch goal with
  | |- sound _ _ _ (ret _) _ => apply sound_ret; exact I
  | |- sound _ _ _ (raise _) _ =>
      apply sound_raise; apply EX_other; reflexivity
  | |- sound _ _ _ (bind _ _) _ =>
      eapply sound_bind;
      [ first [ apply rec_expr | apply rec_slice | apply step_gen
              | apply step_assign | apply step_var | apply step_new
              | apply step_returns | apply sound_get_self
              | apply sound_make_location
              | apply sound_mapM; intros;
                first [apply rec_expr | apply rec_slice] ]
      | intros ? _ ]
  end.

Lemma sound_call_make_closure_expr args body kw :
  snd_ (call_make_closure rec args (BodyExpr body) kw) any.
Proof.
  unfold call_make_closure. destruct (find _ _); [step|].
  unfold make_closure. apply sound_make_closure_with. apply rec_expr.
Qed.

Lemma sound_visit_opt e dflt : snd_ (visit_opt rec e dflt) any.
Proof. destruct e; cbn; [apply rec_expr | step]. Qed.

Lemma sound_visit_expr e : snd_ (visit_expr rec e) any.
Proof.
  unfold visit_expr. step. apply sound_stamp.
  destruct e.
  - unfold visit_BinOp. repeat step.
  - unfold visit_UnaryOp. repeat step.
  - apply sound_call_make_closure_expr.
  - unfold visit_Compare.
    destruct (map get_operator_cmp ops) as [|? [|]]; [step| |step].
    step. destruct comparators; repeat step.
  - unfold visit_Call. destruct (0 <? _)%nat; [step|]. step. step.
    destruct (match e with ast.Name _ id => _ | _ => None end);
      repeat step.
  - unfold visit_Num. step.
  - unfold visit_Str. step.
  - unfold visit_NameConstant. step.
  - unfold visit_Attribute. repeat step.
  - unfold visit_Subscript. repeat step.
  - unfold visit_Name. repeat step.
  - unfold visit_Tuple. repeat step.
  - step.
Qed.

Lemma sound_visit_slice sl : snd_ (visit_slice rec sl) any.
Proof.
  unfold visit_slice. apply sound_stamp. destruct sl.
  - apply rec_expr.
  - unfold visit_Slice.
    eapply sound_bind; [apply sound_visit_opt|]. intros ? _.
    eapply sound_bind; [apply sound_visit_opt|]. intros ? _.
    eapply sound_bind; [apply sound_visit_opt|]. intros ? _. step.
  - unfold visit_ExtSlice. repeat step.
Qed.

Lemma sound_no_kwargs method kw : snd_ (no_kwargs method kw) any.
Proof. destruct kw; cbn; step. Qed.

Lemma sound_visit_Return value loc : snd_ (visit_Return rec value loc) any.
Proof.
  unfold visit_Return. step.
  eapply sound_bind.
  { instantiate (1 := any).
    destruct (return_error a) as [msg|]; [|step].
    destruct (String.eqb msg ""); step. }
  intros _ _. step. destruct value; [apply rec_expr|].
  unfold visit_None. step.
Qed.

Lemma sound_visit_Assign targets value loc :
  snd_ (visit_Assign rec targets value loc) any.
Proof.
  unfold visit_Assign. destruct targets as [| targ [|]]; [step| |step].
  destruct targ; try (apply sound_raise; apply EX_other; reflexivity).
  - destruct targ; try (apply sound_raise; apply EX_other; reflexivity).
    repeat step. apply step_assign.
  - repeat step. apply step_assign.
Qed.

(** The simple statements need nothing of the statement visitor. *)
Lemma sound_visit_stmt_simple kw st :
  simple_stmt st -> snd_ (visit_stmt rec kw st) any.
Proof.
  intros Hs. unfold visit_stmt. step. apply sound_stamp.
  destruct st; try contradiction.
  - eapply sound_bind; [apply sound_no_kwargs|]. intros _ _.
    apply sound_visit_Return.
  - eapply sound_bind; [apply sound_no_kwargs|]. intros _ _.
    apply sound_visit_Assign.
  - apply rec_expr.
Qed.

(** Blocks of simple statements, as the dry pass of a loop sees them. *)
Section SimpleBlocks.
Hypothesis rec_simple :
  forall kw st, simple_stmt st -> snd_ (v_stmt rec kw st) any.

Lemma sound_body_loop_simple stmts :
  Forall simple_stmt stmts ->
  forall results, snd_ (body_loop rec stmts results) any.
Proof.
  induction 1 as [| stmt rest Hs _ IH]; intros results; cbn [body_loop].
  - step.
  - step. eapply sound_bind; [apply rec_simple, Hs|]. intros r _.
    destruct (returns _); [repeat step | apply IH].
Qed.

Lemma sound_explore_vars_simple test body return_error :
  Forall simple_stmt body ->
  snd_ (explore_vars rec [ExploreExpr test; ExploreStmts body]
                     return_error) any.
Proof.
  intros Hb. unfold explore_vars.
  eapply sound_bind; [apply step_env|]. intros env _.
  eapply sound_bind; [apply step_sub; discriminate|]. intros testp Hp.
  eapply sound_bind.
  { apply sound_on; [apply keep_return_error, Hp|].
    apply sound_mapM_Forall. repeat constructor.
    - eapply sound_bind; [apply rec_expr|]. intros ? _. step.
    - unfold body_wrapper.
      eapply sound_bind with (V := any); [|intros ? _; step].
      eapply sound_bind; [now apply sound_body_loop_simple|].
      intros ? _. step. }
  intros [? testp'] _. step.
Qed.
End SimpleBlocks.

(** *** Statements; lookups in the tracker may raise [NameError] *)

Section Statements.
Hypothesis EX_name : forall m, EX (NameError m).
Hypothesis rec_stmt : forall kw st, snd_ (v_stmt rec kw st) any.

Lemma EX_all e : EX e.
Proof. destruct e; try (apply EX_other; reflexivity). apply EX_name. Qed.

Lemma sound_lift_any {A} (r : exn + A) : snd_ (lift r) any.
Proof. apply sound_lift; intros; [apply EX_all | exact I]. Qed.

Ltac stepS :=
  lazymatch goal with
  | |- sound _ _ _ (bind (lift _) _) _ =>
      eapply sound_bind; [apply sound_lift_any | intros ? _]
  | |- sound _ _ _ (bind (no_kwargs _ _) _) _ =>
      eapply sound_bind; [apply sound_no_kwargs | intros ? _]
  | |- sound _ _ _ (bind (reg_lambda _ _ _) _) _ =>
      eapply sound_bind; [apply step_reg | intros ? _]
  | |- sound _ _ _ (bind (mapM visit_variable _) _) _ =>
      eapply sound_bind; [apply sound_mapM, step_var | intros ? _]
  | |- sound _ _ _ (bind (mapM new_variable _) _) _ =>
      eapply sound_bind; [apply sound_mapM, step_new | intros ? _]
  | |- sound _ _ _ (bind (construct_closure _ _ _) _) _ =>
      eapply sound_bind; [apply sound_construct_closure; assumption
                         | intros ? _]
  | |- _ => step
  end.

Lemma sound_body_loop stmts :
  forall results, snd_ (body_loop rec stmts results) any.
Proof.
  induction stmts as [| stmt rest IH]; intros results; cbn [body_loop].
  - step.
  - step. eapply sound_bind; [apply rec_stmt|]. intros r _.
    destruct (returns _); [repeat step | apply IH].
Qed.

Lemma sound_body_wrapper stmts : snd_ (body_wrapper rec stmts) any.
Proof.
  unfold body_wrapper.
  eapply sound_bind; [apply sound_body_loop|]. intros ? _. step.
Qed.

Lemma sound_visit_body stmts : snd_ (visit_body rec stmts) any.
Proof.
  unfold visit_body.
  eapply sound_bind; [apply sound_body_wrapper|]. intros ? _.
  apply sound_helper; assumption.
Qed.

Lemma sound_visit_FunctionDef name args body decorators loc allow :
  snd_ (visit_FunctionDef rec name args body decorators loc allow) any.
Proof.
  unfold visit_FunctionDef.
  destruct (_ || _); [step|]. destruct (truthy_list _); [step|].
  destruct (_ || _); [step|]. destruct (_ && _); [step|].
  repeat stepS.
  eapply sound_bind; [|intros ? _; step].
  unfold call_make_closure. destruct (find _ _); [step|].
  unfold make_closure.
  apply sound_make_closure_with; try assumption. apply sound_visit_body.
Qed.

Lemma sound_visit_AugAssign target op value loc :
  snd_ (visit_AugAssign rec target op value loc) any.
Proof.
  unfold visit_AugAssign. destruct target; try step.
  repeat stepS. apply step_assign.
Qed.

Lemma sound_mkapply test p1 body p2 orelse f1 f2 :
  snd_ (mkapply rec test p1 body p2 orelse f1 f2) any.
Proof. unfold mkapply. repeat stepS. Qed.

Lemma sound_visit_If test node_body node_orelse loc :
  snd_ (visit_If rec test node_body node_orelse loc) any.
Proof.
  unfold visit_If. repeat stepS.
  eapply sound_bind; [apply sound_prepare_closure; assumption|].
  intros p1 Hp1.
  eapply sound_bind;
    [apply sound_on; [exact Hp1 | apply sound_body_wrapper]|].
  intros [body p1'] _. stepS.
  eapply sound_bind; [apply sound_prepare_closure; assumption|].
  intros p2 Hp2.
  eapply sound_bind;
    [apply sound_on; [exact Hp2 | apply sound_body_wrapper]|].
  intros [orelse p2'] _.
  destruct (negb (Bool.eqb _ _)); [step|].
  destruct (negb (name_set_eqb _ _)); [step|].
  destruct (returns p1').
  - stepS. apply sound_mkapply.
  - destruct (local_assignments p1') as [| x [|]].
    + repeat stepS.
      eapply sound_bind; [apply sound_mkapply|]. intros ? _.
      apply sound_multi_assign; assumption.
    + repeat stepS.
      eapply sound_bind; [apply sound_mkapply|]. intros ? _.
      apply step_assign.
    + repeat stepS.
      eapply sound_bind; [apply sound_mkapply|]. intros ? _.
      apply sound_multi_assign; assumption.
Qed.

Lemma sound_explore_vars exprs return_error :
  snd_ (explore_vars rec exprs return_error) any.
Proof.
  unfold explore_vars.
  eapply sound_bind; [apply step_env|]. intros env _.
  eapply sound_bind; [apply step_sub; discriminate|]. intros testp Hp.
  eapply sound_bind.
  { apply sound_on; [apply keep_return_error, Hp|].
    apply sound_mapM. intros [e|l].
    - eapply sound_bind; [apply rec_expr|]. intros ? _. step.
    - eapply sound_bind; [apply sound_body_wrapper|]. intros ? _. step. }
  intros [? testp'] _. step.
Qed.

Lemma sound_visit_While test node_body :
  snd_ (visit_While rec test node_body) any.
Proof.
  unfold visit_While. repeat stepS.
  eapply sound_bind; [apply sound_explore_vars|]. intros wv _.
  stepS.
  eapply sound_bind; [apply step_sub; discriminate|]. intros p Hp.
  eapply sound_bind.
  { apply sound_on; [exact Hp|]. instantiate (1 := any). repeat stepS.
    eapply sound_bind; [apply sound_body_wrapper|]. intros ? _. step. }
  intros [[[[in_syms initial_values] t] body] p'] _.
  repeat stepS. apply sound_multi_assign; assumption.
Qed.

Lemma sound_visit_stmt kw st : snd_ (visit_stmt rec kw st) any.
Proof.
  unfold visit_stmt. step. apply sound_stamp. destruct st.
  - apply sound_visit_FunctionDef.
  - stepS. apply sound_visit_Return.
  - stepS. apply sound_visit_Assign.
  - stepS. apply sound_visit_AugAssign.
  - stepS. apply sound_visit_While.
  - stepS. apply sound_visit_If.
  - apply rec_expr.
  - step.
Qed.
End Statements.
End Methods.

Lemma sound_out_of_fuel {A} (V : A -> Prop) : snd_ out_of_fuel V.
Proof. intros p w _. exact I. Qed.

(** Expressions and slices keep the invariant, whatever [EX] says about
    [NameError]. *)
Lemma visit_sound_expr fuel :
  (forall e, snd_ (v_expr (visit fuel) e) any)
  /\ (forall sl, snd_ (v_slice (visit fuel) sl) any).
Proof.
  induction fuel as [| fuel [IHe IHs]]; cbn [visit v_expr v_slice].
  - split; intros; apply sound_out_of_fuel.
  - split; intros.
    + now apply sound_visit_expr.
    + now apply sound_visit_slice.
Qed.

Lemma visit_sound_simple fuel kw st :
  simple_stmt st -> snd_ (v_stmt (visit fuel) kw st) any.
Proof.
  destruct fuel as [| fuel]; cbn [visit v_stmt].
  - intros _. apply sound_out_of_fuel.
  - destruct (visit_sound_expr fuel).
    now apply sound_visit_stmt_simple.
Qed.

(** Every statement keeps the invariant once [NameError] is allowed to
    escape. *)
Lemma visit_sound_stmt :
  (forall m, EX (NameError m)) ->
  forall fuel kw st, snd_ (v_stmt (visit fuel) kw st) any.
Proof.
  intros Hname. induction fuel as [| fuel IH]; intros kw st;
    cbn [visit v_stmt].
  - apply sound_out_of_fuel.
  - destruct (visit_sound_expr fuel).
    now apply sound_visit_stmt.
Qed.
End Invariant.

(** ** Loop discovery never fails on a name read *)


Lemma total_sound {A} (EX : exn -> Prop) (m : M A) :
  (forall s, exists a s', m s = Ok a s') ->
  sound (fun _ => True) (fun _ _ => True) EX m any.
Proof.
  intros H p w _. destruct (H (p, w)) as (a & [p' w'] & ->).
  repeat split.
Qed.

Lemma new_variable_total n s : exists a s', new_variable n s = Ok a s'.
Proof. destruct s. cbv. eauto. Qed.

Lemma make_assign_total n v l s : exists a s', make_assign n v l s = Ok a s'.
Proof. destruct s. cbv. eauto. Qed.

Lemma reg_lambda_total ref args body s :
  exists a s', reg_lambda ref args body s = Ok a s'.
Proof.
  destruct s as [p w]. unfold reg_lambda, bind, get_self. cbn [fst].
  destruct (dry p); cbn; eauto.
Qed.

Lemma sub_parser_total ge kd kp kdest s :
  exists a s', sub_parser ge kd kp kdest s = Ok a s'.
Proof.
  destruct s as [p w]. unfold sub_parser, Parser_init, bind, get_self.
  cbn [fst]. destruct kdest; cbn; eauto.
Qed.

Lemma visit_variable_succeeds n s :
  exists a s', visit_variable n s = Ok a s'.
Proof.
  destruct s as [p w].
  destruct (visit_variable_total n p w) as (v & p' & w' & -> & _). eauto.
Qed.

Ltac prim_total :=
  intros; apply total_sound; intros;
  first [ apply reg_lambda_total | apply new_variable_total
        | apply make_assign_total | apply visit_variable_succeeds
        | apply sub_parser_total
        | match goal with s : State |- _ => destruct s end; cbv; eauto ].

Lemma visit_sound_no_name_error fuel :
  (forall e, sound (fun _ => True) (fun _ _ => True) no_name_error
                   (v_expr (visit fuel) e) any)
  /\ (forall kw st, simple_stmt st ->
        sound (fun _ => True) (fun _ _ => True) no_name_error
              (v_stmt (visit fuel) kw st) any).
Proof.
  split; intros.
  - apply visit_sound_expr; auto; prim_total.
  - apply visit_sound_simple; auto; prim_total.
Qed.

(** C3, the claim as stated fails: the test of [while y: x = 1] reads
    [y], which no frame of the scope chain binds, and the dry discovery
    pass succeeds. *)
Lemma explore_vars_undeclared_read_succeeds :
  bound_in_chain (vtrack top0) "y" = false
  /\ exists s,
       explore_vars (visit 3)
                    [ExploreExpr (ast.Name pos0 "y");
                     ExploreStmts [assign "x" 1]]
                    None (top0, world0)
       = Ok (mk_while_vars ["x"] ["x"]) s.
Proof. split; [reflexivity|]. eexists. vm_compute. reflexivity. Qed.


(** ** Merging the bindings of two branches *)

Lemma dict_mem_set {V} (d : list (string * V)) k v n :
  dict_mem String.eqb d n = true ->
  dict_mem String.eqb (dict_set String.eqb d k v) n = true.
Proof.
  unfold dict_mem. destruct (String.eqb_spec n k) as [->|Hne].
  - now rewrite dict_get_set_same.
  - now rewrite dict_get_set_other.
Qed.

Lemma dict_mem_set_same {V} (d : list (string * V)) k v :
  dict_mem String.eqb (dict_set String.eqb d k v) k = true.
Proof. unfold dict_mem. now rewrite dict_get_set_same. Qed.

Lemma vt_bindings_setitem t k v :
  vt_bindings (vt_setitem t k v) = dict_set String.eqb (vt_bindings t) k v.
Proof. destruct t; reflexivity. Qed.

Lemma assigned_bound_setitem p n s :
  assigned_bound p ->
  assigned_bound (set_vtrack p (vt_setitem (vtrack p) n s)).
Proof.
  intros H k Hk. cbn [vtrack set_vtrack local_assignments] in *.
  rewrite vt_bindings_setitem. apply dict_mem_set, H, Hk.
Qed.

Lemma assigned_bound_assign p n s :
  assigned_bound p ->
  assigned_bound
    (set_local_assignments (set_vtrack p (vt_setitem (vtrack p) n s))
                           (name_add (local_assignments p) n)).
Proof.
  intros H k Hk.
  cbn [vtrack set_vtrack local_assignments set_local_assignments] in *.
  rewrite vt_bindings_setitem.
  unfold name_add in Hk. destruct (name_mem n (local_assignments p)).
  - apply dict_mem_set, H, Hk.
  - apply in_app_or in Hk. destruct Hk as [Hk | [<- | []]].
    + apply dict_mem_set, H, Hk.
    + apply dict_mem_set_same.
Qed.

Lemma assigned_bound_free_variables p f :
  assigned_bound p -> assigned_bound (set_free_variables p f).
Proof. intros H k Hk. apply H, Hk. Qed.

Lemma assigned_bound_new_variable n : keeps_assigned_bound (new_variable n) any.
Proof.
  intros p w Hp. cbn. repeat split. now apply assigned_bound_setitem.
Qed.

Lemma assigned_bound_make_assign n v l :
  keeps_assigned_bound (make_assign n v l) any.
Proof.
  intros p w Hp. cbn. repeat split. now apply assigned_bound_assign.
Qed.

Lemma assigned_bound_visit_variable n :
  keeps_assigned_bound (visit_variable n) any.
Proof.
  intros p w Hp. unfold visit_variable, bind, get_self. cbn [fst].
  destruct (get_free (vtrack p) n) as [e0|[[] v]].
  - destruct e0; cbn; repeat split; auto.
  - destruct (pull_free_variables p); cbn; repeat split; auto.
    apply assigned_bound_free_variables with
      (p := set_vtrack p (vt_setitem (vtrack p) n _)).
    now apply assigned_bound_setitem.
  - cbn. repeat split; auto.
Qed.

Lemma assigned_bound_reg_lambda ref args body :
  keeps_assigned_bound (reg_lambda ref args body) any.
Proof.
  intros p w Hp. unfold reg_lambda, bind, get_self. cbn [fst].
  destruct (dry p); cbn; repeat split; auto.
Qed.

Lemma assigned_bound_sub_parser ge kd kp kdest :
  keeps_assigned_bound (sub_parser ge kd kp kdest) assigned_bound.
Proof.
  intros p w Hp. unfold sub_parser, Parser_init, bind, get_self. cbn [fst].
  destruct kdest; cbn; repeat split; auto; intros k [].
Qed.

Ltac assigned_bound_steps :=
  first [ apply assigned_bound_new_variable
        | apply assigned_bound_make_assign
        | apply assigned_bound_visit_variable
        | apply assigned_bound_reg_lambda
        | intros; apply assigned_bound_sub_parser
        | intros; now apply assigned_bound_setitem
        | intros; intros ? ? ?; cbn; repeat split; auto ].


Lemma assigned_bound_stmt fuel kw st :
  keeps_assigned_bound (v_stmt (visit fuel) kw st) any.
Proof. apply visit_sound_stmt; auto; assigned_bound_steps. Qed.





(** The names a translator has assigned resolve in its own frame. *)
Lemma assigned_bound_lookup p names :
  assigned_bound p ->
  incl names (local_assignments p) ->
  exists t,
    map_exn (vt_getitem (vtrack p)) names = inr t
    /\ Forall2 (fun a s =>
                  dict_get String.eqb (vt_bindings (vtrack p)) a = Some s)
               names t.
Proof.
  intros Hp. induction names as [| a names IH]; intros Hin.
  - exists []. split; [reflexivity | constructor].
  - destruct IH as (t & Ht & Hf).
    { intros k Hk. apply Hin. now right. }
    assert (Ha : dict_mem String.eqb (vt_bindings (vtrack p)) a = true)
      by (apply Hp, Hin; now left).
    unfold dict_mem in Ha.
    destruct (dict_get String.eqb (vt_bindings (vtrack p)) a) as [s|] eqn:E;
      [|discriminate].
    exists (s :: t). split; [|now constructor].
    cbn [map_exn]. rewrite Ht. unfold vt_getitem.
    destruct (vtrack p) as [par b]. cbn in E |- *. now rewrite E.
Qed.



(** ** A dry translator never writes a table *)

Lemma tables_kept_refl w : tables_kept w w.
Proof. intros i t H. exact H. Qed.

Lemma tables_kept_trans a b c :
  tables_kept a b -> tables_kept b c -> tables_kept a c.
Proof. intros H1 H2 i t H. apply H2, H1, H. Qed.

Lemma tables_kept_same w w' : tables w' = tables w -> tables_kept w w'.
Proof. intros E i t H. now rewrite E. Qed.

Lemma tables_kept_new w :
  tables_kept w (mkWorld (supply w) (tables w ++ [[]])).
Proof.
  intros i t H. cbn. rewrite nth_error_app1; [exact H|].
  apply nth_error_Some. congruence.
Qed.

Lemma dry_GenSym_call g s rel : keeps_dry (GenSym_call g s rel) any.
Proof.
  intros p w Hp. cbn. repeat split; auto. now apply tables_kept_same.
Qed.

Lemma dry_ParseEnv_new ns : keeps_dry (ParseEnv_new ns) any.
Proof.
  intros p w Hp. cbn. repeat split; auto. apply tables_kept_new.
Qed.

Lemma dry_reg_lambda ref args body : keeps_dry (reg_lambda ref args body) any.
Proof.
  intros p w Hp. unfold reg_lambda, bind, get_self. cbn [fst].
  rewrite Hp. cbn. repeat split; auto. apply tables_kept_refl.
Qed.

Lemma dry_new_variable n : keeps_dry (new_variable n) any.
Proof.
  intros p w Hp. cbn. repeat split; auto. now apply tables_kept_same.
Qed.

Lemma dry_make_assign n v l : keeps_dry (make_assign n v l) any.
Proof.
  intros p w Hp. cbn. repeat split; auto. now apply tables_kept_same.
Qed.

Lemma dry_visit_variable n : keeps_dry (visit_variable n) any.
Proof.
  intros p w Hp.
  destruct (visit_variable_total n p w)
    as (v & p' & w' & -> & Hd & _ & Ht & _).
  repeat split; [congruence | now apply tables_kept_same].
Qed.

Lemma dry_set_returns :
  keeps_dry (modify_self (fun p => set_returns p true)) any.
Proof.
  intros p w Hp. cbn. repeat split; auto. apply tables_kept_refl.
Qed.

Lemma dry_sub_parser ge kd kp kdest :
  kd <> Some false ->
  keeps_dry (sub_parser ge kd kp kdest) (fun p => dry p = true).
Proof.
  intros Hkd p w Hp. unfold sub_parser, Parser_init, bind, get_self.
  cbn [fst].
  assert (Hd : match kd with Some d => d | None => dry p end = true).
  { destruct kd as [[]|]; auto; congruence. }
  destruct kdest; cbn; rewrite Hd; repeat split; auto;
    now apply tables_kept_same.
Qed.

Ltac dry_steps :=
  first [ apply tables_kept_refl
        | apply tables_kept_trans
        | apply dry_GenSym_call | apply dry_ParseEnv_new
        | apply dry_reg_lambda | apply dry_new_variable
        | apply dry_make_assign | apply dry_visit_variable
        | apply dry_set_returns
        | intros; now apply dry_sub_parser
        | intros; assumption
        | intros; exact I ].

Lemma dry_expr fuel e : keeps_dry (v_expr (visit fuel) e) any.
Proof. apply visit_sound_expr; dry_steps. Qed.

Lemma dry_slice fuel sl : keeps_dry (v_slice (visit fuel) sl) any.
Proof. apply visit_sound_expr; dry_steps. Qed.

Lemma dry_stmt fuel kw st : keeps_dry (v_stmt (visit fuel) kw st) any.
Proof. apply visit_sound_stmt; dry_steps. Qed.

Lemma dry_body_wrapper fuel stmts :
  keeps_dry (body_wrapper (visit fuel) stmts) any.
Proof.
  apply sound_body_wrapper;
    first [ apply dry_expr | apply dry_slice | apply dry_stmt | dry_steps ].
Qed.

Lemma dry_bind {A B} (m : M A) (k : A -> M B) V W :
  keeps_dry m V -> (forall a, V a -> keeps_dry (k a) W) ->
  keeps_dry (bind m k) W.
Proof. apply sound_bind, tables_kept_trans. Qed.

Lemma dry_ret {A} (a : A) : keeps_dry (ret a) any.
Proof. apply sound_ret; [apply tables_kept_refl | exact I]. Qed.

Lemma dry_explore_items fuel exprs :
  keeps_dry
    (mapM (fun expr =>
             match expr with
             | ExploreStmts l => body_wrapper (visit fuel) l ;; ret tt
             | ExploreExpr e => v_expr (visit fuel) e ;; ret tt
             end) exprs) any.
Proof.
  apply sound_mapM;
    [apply tables_kept_refl | apply tables_kept_trans |].
  intros [e|l].
  - eapply dry_bind; [apply dry_expr|]. intros ? _. apply dry_ret.
  - eapply dry_bind; [apply dry_body_wrapper|]. intros ? _. apply dry_ret.
Qed.

(** The discovery pass hands back the translator it was called on, and
    every table that existed before is as it was. *)
Lemma explore_vars_frame fuel exprs re self w vars self' w' :
  explore_vars (visit fuel) exprs re (self, w) = Ok vars (self', w') ->
  self' = self /\ tables_kept w w'.
Proof.
  unfold explore_vars. intros H.
  bind_inv H. cbn in Hm. injection Hm as <- <-.
  bind_inv H.
  assert (Hsub : dry a = true
                 /\ fst s = self
                 /\ tables (snd s) = (tables w ++ [[]])%list).
  { revert Hm. unfold sub_parser, Parser_init, bind, get_self, ret,
      GenSym_call. cbn. intros Hm. injection Hm as <- <-. auto. }
  destruct Hsub as (Hd & Hs & Ht). clear Hm.
  bind_inv H. destruct a0 as [u testp].
  unfold on in Hm.
  pose proof (dry_explore_items fuel exprs (set_return_error a re) (snd s) Hd)
    as Hk.
  match type of Hm with
  | match ?x with _ => _ end = _ => destruct x as [r [p1 w1]| |]
  end; try discriminate.
  injection Hm as _ _ <-. destruct Hk as (_ & Hk & _).
  unfold ret in H. injection H as _ <- <-. cbn [fst snd].
  split; [exact Hs|].
  eapply tables_kept_trans; [|exact Hk].
  intros i t Hi. rewrite Ht. rewrite nth_error_app1; [exact Hi|].
  apply nth_error_Some. congruence.
Qed.

(** ** Independence from the uniqueness tokens *)

Lemma dict_get_erase d k :
  dict_get String.eqb (erase_dict d) k
  = option_map erase_sym (dict_get String.eqb d k).
Proof.
  induction d as [|[k' v] d IH]; cbn; [reflexivity|].
  destruct (String.eqb k k'); auto.
Qed.

Lemma dict_set_erase d k v :
  erase_dict (dict_set String.eqb d k v)
  = dict_set String.eqb (erase_dict d) k (erase_sym v).
Proof.
  induction d as [|[k' v'] d IH]; cbn; [reflexivity|].
  destruct (String.eqb k k'); cbn; [reflexivity|]. f_equal. exact IH.
Qed.

Lemma dict_keys_erase d : dict_keys (erase_dict d) = dict_keys d.
Proof. unfold dict_keys, erase_dict. rewrite map_map. reflexivity. Qed.

Lemma dict_values_erase d :
  dict_values (erase_dict d) = map erase_sym (dict_values d).
Proof. unfold dict_values, erase_dict. now rewrite !map_map. Qed.

Lemma erase_dict_keys d1 d2 :
  erase_dict d1 = erase_dict d2 -> dict_keys d1 = dict_keys d2.
Proof.
  intros H. rewrite <- (dict_keys_erase d1), H. apply dict_keys_erase.
Qed.

Lemma erase_dict_values d1 d2 :
  erase_dict d1 = erase_dict d2 -> rel_syms (dict_values d1) (dict_values d2).
Proof.
  intros H. unfold rel_syms. now rewrite <- !dict_values_erase, H.
Qed.

Lemma get_free_erase t n :
  get_free (erase_vt t) n
  = match get_free t n with
    | inl e => inl e
    | inr (f, s) => inr (f, erase_sym s)
    end.
Proof.
  induction t as [b | par b IH] using VariableTracker_chain_ind;
    cbn [erase_vt get_free]; rewrite dict_get_erase;
    destruct (dict_get String.eqb b n); cbn; try reflexivity.
  rewrite IH. destruct (get_free par n) as [e|[f s]]; reflexivity.
Qed.

Lemma get_free_similar t1 t2 n :
  erase_vt t1 = erase_vt t2 ->
  rel_result (fun x y => fst x = fst y /\ rel_sym (snd x) (snd y))
             (get_free t1 n) (get_free t2 n).
Proof.
  intros H. generalize (get_free_erase t1 n). rewrite H, get_free_erase.
  unfold rel_result, rel_sym.
  destruct (get_free t1 n) as [e1|[f1 s1]], (get_free t2 n) as [e2|[f2 s2]];
    cbn [fst snd]; intros E; try discriminate; try congruence.
  split; congruence.
Qed.

Lemma vt_getitem_similar t1 t2 n :
  erase_vt t1 = erase_vt t2 ->
  rel_result rel_sym (vt_getitem t1 n) (vt_getitem t2 n).
Proof.
  intros H. generalize (get_free_similar t1 t2 n H). unfold vt_getitem, rel_result.
  destruct (get_free t1 n) as [e1|[f1 s1]], (get_free t2 n) as [e2|[f2 s2]];
    cbn; tauto.
Qed.

Lemma map_vt_getitem_similar t1 t2 l :
  erase_vt t1 = erase_vt t2 ->
  rel_result rel_syms (map_exn (vt_getitem t1) l) (map_exn (vt_getitem t2) l).
Proof.
  intros H. induction l as [|n l IH]; cbn; [reflexivity|].
  generalize (vt_getitem_similar t1 t2 n H). unfold rel_result in *.
  destruct (vt_getitem t1 n), (vt_getitem t2 n); try tauto.
  destruct (map_exn (vt_getitem t1) l), (map_exn (vt_getitem t2) l);
    try tauto.
  unfold rel_syms, rel_sym in *. cbn. congruence.
Qed.

Lemma vt_setitem_erase t n s :
  erase_vt (vt_setitem t n s) = vt_setitem (erase_vt t) n (erase_sym s).
Proof.
  destruct t as [par b]. unfold vt_setitem. cbn. now rewrite dict_set_erase.
Qed.

Lemma vt_setitem_similar t1 t2 n s1 s2 :
  erase_vt t1 = erase_vt t2 -> rel_sym s1 s2 ->
  erase_vt (vt_setitem t1 n s1) = erase_vt (vt_setitem t2 n s2).
Proof. intros H Hs. rewrite !vt_setitem_erase. now rewrite H, Hs. Qed.

Lemma dict_set_similar d1 d2 n s1 s2 :
  erase_dict d1 = erase_dict d2 -> rel_sym s1 s2 ->
  erase_dict (dict_set String.eqb d1 n s1)
  = erase_dict (dict_set String.eqb d2 n s2).
Proof. intros H Hs. rewrite !dict_set_erase. now rewrite H, Hs. Qed.

Lemma rel_nodes_Forall2 l1 l2 :
  Forall2 rel_node l1 l2 <-> rel_nodes l1 l2.
Proof.
  unfold rel_nodes, rel_node. split.
  - induction 1; cbn; congruence.
  - revert l2. induction l1 as [|a l1 IH]; intros [|b l2]; cbn;
      try discriminate; constructor.
    + congruence.
    + apply IH. congruence.
Qed.

Lemma rel_syms_Forall2 l1 l2 :
  Forall2 rel_sym l1 l2 <-> rel_syms l1 l2.
Proof.
  unfold rel_syms, rel_sym. split.
  - induction 1; cbn; congruence.
  - revert l2. induction l1 as [|a l1 IH]; intros [|b l2]; cbn;
      try discriminate; constructor.
    + congruence.
    + apply IH. congruence.
Qed.

Lemma rel_syms_nodes l1 l2 :
  rel_syms l1 l2 -> rel_nodes (map Sym l1) (map Sym l2).
Proof.
  unfold rel_syms, rel_nodes. rewrite !map_map. cbn.
  intros H. apply (f_equal (map Sym)) in H. now rewrite !map_map in H.
Qed.

Lemma rel_nodes_app a1 a2 b1 b2 :
  rel_nodes a1 a2 -> rel_nodes b1 b2 -> rel_nodes (a1 ++ b1) (a2 ++ b2).
Proof. unfold rel_nodes. rewrite !map_app. congruence. Qed.

Lemma rel_nodes_length a1 a2 : rel_nodes a1 a2 -> length a1 = length a2.
Proof.
  intros H. apply (f_equal (@length _)) in H. now rewrite !length_map in H.
Qed.

Lemma rel_syms_length a1 a2 : rel_syms a1 a2 -> length a1 = length a2.
Proof.
  intros H. apply (f_equal (@length _)) in H. now rewrite !length_map in H.
Qed.

(** *** The body assembly is blind to tokens *)

Lemma is_Assign_erase n : is_Assign (erase_node n) = is_Assign n.
Proof. destruct n; reflexivity. Qed.

Lemma node_location_erase n : node_location (erase_node n) = node_location n.
Proof. destruct n; reflexivity. Qed.

Lemma group_contiguous_erase l :
  group_contiguous (map erase_node l) is_Assign
  = erase_groups (group_contiguous l is_Assign).
Proof.
  induction l as [|x l IH]; cbn; [reflexivity|].
  rewrite IH, is_Assign_erase.
  destruct (group_contiguous l is_Assign) as [|[b grp] gs]; cbn;
    [reflexivity|].
  destruct (Bool.eqb (is_Assign x) b); reflexivity.
Qed.

Lemma group_contiguous_similar l1 l2 :
  rel_nodes l1 l2 ->
  rel_groups (group_contiguous l1 is_Assign) (group_contiguous l2 is_Assign).
Proof.
  unfold rel_nodes, rel_groups. intros H.
  now rewrite <- !group_contiguous_erase, H.
Qed.

Lemma assign_binding_erase grp :
  map_exn assign_binding (map erase_node grp)
  = match map_exn assign_binding grp with
    | inl e => inl e
    | inr bs => inr (map erase_binding bs)
    end.
Proof.
  induction grp as [|n grp IH]; cbn; [reflexivity|].
  rewrite IH. destruct n; cbn; try reflexivity.
  destruct (map_exn assign_binding grp); reflexivity.
Qed.

Lemma last_erase grp :
  last (map erase_node grp) (Tuple []) = erase_node (last grp (Tuple [])).
Proof.
  induction grp as [|n grp IH]; [reflexivity|].
  destruct grp; [reflexivity|]. exact IH.
Qed.

Lemma helper_cons_cons isass grp g rest result :
  helper ((isass, grp) :: g :: rest) result
  = if isass then
      match map_exn assign_binding grp with
      | inl e => inl e
      | inr bindings =>
          match helper (g :: rest) result with
          | inl e => inl e
          | inr b => inr (Let bindings b)
          end
      end
    else
      match helper (g :: rest) result with
      | inl e => inl e
      | inr b => inr (Begin (grp ++ [b]))
      end.
Proof. reflexivity. Qed.

Lemma helper_erase groups result :
  helper (erase_groups groups) (option_map erase_node result)
  = match helper groups result with
    | inl e => inl e
    | inr n => inr (erase_node n)
    end.
Proof.
  induction groups as [|[isass grp] rest IH]; [reflexivity|].
  destruct rest as [|g rest].
  - cbn [erase_groups map helper fst snd]. destruct isass.
    + rewrite assign_binding_erase.
      destruct (map_exn assign_binding grp) as [e|bs]; [reflexivity|].
      destruct result; cbn; [reflexivity|].
      now rewrite last_erase, node_location_erase.
    + destruct grp as [|x [|y grp]]; reflexivity.
  - rewrite helper_cons_cons.
    change (erase_groups ((isass, grp) :: g :: rest))
      with ((isass, map erase_node grp)
            :: (fst g, map erase_node (snd g)) :: erase_groups rest).
    rewrite helper_cons_cons.
    change ((fst g, map erase_node (snd g)) :: erase_groups rest)
      with (erase_groups (g :: rest)).
    rewrite IH. destruct isass.
    + rewrite assign_binding_erase.
      destruct (map_exn assign_binding grp) as [e|bs]; [reflexivity|].
      destruct (helper (g :: rest) result); reflexivity.
    + destruct (helper (g :: rest) result); [reflexivity|].
      cbn. now rewrite map_app.
Qed.

Lemma helper_similar g1 g2 r1 r2 :
  rel_groups g1 g2 ->
  option_map erase_node r1 = option_map erase_node r2 ->
  rel_result rel_node (helper g1 r1) (helper g2 r2).
Proof.
  unfold rel_groups. intros Hg Hr.
  generalize (helper_erase g1 r1). rewrite Hg, Hr, helper_erase.
  unfold rel_result, rel_node.
  destruct (helper g1 r1), (helper g2 r2); congruence.
Qed.

(** *** Rules for related computations *)

Lemma related_ret {A} (R : A -> A -> Prop) a1 a2 :
  R a1 a2 -> related R (ret a1) (ret a2).
Proof. intros H p1 w1 p2 w2 Hs. cbn. auto. Qed.

Lemma related_raise {A} (R : A -> A -> Prop) e :
  related R (raise e) (raise e).
Proof. intros p1 w1 p2 w2 Hs. reflexivity. Qed.

Lemma related_out_of_fuel {A} (R : A -> A -> Prop) :
  related R out_of_fuel out_of_fuel.
Proof. intros p1 w1 p2 w2 Hs. exact I. Qed.

Lemma related_bind {A B} (RA : A -> A -> Prop) (RB : B -> B -> Prop)
    (m1 m2 : M A) (k1 k2 : A -> M B) :
  related RA m1 m2 ->
  (forall a1 a2, RA a1 a2 -> related RB (k1 a1) (k2 a2)) ->
  related RB (bind m1 k1) (bind m2 k2).
Proof.
  intros Hm Hk p1 w1 p2 w2 Hs. unfold bind. specialize (Hm p1 w1 p2 w2 Hs).
  destruct (m1 (p1, w1)) as [a1 [q1 v1]| |],
           (m2 (p2, w2)) as [a2 [q2 v2]| |]; try contradiction; auto.
  destruct Hm as [Ha Hq]. apply (Hk a1 a2 Ha q1 v1 q2 v2 Hq).
Qed.

Lemma related_weaken {A} (R R' : A -> A -> Prop) (m1 m2 : M A) :
  related R m1 m2 -> (forall a b, R a b -> R' a b) -> related R' m1 m2.
Proof.
  intros Hm HR p1 w1 p2 w2 Hs. specialize (Hm p1 w1 p2 w2 Hs).
  destruct (m1 (p1, w1)) as [a1 [q1 v1]| |],
           (m2 (p2, w2)) as [a2 [q2 v2]| |]; try contradiction; auto.
  destruct Hm; auto.
Qed.

Lemma erase_node_at n loc : erase_node (at_ n loc) = at_ (erase_node n) loc.
Proof. destruct n; reflexivity. Qed.

Lemma related_stamp (m1 m2 : M MyiaASTNode) loc :
  related rel_node m1 m2 ->
  related rel_node (r <- m1 ;; ret (at_ r loc)) (r <- m2 ;; ret (at_ r loc)).
Proof.
  intros H. eapply related_bind; [exact H|]. intros a1 a2 Ha.
  apply related_ret. unfold rel_node in *. rewrite !erase_node_at.
  now rewrite Ha.
Qed.

Lemma related_get_self : related similar get_self get_self.
Proof. intros p1 w1 p2 w2 Hs. cbn. auto. Qed.

Lemma related_modify_self (f1 f2 : Parser -> Parser) :
  (forall p1 p2, similar p1 p2 -> similar (f1 p1) (f2 p2)) ->
  related (@rel_any unit) (modify_self f1) (modify_self f2).
Proof. intros H p1 w1 p2 w2 Hs. cbn. split; [exact I | auto]. Qed.

Lemma related_lift {A} (R : A -> A -> Prop) r1 r2 :
  rel_result R r1 r2 -> related R (lift r1) (lift r2).
Proof.
  unfold rel_result. destruct r1, r2; try contradiction; cbn.
  - intros ->. apply related_raise.
  - apply related_ret.
Qed.

Lemma related_on {A} (R : A -> A -> Prop) p1 p2 (m1 m2 : M A) :
  similar p1 p2 -> related R m1 m2 ->
  related (fun x y => R (fst x) (fst y) /\ similar (snd x) (snd y))
          (on p1 m1) (on p2 m2).
Proof.
  intros Hp Hm q1 w1 q2 w2 Hs. unfold on. cbn [fst snd].
  specialize (Hm p1 w1 p2 w2 Hp).
  destruct (m1 (p1, w1)) as [a1 [r1 v1]| |],
           (m2 (p2, w2)) as [a2 [r2 v2]| |]; try contradiction; auto.
Qed.

Lemma related_mapM {A B} (R : B -> B -> Prop) (f1 f2 : A -> M B) l :
  (forall x, In x l -> related R (f1 x) (f2 x)) ->
  related (Forall2 R) (mapM f1 l) (mapM f2 l).
Proof.
  induction l as [|x l IH]; intros H; cbn [mapM].
  - apply related_ret. constructor.
  - eapply related_bind; [apply H; now left|]. intros y1 y2 Hy.
    eapply related_bind; [apply IH; intros; apply H; now right|].
    intros ys1 ys2 Hys. apply related_ret. now constructor.
Qed.

Lemma related_mapM_enumerate {A B} (R : B -> B -> Prop)
    (f1 f2 : nat -> A -> M B) l :
  (forall i x, related R (f1 i x) (f2 i x)) ->
  forall i, related (Forall2 R) (mapM_enumerate f1 i l) (mapM_enumerate f2 i l).
Proof.
  intros H. induction l as [|x l IH]; intros i; cbn [mapM_enumerate].
  - apply related_ret. constructor.
  - eapply related_bind; [apply H|]. intros y1 y2 Hy.
    eapply related_bind; [apply IH|].
    intros ys1 ys2 Hys. apply related_ret. now constructor.
Qed.

(** *** The primitives *)

Lemma related_GenSym_call g s1 s2 rel :
  sym_source_label s1 = sym_source_label s2 ->
  related rel_sym (GenSym_call g s1 rel) (GenSym_call g s2 rel).
Proof.
  intros H p1 w1 p2 w2 Hs. cbn. split; [|exact Hs].
  unfold rel_sym, erase_sym. cbn. unfold sym_source_label in H.
  now rewrite H.
Qed.

Lemma rel_sym_label s1 s2 : rel_sym s1 s2 -> label s1 = label s2.
Proof. intros H. apply (f_equal label) in H. exact H. Qed.

Lemma related_ParseEnv_new ns :
  related (fun e1 e2 => env_namespace e1 = env_namespace e2)
          (ParseEnv_new ns) (ParseEnv_new ns).
Proof. intros p1 w1 p2 w2 Hs. cbn. auto. Qed.

Lemma related_ParseEnv_setitem e1 e2 r1 r2 l1 l2 :
  related (@rel_any unit) (ParseEnv_setitem e1 r1 l1)
          (ParseEnv_setitem e2 r2 l2).
Proof. intros p1 w1 p2 w2 Hs. cbn. split; [exact I | exact Hs]. Qed.

Lemma related_sub_parser e1 e2 d pf s1 s2 :
  rel_option (fun a b => env_namespace a = env_namespace b) e1 e2 ->
  rel_option rel_sym s1 s2 ->
  related similar (sub_parser e1 d pf s1) (sub_parser e2 d pf s2).
Proof.
  intros He Hd p1 w1 p2 w2 Hs. pose proof Hs as Hs'. destruct Hs'.
  unfold sub_parser, Parser_init, bind, get_self. cbn [fst snd].
  destruct s1 as [s1|], s2 as [s2|]; try contradiction; cbn;
    (split; [|exact Hs]); constructor; cbn; auto; try congruence;
    try (destruct e1, e2; try contradiction; auto; fail);
    try (destruct d; congruence).
Qed.

Lemma related_reg_lambda r1 r2 a1 a2 b1 b2 :
  rel_sym r1 r2 ->
  related rel_sym (reg_lambda r1 a1 b1) (reg_lambda r2 a2 b2).
Proof.
  intros H. unfold reg_lambda.
  eapply related_bind; [apply related_get_self|]. intros p1 p2 Hp.
  eapply related_bind with (RA := @rel_any unit).
  - rewrite (sim_dry _ _ Hp). destruct (dry p2); cbn.
    + apply related_ret. exact I.
    + apply related_ParseEnv_setitem.
  - intros _ _ _. now apply related_ret.
Qed.

Lemma similar_set_vtrack p1 p2 t1 t2 :
  similar p1 p2 -> erase_vt t1 = erase_vt t2 ->
  similar (set_vtrack p1 t1) (set_vtrack p2 t2).
Proof. intros [] H. constructor; cbn; auto. Qed.

Lemma similar_set_free_variables p1 p2 d1 d2 :
  similar p1 p2 -> erase_dict d1 = erase_dict d2 ->
  similar (set_free_variables p1 d1) (set_free_variables p2 d2).
Proof. intros [] H. constructor; cbn; auto. Qed.

Lemma similar_set_local_assignments p1 p2 l :
  similar p1 p2 ->
  similar (set_local_assignments p1 l) (set_local_assignments p2 l).
Proof. intros []. constructor; cbn; auto. Qed.

Lemma similar_set_returns p1 p2 b :
  similar p1 p2 -> similar (set_returns p1 b) (set_returns p2 b).
Proof. intros []. constructor; cbn; auto. Qed.

Lemma similar_set_return_error p1 p2 e :
  similar p1 p2 -> similar (set_return_error p1 e) (set_return_error p2 e).
Proof. intros []. constructor; cbn; auto. Qed.

Lemma similar_refl p : macros_parametric (macros p) -> similar p p.
Proof. intros H. constructor; auto. Qed.

Lemma related_new_variable n :
  related rel_sym (new_variable n) (new_variable n).
Proof.
  unfold new_variable.
  eapply related_bind; [apply related_get_self|]. intros p1 p2 Hp.
  rewrite (sim_gen _ _ Hp).
  eapply related_bind; [now apply related_GenSym_call|]. intros s1 s2 Hs.
  eapply related_bind.
  - apply related_modify_self. intros q1 q2 Hq.
    apply similar_set_vtrack; [exact Hq|].
    apply vt_setitem_similar; [apply (sim_vtrack _ _ Hq) | exact Hs].
  - intros _ _ _. now apply related_ret.
Qed.

Lemma related_make_assign n v1 v2 loc :
  rel_node v1 v2 ->
  related rel_node (make_assign n v1 loc) (make_assign n v2 loc).
Proof.
  intros Hv. unfold make_assign.
  eapply related_bind; [apply related_new_variable|]. intros s1 s2 Hs.
  eapply related_bind.
  - apply related_modify_self. intros q1 q2 Hq.
    rewrite (sim_assigned _ _ Hq). now apply similar_set_local_assignments.
  - intros _ _ _. apply related_ret. unfold rel_node, rel_sym in *. cbn.
    congruence.
Qed.

Lemma related_multi_assign ass e1 e2 :
  rel_node e1 e2 ->
  related rel_node (multi_assign ass e1) (multi_assign ass e2).
Proof.
  intros He. unfold multi_assign.
  eapply related_bind; [apply related_get_self|]. intros p1 p2 Hp.
  rewrite (sim_gen _ _ Hp).
  eapply related_bind; [now apply related_GenSym_call|]. intros t1 t2 Ht.
  eapply related_bind.
  - apply related_mapM_enumerate with (R := rel_node). intros i a.
    apply related_make_assign. unfold rel_node, rel_sym in *. cbn.
    congruence.
  - intros l1 l2 Hl. apply related_ret. apply rel_nodes_Forall2 in Hl.
    unfold rel_node, rel_nodes, rel_sym in *. cbn. congruence.
Qed.

Lemma related_prepare_closure variable r1 r2 :
  rel_option rel_sym r1 r2 ->
  related similar (prepare_closure variable r1) (prepare_closure variable r2).
Proof.
  intros Hr. unfold prepare_closure.
  eapply related_bind; [apply related_get_self|]. intros p1 p2 Hp.
  eapply related_bind with (RA := rel_sym).
  - destruct r1, r2; try contradiction.
    + now apply related_ret.
    + unfold ParseEnv_gen. rewrite (sim_env _ _ Hp).
      now apply related_GenSym_call.
  - intros s1 s2 Hs.
    eapply related_bind; [now apply related_sub_parser|]. intros q1 q2 Hq.
    apply related_ret. destruct variable; [|exact Hq].
    apply similar_set_vtrack; [exact Hq|].
    apply vt_setitem_similar; [apply (sim_vtrack _ _ Hq) | exact Hs].
Qed.

Lemma related_visit_variable n :
  related rel_sym (visit_variable n) (visit_variable n).
Proof.
  unfold visit_variable.
  eapply related_bind; [apply related_get_self|]. intros p1 p2 Hp.
  generalize (get_free_similar _ _ n (sim_vtrack _ _ Hp)).
  unfold rel_result.
  destruct (get_free (vtrack p1) n) as [e1|[f1 s1]],
           (get_free (vtrack p2) n) as [e2|[f2 s2]]; try contradiction.
  - intros <-. destruct e1; try apply related_raise.
    now apply related_ret.
  - cbn. intros [<- Hs]. destruct f1; [|now apply related_ret].
    eapply related_bind with (RA := rel_sym).
    + rewrite (sim_pull _ _ Hp). destruct (pull_free_variables p2).
      * apply related_new_variable.
      * now apply related_ret.
    + intros v1 v2 Hv. eapply related_bind.
      * apply related_modify_self. intros q1 q2 Hq.
        apply similar_set_free_variables; [exact Hq|].
        apply dict_set_similar; [apply (sim_free _ _ Hq) | exact Hv].
      * intros _ _ _. now apply related_ret.
Qed.

Lemma related_construct_closure p1 p2 a1 a2 b1 b2 :
  similar p1 p2 ->
  related rel_node (construct_closure p1 a1 b1) (construct_closure p2 a2 b2).
Proof.
  intros Hp. unfold construct_closure.
  rewrite (erase_dict_keys _ _ (sim_free _ _ Hp)).
  eapply related_bind.
  { apply related_mapM with (R := rel_sym). intros x _.
    apply related_visit_variable. }
  intros c1 c2 Hc.
  eapply related_bind; [apply related_reg_lambda, (sim_dest _ _ Hp)|].
  intros l1 l2 Hl.
  rewrite (rel_syms_length _ _ (erase_dict_values _ _ (sim_free _ _ Hp))).
  destruct (0 <? length (dict_values (free_variables p2)))%nat;
    apply related_ret.
  - apply rel_syms_Forall2, rel_syms_nodes in Hc.
    unfold rel_node, rel_nodes, rel_sym in *. cbn. congruence.
  - unfold rel_node, rel_sym in *. cbn. congruence.
Qed.

Lemma dict_get_In {V} (d : list (string * V)) k v :
  dict_get String.eqb d k = Some v -> In (k, v) d.
Proof.
  induction d as [|[k' v'] d IH]; cbn; [discriminate|].
  destruct (String.eqb_spec k k') as [->|_].
  - intros [= ->]. now left.
  - intros H. right. now apply IH.
Qed.

Lemma call_make_closure_label rec args body loc name ref :
  call_make_closure rec args body
    [("loc", KwLocation loc); ("label", KwString name); ("ref", KwSymbol ref)]
  = raise (TypeError
      "make_closure() got an unexpected keyword argument 'label'").
Proof. reflexivity. Qed.

Lemma related_make_location pos :
  related eq (make_location pos) (make_location pos).
Proof.
  unfold make_location.
  eapply related_bind; [apply related_get_self|]. intros p1 p2 Hp.
  apply related_ret. now rewrite (sim_locator _ _ Hp).
Qed.

Lemma related_no_kwargs method kw :
  related (@rel_any unit) (no_kwargs method kw) (no_kwargs method kw).
Proof.
  destruct kw; cbn; [apply related_raise | apply related_ret; exact I].
Qed.

(** *** The methods, given subterms that are translated alike *)

Section Related.
Variable rec : visitor.
Hypothesis rel_expr :
  forall e, related rel_node (v_expr rec e) (v_expr rec e).
Hypothesis rel_slice :
  forall e, related rel_node (v_slice rec e) (v_slice rec e).
Hypothesis rel_stmt :
  forall kw s, related rel_node (v_stmt rec kw s) (v_stmt rec kw s).

Ltac rprim :=
  first [ apply related_get_self | apply rel_expr | apply rel_slice
        | apply rel_stmt | apply related_visit_variable
        | apply related_new_variable | apply related_make_location
        | apply related_no_kwargs ].

Ltac rbind := eapply related_bind; [rprim|]; cbv beta.

Ltac rnode :=
  unfold rel_node, rel_nodes, rel_sym, rel_syms in *; cbn; congruence.

Lemma related_mapM_expr l :
  related rel_nodes (mapM (v_expr rec) l) (mapM (v_expr rec) l).
Proof.
  eapply related_weaken.
  - apply related_mapM with (R := rel_node). intros x _. apply rel_expr.
  - intros a b. apply rel_nodes_Forall2.
Qed.

Lemma related_mapM_slice l :
  related rel_nodes (mapM (v_slice rec) l) (mapM (v_slice rec) l).
Proof.
  eapply related_weaken.
  - apply related_mapM with (R := rel_node). intros x _. apply rel_slice.
  - intros a b. apply rel_nodes_Forall2.
Qed.

Lemma related_mapM_visit_variable l :
  related rel_syms (mapM visit_variable l) (mapM visit_variable l).
Proof.
  eapply related_weaken.
  - apply related_mapM with (R := rel_sym). intros x _.
    apply related_visit_variable.
  - intros a b. apply rel_syms_Forall2.
Qed.

Lemma related_mapM_new_variable l :
  related rel_syms (mapM new_variable l) (mapM new_variable l).
Proof.
  eapply related_weaken.
  - apply related_mapM with (R := rel_sym). intros x _.
    apply related_new_variable.
  - intros a b. apply rel_syms_Forall2.
Qed.

Lemma related_body_loop stmts :
  forall r1 r2, rel_nodes r1 r2 ->
    related rel_nodes (body_loop rec stmts r1) (body_loop rec stmts r2).
Proof.
  induction stmts as [|stmt rest IH]; intros r1 r2 Hr; cbn [body_loop].
  - now apply related_ret.
  - rbind. intros p1 p2 Hp. cbv zeta. rewrite (sim_returns _ _ Hp).
    rbind. intros a1 a2 Ha. destruct (returns p2).
    + rbind. intros l1 l2 <-. apply related_raise.
    + apply IH.
      destruct a1, a2; unfold rel_node in Ha; cbn in Ha;
        try discriminate; (apply rel_nodes_app; [exact Hr|]);
        unfold rel_nodes; cbn; congruence.
Qed.

Lemma related_body_wrapper stmts :
  related rel_groups (body_wrapper rec stmts) (body_wrapper rec stmts).
Proof.
  unfold body_wrapper.
  eapply related_bind; [apply related_body_loop; reflexivity|].
  intros r1 r2 Hr. apply related_ret. now apply group_contiguous_similar.
Qed.

Lemma related_visit_body stmts :
  related rel_node (visit_body rec stmts) (visit_body rec stmts).
Proof.
  unfold visit_body.
  eapply related_bind; [apply related_body_wrapper|]. intros g1 g2 Hg.
  apply related_lift. now apply helper_similar.
Qed.

Lemma related_make_closure args body loc variable r1 r2 :
  match body with BodyCallable f => related rel_node f f | _ => True end ->
  rel_option rel_sym r1 r2 ->
  related rel_node (make_closure rec args body loc variable r1)
                   (make_closure rec args body loc variable r2).
Proof.
  intros Hbody Hr. unfold make_closure.
  eapply related_bind; [now apply related_prepare_closure|].
  intros q1 q2 Hq.
  eapply related_bind.
  { apply related_on with (R := fun x y : list Symbol * MyiaASTNode =>
                                   rel_node (snd x) (snd y)); [exact Hq|].
    eapply related_bind; [apply related_mapM_new_variable|].
    intros s1 s2 Hs.
    eapply related_bind with (RA := rel_node).
    - destruct body; [exact Hbody | apply related_visit_body | apply rel_expr].
    - intros b1 b2 Hb. now apply related_ret. }
  intros [x1 t1] [x2 t2] [Hx Ht]. cbn [fst snd] in *.
  now apply related_construct_closure.
Qed.

Lemma related_visit_opt e dflt :
  related rel_node (visit_opt rec e dflt) (visit_opt rec e dflt).
Proof.
  destruct e; cbn; [apply rel_expr | now apply related_ret].
Qed.

Lemma related_visit_expr e :
  related rel_node (visit_expr rec e) (visit_expr rec e).
Proof.
  unfold visit_expr. rbind. intros loc ? <-. apply related_stamp.
  destruct e.
  - unfold visit_BinOp. rbind. intros l1 l2 Hl. rbind. intros r1 r2 Hr.
    apply related_ret. rnode.
  - unfold visit_UnaryOp. rbind. intros v1 v2 Hv. apply related_ret. rnode.
  - unfold visit_Lambda, call_make_closure. cbn.
    apply related_make_closure; exact I.
  - unfold visit_Compare.
    destruct (map get_operator_cmp ops) as [|op [|? ?]];
      try apply related_raise.
    rbind. intros l1 l2 Hl.
    destruct comparators as [|c ?]; [apply related_raise|].
    rbind. intros c1 c2 Hc. apply related_ret. rnode.
  - unfold visit_Call.
    destruct (0 <? length keywords)%nat; [apply related_raise|].
    eapply related_bind; [apply related_mapM_expr|]. intros a1 a2 Ha.
    rbind. intros p1 p2 Hp. rewrite (sim_macros _ _ Hp).
    destruct (match e with
              | ast.Name _ id => dict_get String.eqb (macros p2) id
              | _ => None
              end) as [m|] eqn:Hm.
    + apply related_ret. destruct e; try discriminate.
      apply dict_get_In in Hm. rewrite <- (sim_macros _ _ Hp) in Hm.
      exact (sim_parametric _ _ Hp _ _ Hm _ _ Ha).
    + rbind. intros f1 f2 Hf. apply related_ret. rnode.
  - now apply related_ret.
  - now apply related_ret.
  - now apply related_ret.
  - unfold visit_Attribute. rbind. intros v1 v2 Hv. apply related_ret. rnode.
  - unfold visit_Subscript. rbind. intros v1 v2 Hv. rbind. intros i1 i2 Hi.
    apply related_ret. rnode.
  - unfold visit_Name. rbind. intros v1 v2 Hv. apply related_ret. rnode.
  - unfold visit_Tuple.
    eapply related_bind; [apply related_mapM_expr|]. intros a1 a2 Ha.
    apply related_ret. rnode.
  - apply related_raise.
Qed.

Lemma related_visit_slice e :
  related rel_node (visit_slice rec e) (visit_slice rec e).
Proof.
  unfold visit_slice. apply related_stamp. destruct e.
  - apply rel_expr.
  - unfold visit_Slice.
    eapply related_bind; [apply related_visit_opt|]. intros l1 l2 Hl.
    eapply related_bind; [apply related_visit_opt|]. intros u1 u2 Hu.
    eapply related_bind; [apply related_visit_opt|]. intros s1 s2 Hs.
    apply related_ret. rnode.
  - unfold visit_ExtSlice.
    eapply related_bind; [apply related_mapM_slice|]. intros a1 a2 Ha.
    apply related_ret. rnode.
Qed.

Lemma related_visit_Return value loc :
  related rel_node (visit_Return rec value loc) (visit_Return rec value loc).
Proof.
  unfold visit_Return. rbind. intros p1 p2 Hp.
  rewrite (sim_return_error _ _ Hp).
  eapply related_bind with (RA := @rel_any unit).
  - destruct (return_error p2) as [msg|]; [|apply related_ret; exact I].
    destruct (String.eqb msg ""); [apply related_ret; exact I|].
    apply related_raise.
  - intros _ _ _. eapply related_bind.
    + apply related_modify_self. intros q1 q2 Hq.
      now apply similar_set_returns.
    + intros _ _ _. destruct value; [apply rel_expr | apply related_raise].
Qed.

Lemma related_visit_Assign targets value loc :
  related rel_node (visit_Assign rec targets value loc)
                   (visit_Assign rec targets value loc).
Proof.
  unfold visit_Assign.
  destruct targets as [|targ [|? ?]]; try apply related_raise.
  destruct targ; try apply related_raise.
  - destruct targ; try apply related_raise.
    rbind. intros v1 v2 Hv. rbind. intros b1 b2 Hb. rbind. intros i1 i2 Hi.
    apply related_make_assign. rnode.
  - rbind. intros v1 v2 Hv. now apply related_make_assign.
Qed.

Lemma related_visit_AugAssign target op value loc :
  related rel_node (visit_AugAssign rec target op value loc)
                   (visit_AugAssign rec target op value loc).
Proof.
  unfold visit_AugAssign. destruct target; try apply related_raise.
  rbind. intros a1 a2 Ha. rbind. intros v1 v2 Hv. rbind. intros p1 p2 Hp.
  eapply related_bind.
  { apply related_lift, vt_getitem_similar, (sim_vtrack _ _ Hp). }
  intros s1 s2 Hs. cbv zeta. apply related_make_assign. rnode.
Qed.

Lemma related_visit_FunctionDef name args body decorators loc allow :
  related rel_node
    (visit_FunctionDef rec name args body decorators loc allow)
    (visit_FunctionDef rec name args body decorators loc allow).
Proof.
  unfold visit_FunctionDef.
  destruct (truthy_option (ast.vararg args) || truthy_option (ast.kwarg args));
    [apply related_raise|].
  destruct (truthy_list (ast.kwonlyargs args)); [apply related_raise|].
  destruct (truthy_list (ast.defaults args)
            || truthy_list (ast.kw_defaults args)); [apply related_raise|].
  destruct (negb allow && (0 <? length decorators)%nat);
    [apply related_raise|].
  rbind. intros p1 p2 Hp. cbv zeta. unfold ParseEnv_gen.
  rewrite (sim_env _ _ Hp), (sim_top _ _ Hp).
  eapply related_bind; [now apply related_GenSym_call|]. intros r1 r2 Hr.
  rbind. intros s1 s2 Hs. rewrite !call_make_closure_label.
  eapply related_bind; [apply (related_raise rel_node)|].
  intros c1 c2 Hc. apply related_ret. rnode.
Qed.

Lemma related_mkapply test p1 p2 g1 g2 q1 q2 h1 h2 f1 f2 f1' f2' :
  similar p1 p2 -> rel_groups g1 g2 ->
  similar q1 q2 -> rel_groups h1 h2 ->
  option_map erase_node f1 = option_map erase_node f2 ->
  option_map erase_node f1' = option_map erase_node f2' ->
  related rel_node (mkapply rec test p1 g1 q1 h1 f1 f1')
                   (mkapply rec test p2 g2 q2 h2 f2 f2').
Proof.
  intros Hp Hg Hq Hh Hf Hf'. unfold mkapply.
  eapply related_bind; [now apply related_lift, helper_similar|].
  intros tb1 tb2 Htb.
  eapply related_bind; [now apply related_construct_closure|].
  intros t1 t2 Ht.
  eapply related_bind; [now apply related_lift, helper_similar|].
  intros eb1 eb2 Heb.
  eapply related_bind; [now apply related_construct_closure|].
  intros e1 e2 He.
  rbind. intros c1 c2 Hc. apply related_ret. rnode.
Qed.

Lemma related_visit_If test body orelse loc :
  related rel_node (visit_If rec test body orelse loc)
                   (visit_If rec test body orelse loc).
Proof.
  unfold visit_If. rbind. intros p1 p2 Hp. unfold ParseEnv_gen.
  rewrite (sim_env _ _ Hp).
  assert (Hl : label (dest p1) = label (dest p2))
    by apply rel_sym_label, (sim_dest _ _ Hp).
  eapply related_bind; [now apply related_GenSym_call|]. intros r1 r2 Hr.
  eapply related_bind; [now apply related_prepare_closure|].
  intros t1 t2 Ht.
  eapply related_bind;
    [apply related_on; [exact Ht | apply related_body_wrapper]|].
  intros [g1 b1] [g2 b2] [Hg Hb]. cbn [fst snd] in Hg, Hb. cbv beta iota.
  eapply related_bind; [now apply related_GenSym_call|]. intros r1' r2' Hr'.
  eapply related_bind; [now apply related_prepare_closure|].
  intros t1' t2' Ht'.
  eapply related_bind;
    [apply related_on; [exact Ht' | apply related_body_wrapper]|].
  intros [h1 c1] [h2 c2] [Hh Hc]. cbn [fst snd] in Hh, Hc. cbv beta iota.
  rewrite (sim_returns _ _ Hb), (sim_returns _ _ Hc),
          (sim_assigned _ _ Hb), (sim_assigned _ _ Hc).
  destruct (negb (Bool.eqb (returns b2) (returns c2)));
    [apply related_raise|].
  destruct (negb (name_set_eqb (local_assignments b2) (local_assignments c2)));
    [apply related_raise|].
  destruct (returns b2).
  - eapply related_bind.
    + apply related_modify_self. intros q1 q2 Hq.
      now apply similar_set_returns.
    + intros _ _ _. now apply related_mkapply.
  - cbv zeta.
    assert (Hmulti :
      related rel_node
        (t1 <- lift (map_exn (vt_getitem (vtrack b1))
                             (local_assignments b2)) ;;
         t2 <- lift (map_exn (vt_getitem (vtrack c1))
                             (local_assignments b2)) ;;
         app <- mkapply rec test b1 g1 c1 h1
                        (Some (Tuple (map Sym t1)))
                        (Some (Tuple (map Sym t2))) ;;
         multi_assign (local_assignments b2) app)
        (t1 <- lift (map_exn (vt_getitem (vtrack b2))
                             (local_assignments b2)) ;;
         t2 <- lift (map_exn (vt_getitem (vtrack c2))
                             (local_assignments b2)) ;;
         app <- mkapply rec test b2 g2 c2 h2
                        (Some (Tuple (map Sym t1)))
                        (Some (Tuple (map Sym t2))) ;;
         multi_assign (local_assignments b2) app)).
    { eapply related_bind.
      { apply related_lift, map_vt_getitem_similar, (sim_vtrack _ _ Hb). }
      intros x1 x2 Hx.
      eapply related_bind.
      { apply related_lift, map_vt_getitem_similar, (sim_vtrack _ _ Hc). }
      intros y1 y2 Hy.
      eapply related_bind.
      { apply related_mkapply; auto; cbn; f_equal; f_equal;
          now apply rel_syms_nodes. }
      intros a1 a2 Ha. now apply related_multi_assign. }
    destruct (local_assignments b2) as [|a [|a' l]]; try exact Hmulti.
    eapply related_bind.
    { apply related_lift, vt_getitem_similar, (sim_vtrack _ _ Hb). }
    intros x1 x2 Hx.
    eapply related_bind.
    { apply related_lift, vt_getitem_similar, (sim_vtrack _ _ Hc). }
    intros y1 y2 Hy.
    eapply related_bind.
    { apply related_mkapply; auto; cbn; f_equal; f_equal; assumption. }
    intros a1 a2 Ha. now apply related_make_assign.
Qed.

Lemma related_explore_vars exprs re :
  related eq (explore_vars rec exprs re) (explore_vars rec exprs re).
Proof.
  unfold explore_vars.
  eapply related_bind; [apply related_ParseEnv_new|]. intros e1 e2 He.
  eapply related_bind; [apply related_sub_parser; [exact He | exact I]|].
  intros t1 t2 Ht.
  eapply related_bind.
  { apply related_on with (R := @rel_any (list unit)).
    - now apply similar_set_return_error.
    - eapply related_weaken.
      + apply related_mapM with (R := @rel_any unit). intros [e|l] _.
        * eapply related_bind; [apply rel_expr|]. intros _ _ _.
          apply related_ret. exact I.
        * eapply related_bind; [apply related_body_wrapper|]. intros _ _ _.
          apply related_ret. exact I.
      + intros; exact I. }
  intros [u1 q1] [u2 q2] [_ Hq]. cbn [fst snd] in Hq. cbv beta iota zeta.
  apply related_ret.
  now rewrite (sim_assigned _ _ Hq), (erase_dict_keys _ _ (sim_free _ _ Hq)).
Qed.

Lemma related_visit_While test body :
  related rel_node (visit_While rec test body) (visit_While rec test body).
Proof.
  unfold visit_While. rbind. intros p1 p2 Hp. unfold ParseEnv_gen.
  rewrite (sim_env _ _ Hp).
  assert (Hl : label (dest p1) = label (dest p2))
    by apply rel_sym_label, (sim_dest _ _ Hp).
  eapply related_bind; [now apply related_GenSym_call|]. intros w1 w2 Hw.
  eapply related_bind; [now apply related_GenSym_call|]. intros wb1 wb2 Hwb.
  eapply related_bind; [apply related_explore_vars|]. intros vars ? <-.
  cbv zeta.
  eapply related_bind; [apply related_mapM_visit_variable|].
  intros _ _ _.
  eapply related_bind; [apply related_sub_parser; [exact I | exact Hw]|].
  intros t1 t2 Ht.
  eapply related_bind.
  { apply related_on
      with (R := fun x y : list Symbol * list Symbol * MyiaASTNode
                           * list (bool * list MyiaASTNode) =>
                   rel_syms (fst (fst (fst x))) (fst (fst (fst y)))
                   /\ rel_syms (snd (fst (fst x))) (snd (fst (fst y)))
                   /\ rel_node (snd (fst x)) (snd (fst y))
                   /\ rel_groups (snd x) (snd y)); [exact Ht|].
    eapply related_bind; [apply related_mapM_new_variable|].
    intros s1 s2 Hs. rbind. intros q1 q2 Hq.
    eapply related_bind.
    { apply related_lift, map_vt_getitem_similar, (sim_vtrack _ _ Hq). }
    intros i1 i2 Hi. rbind. intros c1 c2 Hc.
    eapply related_bind; [apply related_body_wrapper|]. intros g1 g2 Hg.
    apply related_ret. cbn. auto. }
  intros [[[[s1 i1] c1] g1] q1] [[[[s2 i2] c2] g2] q2] [(Hs & Hi & Hc & Hg) Hq].
  cbn [fst snd] in Hs, Hi, Hc, Hg, Hq. cbv beta iota zeta.
  eapply related_bind.
  { apply related_lift, map_vt_getitem_similar, (sim_vtrack _ _ Hq). }
  intros n1 n2 Hn.
  eapply related_bind.
  { apply related_lift, helper_similar; [exact Hg|].
    apply rel_syms_nodes in Hn. cbn. f_equal. rnode. }
  intros ib1 ib2 Hib.
  eapply related_bind; [apply related_reg_lambda; exact Hwb|].
  intros f1 f2 Hf.
  eapply related_bind; [apply related_reg_lambda; exact Hw|].
  intros _ _ _. rbind. intros r1 r2 Hr.
  eapply related_bind.
  { apply related_lift, map_vt_getitem_similar, (sim_vtrack _ _ Hr). }
  intros v1 v2 Hv. apply related_multi_assign.
  apply rel_syms_nodes in Hv. rnode.
Qed.

Lemma related_visit_stmt kw s :
  related rel_node (visit_stmt rec kw s) (visit_stmt rec kw s).
Proof.
  unfold visit_stmt. rbind. intros loc ? <-. apply related_stamp.
  destruct s.
  - apply related_visit_FunctionDef.
  - rbind. intros _ _ _. apply related_visit_Return.
  - rbind. intros _ _ _. apply related_visit_Assign.
  - rbind. intros _ _ _. apply related_visit_AugAssign.
  - rbind. intros _ _ _. apply related_visit_While.
  - rbind. intros _ _ _. apply related_visit_If.
  - apply rel_expr.
  - apply related_raise.
Qed.

End Related.

Lemma visit_related fuel :
  (forall e, related rel_node (v_expr (visit fuel) e) (v_expr (visit fuel) e))
  /\ (forall e,
        related rel_node (v_slice (visit fuel) e) (v_slice (visit fuel) e))
  /\ (forall kw s,
        related rel_node (v_stmt (visit fuel) kw s)
                         (v_stmt (visit fuel) kw s)).
Proof.
  induction fuel as [|fuel (He & Hs & Ht)]; cbn [visit v_expr v_slice v_stmt].
  - repeat split; intros; apply related_out_of_fuel.
  - repeat split; intros.
    + now apply related_visit_expr.
    + now apply related_visit_slice.
    + now apply related_visit_stmt.
Qed.

(** Loop-variable discovery gives the same answer, or the same error,
    whatever tokens and tables the world holds. *)
Lemma explore_vars_world_independent fuel exprs re self w1 w2 :
  macros_parametric (macros self) ->
  match explore_vars (visit fuel) exprs re (self, w1),
        explore_vars (visit fuel) exprs re (self, w2) with
  | Ok v1 _, Ok v2 _ => v1 = v2
  | Raise e1, Raise e2 => e1 = e2
  | OutOfFuel, OutOfFuel => True
  | _, _ => False
  end.
Proof.
  intros Hm. destruct (visit_related fuel) as (He & Hs & Ht).
  generalize (related_explore_vars (visit fuel) He Ht exprs re
                self w1 self w2 (similar_refl self Hm)).
  destruct (explore_vars (visit fuel) exprs re (self, w1)) as [v1 [q1 u1]| |],
           (explore_vars (visit fuel) exprs re (self, w2)) as [v2 [q2 u2]| |];
    tauto.
Qed.

Lemma tables_kept_entry_count w w' env :
  env_id env < length (tables w) ->
  tables_kept w w' ->
  entry_count w' env = entry_count w env.
Proof.
  intros Hlt Hk. unfold entry_count.
  destruct (nth_error (tables w) (env_id env)) as [t|] eqn:E.
  - rewrite (nth_error_nth _ _ _ E), (nth_error_nth _ _ _ (Hk _ _ E)).
    reflexivity.
  - apply nth_error_None in E. lia.
Qed.

(** C9: a run of the loop-variable discovery pass that returns leaves the
    translator as it was and the entry count of the shared definition
    table unchanged; run again on the same input, in the world the first
    run left behind, it returns the same [in_] and [out] lists and the
    entry count is unchanged once more.  The macros of the translator are
    assumed not to look at uniqueness tokens. *)
Theorem explore_vars_repeatable :
  forall fuel exprs re self w vars self1 w1,
    macros_parametric (macros self) ->
    env_id (global_env self) < length (tables w) ->
    explore_vars (visit fuel) exprs re (self, w) = Ok vars (self1, w1) ->
    self1 = self
    /\ entry_count w1 (global_env self) = entry_count w (global_env self)
    /\ exists w2,
         explore_vars (visit fuel) exprs re (self1, w1) = Ok vars (self1, w2)
         /\ entry_count w2 (global_env self)
            = entry_count w (global_env self).
Proof.
  intros fuel exprs re self w vars self1 w1 Hm Hlt Hrun.
  destruct (explore_vars_frame _ _ _ _ _ _ _ _ Hrun) as [-> Hk].
  split; [reflexivity|].
  split; [now apply tables_kept_entry_count|].
  generalize (explore_vars_world_independent fuel exprs re self w w1 Hm).
  rewrite Hrun.
  destruct (explore_vars (visit fuel) exprs re (self, w1))
    as [v2 [q2 u2]| |] eqn:E2; try contradiction.
  intros <-. destruct (explore_vars_frame _ _ _ _ _ _ _ _ E2) as [-> Hk2].
  exists u2. split; [reflexivity|].
  apply tables_kept_entry_count; [exact Hlt|].
  eapply tables_kept_trans; eassumption.
Qed.

Lemma explore_vars_repeatable_witness :
  loop_vars = mk_while_vars ["x"; "y"] ["x"; "y"]
  /\ entry_count loop_world genv0 = entry_count world1 genv0
  /\ exists w2,
       explore_vars (visit 4) loop_items None (top_pair, loop_world)
       = Ok loop_vars (top_pair, w2)
       /\ entry_count w2 genv0 = entry_count world1 genv0.
Proof.
  split; [vm_compute; reflexivity|].
  apply (explore_vars_repeatable 4 loop_items None top_pair world1
           loop_vars top_pair loop_world).
  - intros k m [H|[]] a1 a2 Ha. injection H as _ <-.
    unfold pair_macro. cbn [erase_node]. now f_equal.
  - cbn. lia.
  - vm_compute. reflexivity.
Defined.

(** * Further properties of the translator *)

(** ** Scope tracking *)

Lemma get_free_setitem_same t k v :
  get_free (vt_setitem t k v) k = inr (false, v).
Proof.
  destruct t as [par b]. unfold vt_setitem. cbn.
  now rewrite dict_get_set_same.
Qed.

(** X1: after [t[k] = v], looking [k] up in [t] gives [v], found in the
    innermost frame (not free); every other name resolves as it did
    before the assignment. *)
Theorem VariableTracker_setitem_get_free :
  forall t k v k',
    get_free (vt_setitem t k v) k'
    = if String.eqb k' k then inr (false, v) else get_free t k'.
Proof.
  intros t k v k'. destruct (String.eqb_spec k' k) as [->|Hne].
  - apply get_free_setitem_same.
  - now apply get_free_setitem_other.
Qed.

(** X2: [get_free] raises exactly when the name is bound in no frame of
    the chain, and then the exception is the [NameError] naming the
    variable; when it returns, the flag says whether the name is missing
    from the innermost frame. *)
Theorem get_free_outcome :
  forall t name,
    match get_free t name with
    | inl e =>
        bound_in_chain t name = false
        /\ e = NameError ("Undeclared variable: " ++ name)
    | inr (free, _) =>
        bound_in_chain t name = true
        /\ free = negb (dict_mem String.eqb (vt_bindings t) name)
    end.
Proof.
  intros t name. destruct (get_free t name) as [e|[free s]] eqn:E.
  - split; [|now apply get_free_error with (t := t)].
    destruct (bound_in_chain t name) eqn:Hb; [|reflexivity].
    apply bound_in_chain_get_free in Hb. destruct Hb as [r Hr]. congruence.
  - split; [apply bound_in_chain_get_free; eauto|].
    destruct t as [par b]. cbn in *. unfold dict_mem.
    destruct (dict_get String.eqb b name); [now injection E as <- _|].
    destruct par as [par|]; [|discriminate].
    destruct (get_free par name) as [?|[? ?]]; [discriminate|].
    now injection E as <- _.
Qed.

Lemma dict_set_idem {V} (d : list (string * V)) k v :
  dict_set String.eqb (dict_set String.eqb d k v) k v
  = dict_set String.eqb d k v.
Proof.
  induction d as [|[k' v'] d IH]; cbn.
  - now rewrite String.eqb_refl.
  - destruct (String.eqb k k') eqn:E; cbn; rewrite E; [reflexivity|].
    now rewrite IH.
Qed.

(** X3: reading a variable never raises, whatever the scope holds, and
    reading the same name again right away returns the same symbol and
    changes nothing more: the alias pulled for a free variable, or the
    entry recorded in [free_variables], is made once. *)
Theorem visit_variable_idempotent :
  forall name self w,
  exists v self' w',
    visit_variable name (self, w) = Ok v (self', w')
    /\ visit_variable name (self', w') = Ok v (self', w').
Proof.
  intros name self w. unfold visit_variable, bind, get_self. cbn [fst].
  destruct (get_free (vtrack self) name) as [e|[free s]] eqn:E.
  - rewrite (get_free_error _ _ _ E). do 3 eexists. split; [reflexivity|].
    cbn [fst]. rewrite E, (get_free_error _ _ _ E). reflexivity.
  - destruct free.
    + destruct (pull_free_variables self) eqn:Hpull.
      * cbn. do 3 eexists. split; [reflexivity|]. cbn [fst].
        cbn [vtrack set_free_variables set_vtrack].
        rewrite get_free_setitem_same. reflexivity.
      * cbn. do 3 eexists. split; [reflexivity|]. cbn.
        rewrite E, Hpull. cbn. now rewrite dict_set_idem.
    + do 3 eexists. split; [reflexivity|]. cbn [fst]. now rewrite E.
Qed.

(** ** Assembling a body *)

Lemma group_contiguous_well_grouped l :
  well_grouped (group_contiguous l is_Assign).
Proof.
  induction l as [|x l IH]; cbn; [constructor|].
  destruct (group_contiguous l is_Assign) as [|[b grp] gs].
  - constructor; [|constructor]. cbn.
    split; [discriminate | repeat constructor].
  - inversion IH as [|? ? [Hne Hall] Hgs]; subst. cbn in Hne, Hall.
    destruct (Bool.eqb (is_Assign x) b) eqn:E.
    + apply Bool.eqb_prop in E. constructor; [|exact Hgs]. cbn.
      split; [discriminate | now constructor].
    + constructor; [|exact IH]. cbn.
      split; [discriminate | repeat constructor].
Qed.

Lemma group_contiguous_nonempty l :
  l <> [] -> group_contiguous l is_Assign <> [].
Proof.
  destruct l as [|x l]; [congruence|]. intros _. cbn.
  destruct (group_contiguous l is_Assign) as [|[b grp] gs]; [discriminate|].
  destruct (Bool.eqb (is_Assign x) b); discriminate.
Qed.

Lemma group_contiguous_last l d dg :
  l <> [] ->
  last (snd (last (group_contiguous l is_Assign) dg)) d = last l d.
Proof.
  induction l as [|x l IH]; [congruence|]. intros _.
  destruct l as [|y l]; [reflexivity|].
  assert (Hne : y :: l <> []) by discriminate.
  specialize (IH Hne). pose proof (group_contiguous_nonempty (y :: l) Hne) as Hg.
  pose proof (group_contiguous_well_grouped (y :: l)) as Hw.
  change (group_contiguous (x :: y :: l) is_Assign)
    with (match group_contiguous (y :: l) is_Assign with
          | (b, grp) :: gs =>
              if Bool.eqb (is_Assign x) b then (b, x :: grp) :: gs
              else (is_Assign x, [x]) :: (b, grp) :: gs
          | [] => [(is_Assign x, [x])]
          end).
  change (last (x :: y :: l) d) with (last (y :: l) d).
  destruct (group_contiguous (y :: l) is_Assign) as [|[b grp] gs];
    [congruence|].
  inversion Hw as [|? ? [Hgrp _] _]; subst. cbn in Hgrp.
  destruct (Bool.eqb (is_Assign x) b).
  - destruct gs as [|g gs]; [|exact IH].
    cbn [last snd] in *. destruct grp; [congruence | exact IH].
  - exact IH.
Qed.

Lemma assign_binding_total grp :
  Forall (fun x => is_Assign x = true) grp ->
  exists bs, map_exn assign_binding grp = inr bs.
Proof.
  induction 1 as [|x grp Hx _ [bs IH]]; cbn; [eauto|].
  destruct x; try discriminate. cbn. rewrite IH. eauto.
Qed.

Lemma last_default {A} (l : list A) d d' :
  l <> [] -> last l d = last l d'.
Proof.
  induction l as [|x l IH]; [congruence|]. intros _.
  destruct l as [|y l]; [reflexivity|]. apply IH. discriminate.
Qed.

Lemma helper_well_grouped groups result dg d :
  well_grouped groups -> groups <> [] ->
  match result, fst (last groups dg) with
  | None, true =>
      helper groups result
      = inl (MyiaSyntaxError
               (node_location (last (snd (last groups dg)) d))
               "Missing return statement.")
  | _, _ => exists n, helper groups result = inr n
  end.
Proof.
  induction groups as [|[isass grp] rest IH]; [congruence|].
  intros Hw _. inversion Hw as [|? ? [Hne Hall] Hrest]; subst.
  cbn [fst snd] in Hne, Hall.
  destruct rest as [|g rest].
  - cbn [last fst snd helper]. destruct isass.
    + destruct (assign_binding_total grp Hall) as [bs ->].
      destruct result; [eauto|].
      destruct grp as [|x grp]; [congruence|].
      f_equal. f_equal. f_equal. now apply last_default.
    + destruct result; destruct grp as [|x [|y grp]]; eauto.
  - assert (Hg : g :: rest <> []) by discriminate.
    specialize (IH Hrest Hg). rewrite helper_cons_cons.
    change (last ((isass, grp) :: g :: rest) dg) with (last (g :: rest) dg).
    destruct isass.
    + destruct (assign_binding_total grp Hall) as [bs ->].
      destruct result, (fst (last (g :: rest) dg));
        first [ rewrite IH; reflexivity | destruct IH as [n ->]; eauto ].
    + destruct result, (fst (last (g :: rest) dg));
        first [ rewrite IH; reflexivity | destruct IH as [n ->]; eauto ].
Qed.

Lemma group_contiguous_last_key l d dg :
  l <> [] ->
  fst (last (group_contiguous l is_Assign) dg) = is_Assign (last l d).
Proof.
  intros Hne.
  pose proof (group_contiguous_well_grouped l) as Hw.
  pose proof (group_contiguous_nonempty l Hne) as Hg.
  rewrite <- (group_contiguous_last l d dg Hne).
  assert (Hin : In (last (group_contiguous l is_Assign) dg)
                   (group_contiguous l is_Assign)).
  { destruct (exists_last Hg) as (l' & a & ->). rewrite last_last.
    apply in_or_app. right. now left. }
  unfold well_grouped in Hw. rewrite Forall_forall in Hw.
  destruct (Hw _ Hin) as [Hn Hall]. rewrite Forall_forall in Hall.
  symmetry. apply Hall.
  destruct (exists_last Hn) as (l' & a & ->). rewrite last_last.
  apply in_or_app. right. now left.
Qed.

(** X4: the nodes of a body are grouped with [group_contiguous] and
    folded by [helper].  With no final result given, a body that ends in
    an assignment is rejected with the syntax error "Missing return
    statement." located at that assignment; a body that ends in anything
    else is folded into a node.  With a final result given, every
    non-empty body is folded into a node; in particular the attribute
    reads [a.varname] and [a.value] never fail. *)
Theorem helper_missing_return :
  forall results d,
    results <> [] ->
    (forall result,
       exists n,
         helper (group_contiguous results is_Assign) (Some result) = inr n)
    /\ if is_Assign (last results d)
       then helper (group_contiguous results is_Assign) None
            = inl (MyiaSyntaxError (node_location (last results d))
                                   "Missing return statement.")
       else exists n,
            helper (group_contiguous results is_Assign) None = inr n.
Proof.
  intros results d Hne.
  pose proof (group_contiguous_well_grouped results) as Hw.
  pose proof (group_contiguous_nonempty results Hne) as Hg.
  split.
  - intros result.
    exact (helper_well_grouped _ (Some result) (false, []) d Hw Hg).
  - pose proof (helper_well_grouped _ None (false, []) d Hw Hg) as H.
    cbv beta iota in H.
    rewrite (group_contiguous_last_key results d _ Hne) in H.
    rewrite (group_contiguous_last results d _ Hne) in H.
    destruct (is_Assign (last results d)); exact H.
Qed.

Lemma helper_missing_return_witness :
  (forall result,
     exists n,
       helper (group_contiguous
                 [Value (ast.CNum 1); _Assign sym_x (Value (ast.CNum 2)) None]
                 is_Assign) (Some result) = inr n)
  /\ helper (group_contiguous
               [Value (ast.CNum 1); _Assign sym_x (Value (ast.CNum 2)) None]
               is_Assign) None
     = inl (MyiaSyntaxError None "Missing return statement.").
Proof.
  apply (helper_missing_return
           [Value (ast.CNum 1); _Assign sym_x (Value (ast.CNum 2)) None]
           (Tuple [])).
  discriminate.
Defined.

(** ** Statements that are turned away *)

(** X5: once the translator has seen a [return], the next statement of
    the body is still translated, and if that succeeds the body is
    rejected with the syntax error "There should be no statements after
    return."; whatever follows is never looked at. *)
Theorem body_wrapper_after_return :
  forall rec st rest self w r s',
    returns self = true ->
    v_stmt rec None st (self, w) = Ok r s' ->
    exists loc,
      body_wrapper rec (st :: rest) (self, w)
      = Raise (MyiaSyntaxError loc
                 "There should be no statements after return.").
Proof.
  intros rec st rest self w r s' Hret Hst.
  unfold body_wrapper, bind. cbn [body_loop]. unfold bind, get_self.
  cbn [fst]. rewrite Hst, Hret. destruct s'. cbn. eauto.
Qed.

Lemma body_wrapper_after_return_witness :
  exists loc,
    body_wrapper (visit 2) [assign "a" 1; while_return]
                 (set_returns top0 true, world0)
    = Raise (MyiaSyntaxError loc
               "There should be no statements after return.").
Proof.
  exact (body_wrapper_after_return (visit 2) (assign "a" 1) [while_return]
           (set_returns top0 true) world0 assign_a_node assign_a_state
           eq_refl eq_refl).
Defined.

(** X6: an assignment whose one target is a tuple, a subscript of
    anything but a plain name, or an expression that is neither a name, a
    subscript nor a tuple is rejected with a syntax error before its
    right-hand side is translated; an assignment with several targets
    fails on unpacking the target list. *)
Theorem visit_Assign_rejects :
  forall fuel pos tpos value s,
    (forall elts,
       v_stmt (visit (S fuel)) None
              (ast.Assign pos [ast.Tuple tpos elts] value) s
       = Raise (MyiaSyntaxError (Locator_call (locator (fst s)) pos)
                  "Deconstructing assignment is not supported."))
    /\ (forall base sl,
          is_Name base = false ->
          v_stmt (visit (S fuel)) None
                 (ast.Assign pos [ast.Subscript tpos base sl] value) s
          = Raise (MyiaSyntaxError (Locator_call (locator (fst s)) pos)
                     "You can only set a slice on a variable."))
    /\ (forall targ,
          is_Name targ = false -> is_Subscript targ = false ->
          is_Tuple targ = false ->
          exists msg,
            v_stmt (visit (S fuel)) None (ast.Assign pos [targ] value) s
            = Raise (MyiaSyntaxError (Locator_call (locator (fst s)) pos)
                                     msg))
    /\ (forall t1 t2 ts,
          v_stmt (visit (S fuel)) None
                 (ast.Assign pos (t1 :: t2 :: ts) value) s
          = Raise (ValueError "too many values to unpack (expected 1)")).
Proof.
  intros fuel pos tpos value [p w].
  split; [intros; reflexivity|]. split; [|split; [|intros; reflexivity]].
  - intros base sl Hb. destruct base; try discriminate; reflexivity.
  - intros targ Hn Hs Ht.
    destruct targ; try discriminate; eexists; reflexivity.
Qed.

Lemma visit_Assign_rejects_witness :
  v_stmt (visit 1) None
         (ast.Assign pos0
            [ast.Subscript pos0
               (ast.Subscript pos0 (ast.Name pos0 "v")
                              (ast.Index (ast.Num pos0 0)))
               (ast.Index (ast.Num pos0 1))]
            (ast.Num pos0 2))
         (top0, world0)
  = Raise (MyiaSyntaxError (Locator_call (locator top0) pos0)
             "You can only set a slice on a variable.")
  /\ exists msg,
       v_stmt (visit 1) None
              (ast.Assign pos0 [ast.Attribute pos0 (ast.Name pos0 "v") "f"]
                          (ast.Num pos0 2))
              (top0, world0)
       = Raise (MyiaSyntaxError (Locator_call (locator top0) pos0) msg).
Proof.
  split.
  - exact (proj1 (proj2 (visit_Assign_rejects 0 pos0 pos0 (ast.Num pos0 2)
                           (top0, world0)))
                 (ast.Subscript pos0 (ast.Name pos0 "v")
                                (ast.Index (ast.Num pos0 0)))
                 (ast.Index (ast.Num pos0 1)) eq_refl).
  - exact (proj1 (proj2 (proj2 (visit_Assign_rejects
                                  0 pos0 pos0 (ast.Num pos0 2)
                                  (top0, world0))))
                 (ast.Attribute pos0 (ast.Name pos0 "v") "f")
                 eq_refl eq_refl eq_refl).
Defined.

(** X7: [visit_Module] hands its keyword [allow_decorator] to the method
    of every statement; the methods for [return], assignments, [while]
    and [if] take no keyword, so a unit that starts with one of them
    fails with a [TypeError], before anything is translated. *)
Theorem visit_Module_keywordless_statement :
  forall fuel st rest allow s,
    takes_no_keyword st = true ->
    exists msg,
      visit_Module (visit (S fuel)) (ast.Module (st :: rest)) allow s
      = Raise (TypeError msg).
Proof.
  intros fuel st rest allow [p w] H.
  destruct st; cbn in H; try discriminate; eexists; reflexivity.
Qed.

Lemma visit_Module_keywordless_statement_witness :
  exists msg,
    visit_Module (visit 1) (ast.Module [assign "a" 1; def_f]) true
                 (top0, world0)
    = Raise (TypeError msg).
Proof.
  exact (visit_Module_keywordless_statement 0 (assign "a" 1) [def_f] true
           (top0, world0) eq_refl).
Defined.

(** X8: a node whose class has no [visit_*] method is rejected by the
    dispatcher with a syntax error that names the class and carries the
    node's position shifted by the locator's line offset. *)
Theorem visit_unrecognized_node :
  forall fuel pos cls kw self w,
    let loc := Some (mkLocation (loc_url (locator self))
                       (ast.lineno pos + line_offset (locator self) - 1)
                       (ast.col_offset pos)) in
    v_expr (visit (S fuel)) (ast.OtherExpr pos cls) (self, w)
    = Raise (MyiaSyntaxError loc
               ("Unrecognized Python AST node type: " ++ cls))
    /\ v_stmt (visit (S fuel)) kw (ast.OtherStmt pos cls) (self, w)
       = Raise (MyiaSyntaxError loc
                  ("Unrecognized Python AST node type: " ++ cls)).
Proof. intros. split; reflexivity. Qed.

(** X9: a comparison with no operator or with a chain of two or more is
    rejected before any operand is translated; a call with keyword
    arguments is rejected before any argument is translated. *)
Theorem visit_expr_rejects :
  forall fuel pos s,
    (forall left ops comparators,
       length ops <> 1 ->
       v_expr (visit (S fuel)) (ast.Compare pos left ops comparators) s
       = Raise (MyiaSyntaxError (Locator_call (locator (fst s)) pos)
                  "Comparisons must have a maximum of two operands"))
    /\ (forall func args kw kws,
          v_expr (visit (S fuel)) (ast.Call pos func args (kw :: kws)) s
          = Raise (MyiaSyntaxError (Locator_call (locator (fst s)) pos)
                     "Keyword arguments are not allowed.")).
Proof.
  intros fuel pos [p w]. split.
  - intros left ops comparators H.
    destruct ops as [|op [|op' ops]]; cbn in H; try congruence; reflexivity.
  - intros. reflexivity.
Qed.

Lemma visit_expr_rejects_witness :
  v_expr (visit 1)
         (ast.Compare pos0 (ast.Num pos0 1) [ast.Lt; ast.Lt]
                      [ast.Num pos0 2; ast.Num pos0 3])
         (top0, world0)
  = Raise (MyiaSyntaxError (Some (mkLocation "f.py" 1 0))
             "Comparisons must have a maximum of two operands").
Proof.
  apply (proj1 (visit_expr_rejects 0 pos0 (top0, world0))).
  cbn. lia.
Defined.

(** X10: when the discovery pass is given a non-empty [return_error]
    message, a body that starts with a [return] is rejected with exactly
    that message at the position of the [return], whatever the translator
    calling the pass was set up with. *)
Theorem explore_vars_return_error :
  forall fuel pos value rest msg self w,
    String.eqb msg "" = false ->
    explore_vars (visit (S fuel))
                 [ExploreStmts (ast.Return pos value :: rest)]
                 (Some msg) (self, w)
    = Raise (MyiaSyntaxError (Locator_call (locator self) pos) msg).
Proof.
  intros fuel pos value rest msg self w Hmsg.
  unfold explore_vars, bind, ParseEnv_new, sub_parser, Parser_init, bind,
    get_self, GenSym_call, ret, on. cbn [fst snd mapM].
  unfold bind, body_wrapper, bind. cbn [body_loop]. unfold bind, get_self.
  cbn [fst snd visit v_stmt]. unfold visit_stmt, bind, make_location, bind,
    get_self, ret. cbn [fst snd no_kwargs]. unfold ret, visit_Return, bind,
    get_self. cbn [fst snd return_error set_return_error set_vtrack].
  rewrite Hmsg. reflexivity.
Qed.

Lemma explore_vars_return_error_witness :
  explore_vars (visit 1)
               [ExploreStmts [ast.Return pos0 (Some (ast.Num pos0 1))]]
               (Some "no return in a loop") (top0, world0)
  = Raise (MyiaSyntaxError (Some (mkLocation "f.py" 1 0))
                           "no return in a loop").
Proof.
  exact (explore_vars_return_error 0 pos0 (Some (ast.Num pos0 1)) []
           "no return in a loop" top0 world0 eq_refl).
Defined.

(** ** The world only grows *)

Lemma dict_mem_set_any {K V} (eqb : K -> K -> bool) (d : list (K * V)) k v n :
  dict_mem eqb d n = true -> dict_mem eqb (dict_set eqb d k v) n = true.
Proof.
  unfold dict_mem. induction d as [|[k' v'] d IH]; cbn; [discriminate|].
  destruct (eqb k k'); cbn; destruct (eqb n k'); auto.
Qed.

Lemma dict_set_length_mem {K V} (eqb : K -> K -> bool) (d : list (K * V)) k v :
  dict_mem eqb d k = true -> length (dict_set eqb d k v) = length d.
Proof.
  unfold dict_mem. induction d as [|[k' v'] d IH]; cbn; [discriminate|].
  destruct (eqb k k'); cbn; auto.
Qed.

Lemma nth_error_update_nth {A} (f : A -> A) n :
  forall l i,
    nth_error (update_nth n f l) i
    = if Nat.eqb i n then option_map f (nth_error l i) else nth_error l i.
Proof.
  induction n as [|n IH]; intros [|x l] [|i]; cbn; try reflexivity.
  - now destruct (Nat.eqb i n).
  - apply IH.
Qed.

Lemma update_nth_length {A} (f : A -> A) n :
  forall l, length (update_nth n f l) = length l.
Proof.
  induction n as [|n IH]; intros [|x l]; cbn; auto.
Qed.

Lemma table_keys_kept_refl t : table_keys_kept t t.
Proof. intros k H. exact H. Qed.

Lemma world_grows_refl w : world_grows w w.
Proof.
  split; [lia|]. intros i t H. exists t. split; [exact H|].
  apply table_keys_kept_refl.
Qed.

Lemma world_grows_trans a b c :
  world_grows a b -> world_grows b c -> world_grows a c.
Proof.
  intros [Hs1 Ht1] [Hs2 Ht2]. split; [lia|]. intros i t H.
  destruct (Ht1 i t H) as (t1 & H1 & K1).
  destruct (Ht2 i t1 H1) as (t2 & H2 & K2).
  exists t2. split; [exact H2|]. intros k Hk. apply K2, K1, Hk.
Qed.

Lemma world_grows_supply w n :
  supply w <= n -> world_grows w (mkWorld n (tables w)).
Proof.
  intros Hn. split; [exact Hn|]. intros i t H. exists t.
  split; [exact H | apply table_keys_kept_refl].
Qed.

Lemma world_grows_new w :
  world_grows w (mkWorld (supply w) (tables w ++ [[]])).
Proof.
  split; [cbn; lia|]. intros i t H. exists t. cbn.
  split; [|apply table_keys_kept_refl].
  rewrite nth_error_app1; [exact H|]. apply nth_error_Some. congruence.
Qed.

Lemma world_grows_setitem w n ref l :
  world_grows w (mkWorld (supply w)
                         (update_nth n (fun t => dict_set symbol_eqb t ref l)
                                     (tables w))).
Proof.
  split; [cbn; lia|]. intros i t H. cbn. rewrite nth_error_update_nth, H.
  destruct (Nat.eqb i n); cbn.
  - eexists. split; [reflexivity|]. intros k Hk. now apply dict_mem_set_any.
  - exists t. split; [reflexivity | apply table_keys_kept_refl].
Qed.

Ltac grows_result :=
  split; [exact I|]; split; [|exact I].

Lemma grows_GenSym_call g s rel : grows (GenSym_call g s rel) any.
Proof.
  intros p w _. cbn. grows_result.
  apply (world_grows_supply w (S (supply w))). lia.
Qed.

Lemma grows_ParseEnv_new ns : grows (ParseEnv_new ns) any.
Proof. intros p w _. cbn. grows_result. apply world_grows_new. Qed.

Lemma grows_reg_lambda ref args body : grows (reg_lambda ref args body) any.
Proof.
  intros p w _. unfold reg_lambda, bind, get_self. cbn [fst].
  destruct (dry p); cbn; grows_result.
  - apply world_grows_refl.
  - apply world_grows_setitem.
Qed.

Lemma grows_new_variable n : grows (new_variable n) any.
Proof.
  intros p w _. cbn. grows_result.
  apply (world_grows_supply w (S (supply w))). lia.
Qed.

Lemma grows_make_assign n v l : grows (make_assign n v l) any.
Proof.
  intros p w _. cbn. grows_result.
  apply (world_grows_supply w (S (supply w))). lia.
Qed.

Lemma grows_visit_variable n : grows (visit_variable n) any.
Proof.
  intros p w _. unfold visit_variable, bind, get_self. cbn [fst].
  destruct (get_free (vtrack p) n) as [e|[[] s]].
  - destruct e; cbn; auto. grows_result. apply world_grows_refl.
  - destruct (pull_free_variables p); cbn; grows_result.
    + apply (world_grows_supply w (S (supply w))). lia.
    + apply world_grows_refl.
  - cbn. grows_result. apply world_grows_refl.
Qed.

Lemma grows_set_returns :
  grows (modify_self (fun p => set_returns p true)) any.
Proof. intros p w _. cbn. grows_result. apply world_grows_refl. Qed.

Lemma grows_sub_parser ge kd kp kdest :
  grows (sub_parser ge kd kp kdest) (fun _ => True).
Proof.
  intros p w _. unfold sub_parser, Parser_init, bind, get_self. cbn [fst].
  destruct kdest; cbn; grows_result.
  - apply world_grows_refl.
  - apply (world_grows_supply w (S (supply w))). lia.
Qed.

Ltac grows_steps :=
  first [ apply world_grows_refl
        | apply world_grows_trans
        | apply grows_GenSym_call | apply grows_ParseEnv_new
        | apply grows_reg_lambda | apply grows_new_variable
        | apply grows_make_assign | apply grows_visit_variable
        | apply grows_set_returns
        | intros; apply grows_sub_parser
        | intros; exact I ].

(** X11: translating a statement never hands out a token twice and never
    drops a definition: afterwards the token supply is at least what it
    was, every table that existed is still at its index, and it still has
    every key it had. *)
Theorem translation_world_grows :
  forall fuel kw st self w r self' w',
    v_stmt (visit fuel) kw st (self, w) = Ok r (self', w') ->
    world_grows w w'.
Proof.
  intros fuel kw st self w r self' w' H.
  assert (S : grows (v_stmt (visit fuel) kw st) any)
    by (apply visit_sound_stmt; grows_steps).
  specialize (S self w I). rewrite H in S. apply S.
Qed.

Lemma translation_world_grows_witness : world_grows world0 (snd lambda_state).
Proof.
  exact (translation_world_grows 3 None lambda_stmt top0 world0
           lambda_node (fst lambda_state) (snd lambda_state) eq_refl).
Defined.

(** X12: a dry translator writes to no table, whatever statement it
    translates: it is still dry afterwards and every table that existed
    holds exactly what it held. *)
Theorem dry_translation_writes_nothing :
  forall fuel kw st self w r self' w',
    dry self = true ->
    v_stmt (visit fuel) kw st (self, w) = Ok r (self', w') ->
    dry self' = true /\ tables_kept w w'.
Proof.
  intros fuel kw st self w r self' w' Hd H.
  pose proof (dry_stmt fuel kw st self w Hd) as S. rewrite H in S.
  destruct S as (Hd' & Hk & _). auto.
Qed.

Lemma dry_translation_writes_nothing_witness :
  dry (fst lambda_dry_state) = true
  /\ tables_kept world0 (snd lambda_dry_state).
Proof.
  exact (dry_translation_writes_nothing 3 None lambda_stmt top_dry world0
           lambda_dry_node (fst lambda_dry_state) (snd lambda_dry_state)
           eq_refl eq_refl).
Defined.

(** X13: what a statement translates to does not depend on the world it
    is translated in: from the same translator, in any two worlds, the
    translation raises the same exception or returns nodes that differ
    only in uniqueness tokens, with the same assigned names and the same
    return flag.  The macros of the translator are assumed not to look at
    uniqueness tokens. *)
Theorem translation_token_independent :
  forall fuel kw st self w1 w2,
    macros_parametric (macros self) ->
    match v_stmt (visit fuel) kw st (self, w1),
          v_stmt (visit fuel) kw st (self, w2) with
    | Ok r1 (p1, _), Ok r2 (p2, _) =>
        erase_node r1 = erase_node r2
        /\ local_assignments p1 = local_assignments p2
        /\ returns p1 = returns p2
    | Raise e1, Raise e2 => e1 = e2
    | OutOfFuel, OutOfFuel => True
    | _, _ => False
    end.
Proof.
  intros fuel kw st self w1 w2 Hm.
  destruct (visit_related fuel) as (_ & _ & Ht).
  generalize (Ht kw st self w1 self w2 (similar_refl self Hm)).
  destruct (v_stmt (visit fuel) kw st (self, w1)) as [r1 [p1 u1]| |],
           (v_stmt (visit fuel) kw st (self, w2)) as [r2 [p2 u2]| |];
    try tauto.
  intros [Hr Hp]. split; [exact Hr|].
  split; [apply (sim_assigned _ _ Hp) | apply (sim_returns _ _ Hp)].
Qed.

Lemma translation_token_independent_witness :
  match v_stmt (visit 3) None if_two_names (top_pair, world0),
        v_stmt (visit 3) None if_two_names (top_pair, world1) with
  | Ok r1 (p1, _), Ok r2 (p2, _) =>
      erase_node r1 = erase_node r2
      /\ local_assignments p1 = local_assignments p2
      /\ returns p1 = returns p2
  | Raise e1, Raise e2 => e1 = e2
  | OutOfFuel, OutOfFuel => True
  | _, _ => False
  end.
Proof.
  apply (translation_token_independent 3 None if_two_names top_pair
           world0 world1).
  intros k m [H|[]] a1 a2 Ha. injection H as _ <-.
  unfold pair_macro. cbn [erase_node]. now f_equal.
Defined.

(** X14: every name the translator records as locally assigned can be
    looked up in its own innermost frame, so reading it back never raises
    and never counts as a free variable; translating a statement keeps
    this true. *)
Theorem assigned_names_resolve :
  forall fuel kw st self w r self' w',
    assigned_bound self ->
    v_stmt (visit fuel) kw st (self, w) = Ok r (self', w') ->
    forall n, In n (local_assignments self') ->
      exists s, get_free (vtrack self') n = inr (false, s).
Proof.
  intros fuel kw st self w r self' w' Hb H n Hn.
  pose proof (assigned_bound_stmt fuel kw st self w Hb) as S.
  rewrite H in S. destruct S as (Hb' & _ & _).
  specialize (Hb' n Hn). unfold dict_mem in Hb'.
  destruct (vtrack self') as [par b]. cbn in *.
  destruct (dict_get String.eqb b n) as [s|]; [eauto | discriminate].
Qed.

Lemma assigned_names_resolve_witness :
  local_assignments (fst if_two_names_state) = ["a"; "b"]
  /\ forall n, In n (local_assignments (fst if_two_names_state)) ->
       exists s, get_free (vtrack (fst if_two_names_state)) n = inr (false, s).
Proof.
  split; [reflexivity|].
  apply (assigned_names_resolve 3 None if_two_names top0 world0
           if_two_names_node (fst if_two_names_state)
           (snd if_two_names_state)).
  - intros n [].
  - reflexivity.
Defined.

(** X16: the translator prepared for the body of a named closure pulls
    free variables, starts with none recorded, and resolves the closure's
    own name to the closure's reference without recording it as a free
    variable, so a recursive call inside the body captures nothing. *)
Theorem prepare_closure_binds_own_name :
  forall name ref self w,
  exists p w',
    prepare_closure (Some name) (Some ref) (self, w) = Ok p (self, w')
    /\ pull_free_variables p = true
    /\ dest p = ref
    /\ free_variables p = []
    /\ visit_variable name (p, w') = Ok ref (p, w').
Proof.
  intros name ref self w.
  unfold prepare_closure, sub_parser, Parser_init, bind, get_self, ret.
  cbn [fst snd]. do 2 eexists. split; [reflexivity|].
  repeat split. unfold visit_variable, bind, get_self. cbn [fst].
  cbn [vtrack set_vtrack]. rewrite get_free_setitem_same. reflexivity.
Qed.

(** ** Loop discovery *)

Lemma fold_left_name_add_In n l :
  forall ks, In n l \/ In n ks -> In n (fold_left name_add l ks).
Proof.
  induction l as [|x l IH]; intros ks [H|H]; cbn; try contradiction; auto.
  - apply IH. destruct H as [->|H]; [right | left; exact H].
    unfold name_add. destruct (name_mem n ks) eqn:E.
    + now apply name_mem_In.
    + apply in_or_app. right. now left.
  - apply IH. right. unfold name_add. destruct (name_mem x ks); [exact H|].
    apply in_or_app. now left.
Qed.

(** X17: every name the discovery pass reports as written by the loop is
    also reported as one of its inputs, so the loop function's parameters
    cover everything it hands back. *)
Theorem explore_vars_out_subset_in :
  forall rec exprs re s vars s',
    explore_vars rec exprs re s = Ok vars s' ->
    forall n, In n (out vars) -> In n (in_ vars).
Proof.
  intros rec exprs re s vars s' H n Hn. unfold explore_vars in H.
  do 3 bind_inv H. destruct a1 as [u testp]. unfold ret in H.
  injection H as <- _. cbn [in_ out] in *.
  apply fold_left_name_add_In. now left.
Qed.

Lemma explore_vars_out_subset_in_witness :
  In "y" (out loop_vars) /\ In "y" (in_ loop_vars).
Proof.
  assert (H : In "y" (out loop_vars)) by (cbn; auto).
  split; [exact H|].
  exact (explore_vars_out_subset_in (visit 4) loop_items None
           (top_pair, world1) loop_vars (top_pair, loop_world) eq_refl
           "y" H).
Defined.

(** ** What a translator inherits *)

Lemma inherits_prim {A} (self : Parser) (m : M A) :
  (forall p w, exists a p' w',
      m (p, w) = Ok a (p', w')
      /\ macros p' = macros p /\ locator p' = locator p) ->
  keeps_inherited self m any.
Proof.
  intros H p w [Hm Hl]. destruct (H p w) as (a & p' & w' & -> & Hm' & Hl').
  split; [|split; exact I]. split; congruence.
Qed.

Lemma inherits_visit_variable self n :
  keeps_inherited self (visit_variable n) any.
Proof.
  apply inherits_prim. intros p w.
  unfold visit_variable, bind, get_self. cbn [fst].
  destruct (get_free (vtrack p) n) as [e|[[] s]] eqn:E.
  - rewrite (get_free_error _ _ _ E). eauto 7.
  - destruct (pull_free_variables p); cbn; eauto 7.
  - eauto 7.
Qed.

Lemma inherits_reg_lambda self ref args body :
  keeps_inherited self (reg_lambda ref args body) any.
Proof.
  apply inherits_prim. intros p w. unfold reg_lambda, bind, get_self.
  cbn [fst]. destruct (dry p); cbn; eauto 7.
Qed.

Lemma inherits_sub_parser self ge kd kp kdest :
  keeps_inherited self (sub_parser ge kd kp kdest) (inherits self).
Proof.
  intros p w [Hm Hl]. unfold sub_parser, Parser_init, bind, get_self.
  cbn [fst]. destruct kdest; cbn; repeat split; auto.
Qed.

Ltac inherits_steps :=
  first [ apply inherits_visit_variable | apply inherits_reg_lambda
        | intros; apply inherits_sub_parser
        | intros; apply inherits_prim; intros; cbn; do 3 eexists;
          repeat split; fail
        | intros; match goal with H : inherits _ _ |- _ =>
                    destruct H; split; assumption end
        | intros; exact I ].

Lemma inherits_expr self fuel e :
  keeps_inherited self (v_expr (visit fuel) e) any.
Proof. apply visit_sound_expr; inherits_steps. Qed.

Lemma inherits_stmt self fuel kw st :
  keeps_inherited self (v_stmt (visit fuel) kw st) any.
Proof. apply visit_sound_stmt; inherits_steps. Qed.

Lemma inherits_mapM_expr self fuel l :
  keeps_inherited self (mapM (v_expr (visit fuel)) l) any.
Proof.
  apply sound_mapM; try (intros; exact I). intros a. apply inherits_expr.
Qed.

(** X18: translating a statement never changes the macro table or the
    locator of the translator, and every translator made on the way, by
    [sub_parser] whatever its arguments, starts with the macro table and
    the locator of the translator that makes it. *)
Theorem translation_keeps_macros_and_locator :
  (forall fuel kw st self w r self' w',
      v_stmt (visit fuel) kw st (self, w) = Ok r (self', w') ->
      macros self' = macros self /\ locator self' = locator self)
  /\ (forall ge kd kp kdest self w,
         exists p w',
           sub_parser ge kd kp kdest (self, w) = Ok p (self, w')
           /\ macros p = macros self /\ locator p = locator self).
Proof.
  split.
  - intros fuel kw st self w r self' w' H.
    pose proof (inherits_stmt self fuel kw st self w (conj eq_refl eq_refl))
      as S.
    rewrite H in S. apply S.
  - intros ge kd kp kdest self w.
    unfold sub_parser, Parser_init, bind, get_self. cbn [fst].
    destruct kdest; cbn; do 2 eexists; repeat split; reflexivity.
Qed.

Lemma translation_keeps_macros_and_locator_witness :
  macros (fst if_two_names_state) = macros top0
  /\ locator (fst if_two_names_state) = locator top0.
Proof.
  exact (proj1 translation_keeps_macros_and_locator 3 None if_two_names top0
           world0 if_two_names_node (fst if_two_names_state)
           (snd if_two_names_state) eq_refl).
Defined.

(** X19: a call whose callee is a plain name found in the macro table is
    expanded by the macro: the arguments are translated, in order, the
    macro is applied to the resulting nodes (the dispatcher attaching the
    location of the call to what it returns), and the callee name itself
    is never translated, so it is neither looked up in the scope nor
    recorded as a free variable. *)
Theorem visit_Call_macro :
  forall fuel pos fpos id args m self w r self' w',
    dict_get String.eqb (macros self) id = Some m ->
    v_expr (visit (S fuel)) (ast.Call pos (ast.Name fpos id) args [])
           (self, w)
    = Ok r (self', w') ->
    exists nodes,
      mapM (v_expr (visit fuel)) args (self, w) = Ok nodes (self', w')
      /\ r = at_ (m nodes) (Locator_call (locator self) pos).
Proof.
  intros fuel pos fpos id args m self w r self' w' Hm H.
  cbn [visit v_expr] in H. unfold visit_expr in H.
  apply bind_inv in H. destruct H as (loc & st0 & E0 & H).
  cbn in E0. injection E0 as <- <-.
  rewrite bind_stamped in H. unfold visit_Call in H.
  cbn [length Nat.ltb Nat.leb] in H.
  destruct (mapM (v_expr (visit fuel)) args (self, w))
    as [nodes [p1 w1]| |] eqn:Hargs;
    [rewrite (bind_Ok _ Hargs) in H | | ];
    try (unfold bind in H; rewrite Hargs in H; discriminate H).
  pose proof (inherits_mapM_expr self fuel args self w (conj eq_refl eq_refl))
    as S.
  rewrite Hargs in S. destruct S as ([Hmac _] & _).
  unfold bind, get_self in H. cbn [fst] in H. rewrite Hmac, Hm in H.
  cbn in H. injection H as <- <- <-. eauto.
Qed.

Lemma visit_Call_macro_witness :
  exists nodes,
    mapM (v_expr (visit 1)) [ast.Name pos0 "x"; ast.Num pos0 1]
         (top_pair, world1)
    = Ok nodes pair_call_state
    /\ pair_call_node = at_ (pair_macro nodes) (Locator_call (locator top_pair) pos0).
Proof.
  exact (visit_Call_macro 1 pos0 pos0 "pair"
           [ast.Name pos0 "x"; ast.Num pos0 1] pair_macro top_pair world1
           pair_call_node (fst pair_call_state) (snd pair_call_state)
           eq_refl eq_refl).
Defined.

(** ** Scopes of sub-translators *)

(** X20: a sub-translator starts with an empty frame on top of its
    parent's scope: every name the parent can resolve is resolved by the
    sub-translator to the same symbol, as a free variable, and a name the
    parent cannot resolve raises the same [NameError]; nothing is
    recorded yet, and the parent is left as it was. *)
Theorem sub_parser_scope :
  forall ge kd kp kdest name self w,
  exists p w',
    sub_parser ge kd kp kdest (self, w) = Ok p (self, w')
    /\ get_free (vtrack p) name
       = match get_free (vtrack self) name with
         | inl e => inl e
         | inr (_, s) => inr (true, s)
         end
    /\ free_variables p = []
    /\ local_assignments p = []
    /\ returns p = false
    /\ top_level p = false.
Proof.
  intros ge kd kp kdest name self w.
  unfold sub_parser, Parser_init, bind, get_self, ret. cbn [fst snd].
  destruct kdest; cbn; do 2 eexists; (split; [reflexivity|]);
    repeat split.
Qed.

(** ** Closure conversion of a lambda *)

Lemma mapM_new_variable_spec args :
  forall p w,
  exists syms p' w',
    mapM new_variable args (p, w) = Ok syms (p', w')
    /\ map label syms = args
    /\ free_variables p' = free_variables p
    /\ local_assignments p' = local_assignments p
    /\ dest p' = dest p /\ dry p' = dry p /\ gen p' = gen p
    /\ global_env p' = global_env p
    /\ pull_free_variables p' = pull_free_variables p
    /\ locator p' = locator p
    /\ tables w' = tables w
    /\ (forall x, In x args ->
          exists s, get_free (vtrack p') x = inr (false, s))
    /\ (forall x, ~ In x args ->
          get_free (vtrack p') x = get_free (vtrack p) x).
Proof.
  induction args as [|a args IH]; intros p w; cbn [mapM].
  - do 3 eexists. split; [reflexivity|]. repeat split; auto.
    intros x [].
  - unfold bind at 1. unfold new_variable at 1.
    unfold bind, get_self, GenSym_call, modify_self, ret. cbn [fst snd].
    match goal with
    | |- context [mapM new_variable args (?q, ?v)] =>
        destruct (IH q v)
          as (syms & p' & w' & E & Hl & Hf & Ha & Hd & Hy & Hg & He & Hp
              & Hloc & Ht & Hin & Hout)
    end.
    rewrite E. do 3 eexists. split; [reflexivity|].
    cbn in Hf, Ha, Hd, Hy, Hg, He, Hp, Hloc, Ht.
    repeat split; auto.
    + cbn. now rewrite Hl.
    + intros x [<-|Hx].
      * destruct (in_dec string_dec a args) as [i|n]; [now apply Hin|].
        rewrite (Hout a n). cbn [vtrack set_vtrack].
        rewrite get_free_setitem_same. eauto.
      * now apply Hin.
    + intros x Hx. rewrite Hout by (intros Hi; apply Hx; now right).
      cbn [vtrack set_vtrack]. apply get_free_setitem_other.
      intros ->. apply Hx. now left.
Qed.

(** X21: the parameters of a lambda shadow whatever the enclosing scope
    binds: a lambda whose body is one of its own parameters captures
    nothing and translates to its bare global reference, named
    [#lambda], leaving the translator as it was. *)
Theorem visit_Lambda_parameter_shadows :
  forall fuel pos args bpos x self w,
    In x (ast.args args) ->
    exists w',
      v_expr (visit (S (S fuel))) (ast.Lambda pos args (ast.Name bpos x))
             (self, w)
      = Ok (Sym (mkSymbol "#lambda" (env_namespace (global_env self))
                          (supply w) None))
           (self, w').
Proof.
  intros fuel pos args bpos x self w Hx.
  cbn [visit v_expr]. unfold visit_expr, make_location, visit_Lambda,
    call_make_closure. cbn [dict_keys map fst find negb name_mem existsb
    make_closure_params dict_get String.eqb Ascii.eqb Bool.eqb orb].
  unfold make_closure, prepare_closure, sub_parser, Parser_init,
    GenSym_call, ParseEnv_gen, bind, get_self, ret, on.
  cbn [fst snd gen_namespace String.eqb Ascii.eqb Bool.eqb].
  match goal with
  | |- context [mapM new_variable ?l (?q, ?v)] =>
      destruct (mapM_new_variable_spec l q v)
        as (syms & p' & w' & E & Hl & Hf & Ha & Hd & Hy & Hg & He & Hp
            & Hloc & Ht & Hin & Hout)
  end.
  rewrite E. cbn [fst snd visit v_expr].
  unfold visit_expr, make_location, visit_Name, visit_variable, bind,
    get_self, ret. cbn [fst snd].
  destruct (Hin x Hx) as [s Hs]. rewrite Hs. cbn [fst snd].
  unfold construct_closure. rewrite Hf. cbn [free_variables set_vtrack
    dict_keys dict_values map mapM length Nat.ltb Nat.leb].
  unfold bind, ret, reg_lambda, bind, get_self, ret, ParseEnv_setitem.
  cbn [fst snd]. rewrite Hd. cbn [dest set_vtrack].
  destruct (dry self); cbn; eauto.
Qed.

Lemma visit_Lambda_parameter_shadows_witness :
  exists w',
    v_expr (visit 2) (ast.Lambda pos0 args_x (ast.Name pos0 "x"))
           (top_x, world1)
    = Ok (Sym (mkSymbol "#lambda" (Some "global") 2 None)) (top_x, w').
Proof.
  apply (visit_Lambda_parameter_shadows 0 pos0 args_x pos0 "x" top_x world1).
  cbn. auto.
Defined.



(** ** While loops *)

(** X23: the [else] clause of a [while] statement is never translated:
    two loops that differ only in it translate alike in every state. *)
Theorem visit_While_ignores_orelse :
  forall fuel kw pos test body orelse1 orelse2 s,
    v_stmt (visit fuel) kw (ast.While pos test body orelse1) s
    = v_stmt (visit fuel) kw (ast.While pos test body orelse2) s.
Proof. intros [|fuel] kw pos test body orelse1 orelse2 s; reflexivity. Qed.

Lemma dict_mem_set_eqb {V} (d : list (string * V)) k v m :
  dict_mem String.eqb (dict_set String.eqb d k v) m
  = String.eqb m k || dict_mem String.eqb d m.
Proof.
  unfold dict_mem. induction d as [|[k' v'] d IH]; cbn.
  - destruct (String.eqb m k); reflexivity.
  - destruct (String.eqb_spec k k') as [->|Hk]; cbn.
    + destruct (String.eqb m k'); reflexivity.
    + destruct (String.eqb_spec m k') as [->|Hm].
      * now rewrite Bool.orb_true_r.
      * exact IH.
Qed.

Lemma bound_in_chain_setitem t k v m :
  bound_in_chain (vt_setitem t k v) m
  = String.eqb m k || bound_in_chain t m.
Proof.
  destruct t as [par b]. unfold vt_setitem. cbn.
  rewrite dict_mem_set_eqb. now rewrite Bool.orb_assoc.
Qed.

Lemma visit_variable_bound name p w v p' w' :
  visit_variable name (p, w) = Ok v (p', w') ->
  forall m, bound_in_chain (vtrack p') m = bound_in_chain (vtrack p) m.
Proof.
  unfold visit_variable, bind, get_self. cbn [fst].
  destruct (get_free (vtrack p) name) as [e|[[] s]] eqn:E.
  - destruct e; try discriminate. intros H. now injection H as _ <- _.
  - destruct (pull_free_variables p); cbn; intros H; injection H as _ <- _;
      intros m; cbn [vtrack set_free_variables set_vtrack]; [|reflexivity].
    rewrite bound_in_chain_setitem.
    destruct (String.eqb_spec m name) as [->|_]; [|reflexivity].
    symmetry. apply bound_in_chain_get_free. eauto.
  - intros H. now injection H as _ <- _.
Qed.

Lemma mapM_visit_variable_bound names :
  forall p w vals p' w',
    mapM visit_variable names (p, w) = Ok vals (p', w') ->
    forall m, bound_in_chain (vtrack p') m = bound_in_chain (vtrack p) m.
Proof.
  induction names as [|n names IH]; intros p w vals p' w' H; cbn [mapM] in H.
  - now injection H as _ <- _.
  - bind_inv H. destruct s as [p1 w1]. bind_inv H. destruct s as [p2 w2].
    injection H as _ <- _. intros m.
    rewrite (IH _ _ _ _ _ Hm0 m). exact (visit_variable_bound _ _ _ _ _ _ Hm m).
Qed.

Lemma on_fst {A} p (m : M A) s a s' :
  on p m s = Ok a s' -> fst s' = fst s.
Proof.
  unfold on. destruct (m (p, snd s)) as [x [q v]| |]; try discriminate.
  intros H. now injection H as _ <-.
Qed.

Lemma reg_lambda_fst ref args body s a s' :
  reg_lambda ref args body s = Ok a s' -> fst s' = fst s.
Proof.
  destruct s as [p w]. unfold reg_lambda, bind, get_self. cbn [fst].
  destruct (dry p); cbn; intros H; now injection H as _ <-.
Qed.

Lemma sub_parser_fst ge kd kp kdest s a s' :
  sub_parser ge kd kp kdest s = Ok a s' -> fst s' = fst s.
Proof.
  destruct s as [p w]. unfold sub_parser, Parser_init, bind, get_self.
  cbn [fst]. destruct kdest; cbn; intros H; now injection H as _ <-.
Qed.

Lemma map_exn_inr {A B} (f : A -> exn + B) l ys :
  map_exn f l = inr ys -> forall x, In x l -> exists y, f x = inr y.
Proof.
  revert ys. induction l as [|a l IH]; intros ys H x []; cbn in H;
    destruct (f a) as [e|y] eqn:E; try discriminate;
    destruct (map_exn f l) as [e'|ys'] eqn:E'; try discriminate.
  - subst. eauto.
  - eapply IH; eauto.
Qed.

(** The steps of [visit_While] that decide its result. *)
Lemma visit_While_inv fuel test body self w r s' :
  visit_While (visit fuel) test body (self, w) = Ok r s' ->
  exists vars s1 self5 w5 vals,
    explore_vars (visit fuel) [ExploreExpr test; ExploreStmts body] None
                 (self, mkWorld (S (S (supply w))) (tables w))
    = Ok vars s1
    /\ (forall m,
          bound_in_chain (vtrack self5) m = bound_in_chain (vtrack self) m)
    /\ map_exn (vt_getitem (vtrack self5)) (in_ vars) = inr vals
    /\ multi_assign (out vars)
         (Apply (Sym (mkSymbol (label (dest self))
                               (env_namespace (global_env self))
                               (supply w) (Some "↻")))
                (map Sym vals) false)
         (self5, w5)
       = Ok r s'.
Proof.
  unfold visit_While. intros H.
  apply bind_inv in H. destruct H as (p0 & st0 & E0 & H).
  cbn in E0. injection E0 as <- <-.
  apply bind_inv in H. destruct H as (wsym & st1 & E1 & H).
  cbn in E1. injection E1 as <- <-.
  apply bind_inv in H. destruct H as (wbsym & st2 & E2 & H).
  cbn in E2. injection E2 as <- <-.
  apply bind_inv in H. destruct H as (vars & [q1 w1] & Hexp & H).
  destruct (explore_vars_frame _ _ _ _ _ _ _ _ Hexp) as [-> _].
  cbv zeta in H.
  apply bind_inv in H. destruct H as (ivals & [q2 w2] & Hvis & H).
  pose proof (mapM_visit_variable_bound _ _ _ _ _ _ Hvis) as Hb.
  apply bind_inv in H. destruct H as (p & st3 & Hsub & H).
  apply sub_parser_fst in Hsub.
  apply bind_inv in H. destruct H as ([[[[in_syms iv] t] b] q] & st4 & Hon & H).
  apply on_fst in Hon.
  apply bind_inv in H. destruct H as (next & st5 & E5 & H).
  apply lift_inv in E5. destruct E5 as [_ ->].
  apply bind_inv in H. destruct H as (if_body & st6 & E6 & H).
  apply lift_inv in E6. destruct E6 as [_ ->].
  apply bind_inv in H. destruct H as (if_fn & st7 & E7 & H).
  apply reg_lambda_fst in E7.
  apply bind_inv in H. destruct H as (lb & st8 & E8 & H).
  apply reg_lambda_fst in E8.
  apply bind_inv in H. destruct H as (self5 & st9 & E9 & H).
  cbn in E9. injection E9 as <- <-.
  apply bind_inv in H. destruct H as (vals & st10 & E10 & H).
  apply lift_inv in E10. destruct E10 as [Hv ->].
  assert (E : fst st8 = q2) by (cbn [fst] in *; congruence).
  exists vars, (self, w1), (fst st8), (snd st8), vals.
  split; [exact Hexp|]. split; [now rewrite E|]. split; [exact Hv|].
  destruct st8. exact H.
Qed.

Lemma visit_stmt_While_inv fuel pos test body orelse self w r s' :
  v_stmt (visit (S fuel)) None (ast.While pos test body orelse) (self, w)
  = Ok r s' ->
  exists r0,
    visit_While (visit fuel) test body (self, w) = Ok r0 s'
    /\ r = at_ r0 (Locator_call (locator self) pos).
Proof.
  intros H.
  change (v_stmt (visit (S fuel)) None (ast.While pos test body orelse)
                 (self, w))
    with ((r <- visit_While (visit fuel) test body ;;
           ret (at_ r (Locator_call (locator self) pos))) (self, w)) in H.
  rewrite bind_stamped in H.
  destruct (visit_While (visit fuel) test body (self, w)) as [r0 s0| |];
    try discriminate.
  cbn in H. injection H as <- <-. eauto.
Qed.



(** X25: a [while] statement translates only if every loop variable, read
    or written, is already bound in the scope of the translator: a loop
    that assigns a name first introduced inside its body does not
    translate. *)
Theorem visit_While_variables_bound :
  forall fuel pos test body orelse self w r s',
    v_stmt (visit (S fuel)) None (ast.While pos test body orelse) (self, w)
    = Ok r s' ->
    exists vars s1,
      explore_vars (visit fuel) [ExploreExpr test; ExploreStmts body] None
                   (self, mkWorld (S (S (supply w))) (tables w))
      = Ok vars s1
      /\ forall n, In n (in_ vars) -> bound_in_chain (vtrack self) n = true.
Proof.
  intros fuel pos test body orelse self w r s' H.
  apply visit_stmt_While_inv in H. destruct H as (r0 & H & ->).
  apply visit_While_inv in H.
  destruct H as (vars & s1 & self5 & w5 & vals & He & Hb & Hv & _).
  exists vars, s1. split; [exact He|]. intros n Hn.
  rewrite <- Hb. apply bound_in_chain_get_free.
  destruct (map_exn_inr _ _ _ Hv n Hn) as [y Hy]. unfold vt_getitem in Hy.
  destruct (get_free (vtrack self5) n) as [e|rr]; [discriminate | eauto].
Qed.

Lemma visit_While_variables_bound_witness :
  exists vars s1,
    explore_vars (visit 3)
                 [ExploreExpr (ast.Name pos0 "x"); ExploreStmts [aug_x]] None
                 (top_x, mkWorld 4 [[]])
    = Ok vars s1
    /\ forall n, In n (in_ vars) -> bound_in_chain (vtrack top_x) n = true.
Proof.
  exact (visit_While_variables_bound 3 pos0 (ast.Name pos0 "x") [aug_x] []
           top_x world1 while_x_node while_x_state eq_refl).
Defined.

(** * Expressions leave the translator's records alone *)

Lemma expr_frame_refl p : expr_frame p p.
Proof. repeat split. Qed.

Lemma expr_frame_trans a b c :
  expr_frame a b -> expr_frame b c -> expr_frame a c.
Proof.
  intros (L1 & R1 & B1) (L2 & R2 & B2). split; [congruence|].
  split; [congruence|]. intros n. now rewrite B2, B1.
Qed.

Lemma frames_ret {A} (a : A) : frames (ret a).
Proof. intros p w. apply expr_frame_refl. Qed.

Lemma frames_raise {A} e : frames (@raise A e).
Proof. intros p w. exact I. Qed.

Lemma frames_bind {A B} (m : M A) (k : A -> M B) :
  frames m -> (forall a, frames (k a)) -> frames (bind m k).
Proof.
  intros Hm Hk p w. unfold bind. specialize (Hm p w).
  destruct (m (p, w)) as [a [p1 w1]| |]; auto.
  specialize (Hk a p1 w1). destruct (k a (p1, w1)) as [b [p2 w2]| |]; auto.
  eapply expr_frame_trans; eassumption.
Qed.

Lemma frames_fst {A} (m : M A) :
  (forall s a s', m s = Ok a s' -> fst s' = fst s) -> frames m.
Proof.
  intros H p w. destruct (m (p, w)) as [a [p' w']| |] eqn:E; auto.
  apply H in E. cbn in E. subst. apply expr_frame_refl.
Qed.

Lemma frames_get_self : frames get_self.
Proof. intros p w. apply expr_frame_refl. Qed.

Lemma frames_lift {A} (r : exn + A) : frames (lift r).
Proof. intros p w. destruct r; cbn; [exact I | apply expr_frame_refl]. Qed.

Lemma frames_on {A} q (m : M A) : frames (on q m).
Proof. apply frames_fst. intros s a s'. apply on_fst. Qed.

Lemma frames_mapM {A B} (f : A -> M B) l :
  (forall a, frames (f a)) -> frames (mapM f l).
Proof.
  intros Hf. induction l as [|x l IH]; cbn [mapM]; [apply frames_ret|].
  apply frames_bind; [apply Hf|]. intros y.
  apply frames_bind; [apply IH|]. intros ys. apply frames_ret.
Qed.

Lemma frames_GenSym_call g s rel : frames (GenSym_call g s rel).
Proof. intros p w. apply expr_frame_refl. Qed.

Lemma frames_make_location pos : frames (make_location pos).
Proof. intros p w. apply expr_frame_refl. Qed.

Lemma frames_reg_lambda ref args body : frames (reg_lambda ref args body).
Proof. apply frames_fst. intros s a s'. apply reg_lambda_fst. Qed.

Lemma frames_sub_parser ge kd kp kdest : frames (sub_parser ge kd kp kdest).
Proof. apply frames_fst. intros s a s'. apply sub_parser_fst. Qed.

Lemma prepare_closure_fst variable ref s a s' :
  prepare_closure variable ref s = Ok a s' -> fst s' = fst s.
Proof.
  destruct s as [p w]. unfold prepare_closure. intros H.
  apply bind_inv in H. destruct H as (p0 & st0 & E0 & H).
  cbn in E0. injection E0 as <- <-.
  apply bind_inv in H. destruct H as (r & st1 & E1 & H).
  assert (F1 : fst st1 = p).
  { destruct ref; cbn in E1; injection E1 as _ <-; reflexivity. }
  apply bind_inv in H. destruct H as (q & st2 & E2 & H).
  apply sub_parser_fst in E2. unfold ret in H. injection H as _ <-.
  cbn. congruence.
Qed.

Lemma frames_prepare_closure variable ref :
  frames (prepare_closure variable ref).
Proof. apply frames_fst. intros s a s'. apply prepare_closure_fst. Qed.

Lemma frames_visit_variable name : frames (visit_variable name).
Proof.
  intros p w. destruct (visit_variable name (p, w)) as [v [p' w']| |] eqn:E;
    auto.
  split; [|split; [|exact (visit_variable_bound _ _ _ _ _ _ E)]];
    revert E; unfold visit_variable, bind, get_self; cbn [fst];
    destruct (get_free (vtrack p) name) as [e|[[] s]];
    try (destruct e; try discriminate);
    try destruct (pull_free_variables p); cbn;
    intros E; injection E as _ <- _; reflexivity.
Qed.

Lemma frames_construct_closure q args body :
  frames (construct_closure q args body).
Proof.
  unfold construct_closure.
  apply frames_bind; [apply frames_mapM, frames_visit_variable|]. intros vs.
  apply frames_bind; [apply frames_reg_lambda|]. intros l.
  destruct (0 <? _)%nat; apply frames_ret.
Qed.

Lemma frames_make_closure rec args body loc variable ref :
  frames (make_closure rec args body loc variable ref).
Proof.
  unfold make_closure.
  apply frames_bind; [apply frames_prepare_closure|]. intros q.
  apply frames_bind; [apply frames_on|]. intros [r q'].
  apply frames_construct_closure.
Qed.

Lemma frames_call_make_closure rec args body kw :
  frames (call_make_closure rec args body kw).
Proof.
  unfold call_make_closure. destruct (find _ _); [apply frames_raise|].
  apply frames_make_closure.
Qed.

Lemma frames_stamp (m : M MyiaASTNode) loc :
  frames m -> frames (r <- m ;; ret (at_ r loc)).
Proof. intros H. apply frames_bind; [exact H|]. intros r. apply frames_ret. Qed.

Section ExprFrames.
Variable rec : visitor.
Hypothesis rec_expr : forall e, frames (v_expr rec e).
Hypothesis rec_slice : forall sl, frames (v_slice rec sl).

Ltac fstep :=
  lazymatch goal with
  | |- frames (ret _) => apply frames_ret
  | |- frames (raise _) => apply frames_raise
  | |- frames (bind _ _) =>
      apply frames_bind;
      [ first [ apply rec_expr | apply rec_slice | apply frames_get_self
              | apply frames_visit_variable | apply frames_make_location
              | apply frames_mapM; intros;
                first [apply rec_expr | apply rec_slice] ]
      | intros ? ]
  end.

Lemma frames_visit_opt e dflt : frames (visit_opt rec e dflt).
Proof. destruct e; cbn; [apply rec_expr | fstep]. Qed.

Lemma frames_visit_expr e : frames (visit_expr rec e).
Proof.
  unfold visit_expr. fstep. apply frames_stamp. destruct e.
  - unfold visit_BinOp. repeat fstep.
  - unfold visit_UnaryOp. repeat fstep.
  - apply frames_call_make_closure.
  - unfold visit_Compare.
    destruct (map get_operator_cmp ops) as [|? [|]]; [fstep| |fstep].
    fstep. destruct comparators; repeat fstep.
  - unfold visit_Call. destruct (0 <? _)%nat; [fstep|]. fstep. fstep.
    destruct (match e with ast.Name _ id => _ | _ => None end);
      repeat fstep.
  - unfold visit_Num. fstep.
  - unfold visit_Str. fstep.
  - unfold visit_NameConstant. fstep.
  - unfold visit_Attribute. repeat fstep.
  - unfold visit_Subscript. repeat fstep.
  - unfold visit_Name. repeat fstep.
  - unfold visit_Tuple. repeat fstep.
  - fstep.
Qed.

Lemma frames_visit_slice sl : frames (visit_slice rec sl).
Proof.
  unfold visit_slice. apply frames_stamp. destruct sl.
  - apply rec_expr.
  - unfold visit_Slice.
    apply frames_bind; [apply frames_visit_opt|]. intros ?.
    apply frames_bind; [apply frames_visit_opt|]. intros ?.
    apply frames_bind; [apply frames_visit_opt|]. intros ?. fstep.
  - unfold visit_ExtSlice. repeat fstep.
Qed.

End ExprFrames.

Lemma visit_frames fuel :
  (forall e, frames (v_expr (visit fuel) e))
  /\ (forall sl, frames (v_slice (visit fuel) sl)).
Proof.
  induction fuel as [|fuel [He Hs]]; cbn [visit v_expr v_slice].
  - split; intros; intros p w; exact I.
  - split; intros.
    + now apply frames_visit_expr.
    + now apply frames_visit_slice.
Qed.

Lemma v_expr_frame fuel e p w r p' w' :
  v_expr (visit fuel) e (p, w) = Ok r (p', w') -> expr_frame p p'.
Proof.
  intros H. pose proof (proj1 (visit_frames fuel) e p w) as F.
  now rewrite H in F.
Qed.

(** * Undeclared names in loop discovery *)

Lemma explore_vars_unfold rec exprs re self w :
  explore_vars rec exprs re (self, w)
  = match explore_items rec exprs (discovery_translator self w re) with
    | Ok _ (testp, w') =>
        Ok (mk_while_vars
              (fold_left name_add (local_assignments testp)
                         (dict_keys (free_variables testp)))
              (local_assignments testp))
           (self, w')
    | Raise e => Raise e
    | OutOfFuel => OutOfFuel
    end.
Proof.
  unfold explore_vars, discovery_translator, explore_items, bind,
    ParseEnv_new, sub_parser, Parser_init, bind, get_self, GenSym_call, ret,
    on. cbn [fst snd].
  match goal with
  | |- match match ?x with _ => _ end with _ => _ end = _ =>
      destruct x as [u [testp w']| |]
  end; reflexivity.
Qed.

Lemma discovery_translator_facts self w re :
  let testp := fst (discovery_translator self w re) in
  vtrack testp = mkVariableTracker (Some (vtrack self)) []
  /\ local_assignments testp = []
  /\ dry testp = true
  /\ pull_free_variables testp = false
  /\ return_error testp = re
  /\ locator testp = locator self.
Proof. cbv. repeat split. Qed.

(** *** Statements that only read *)

Lemma sound_total_exn {A} PP RW (EX EX' : exn -> Prop) (m : M A) V :
  sound PP RW EX m V ->
  (forall s, exists a s', m s = Ok a s') ->
  sound PP RW EX' m V.
Proof.
  intros H T p w Hp. specialize (H p w Hp).
  destruct (T (p, w)) as (a & s' & E). rewrite E in *. exact H.
Qed.

Lemma rs_GenSym_call g s rel : reads_safely (GenSym_call g s rel).
Proof. intros p w Hp. cbn. repeat split; auto. Qed.

Lemma rs_ParseEnv_new ns : reads_safely (ParseEnv_new ns).
Proof. intros p w Hp. cbn. repeat split; auto. Qed.

Lemma rs_reg_lambda ref args body : reads_safely (reg_lambda ref args body).
Proof.
  eapply sound_total_exn; [apply assigned_bound_reg_lambda|].
  intros s. apply reg_lambda_total.
Qed.

Lemma rs_new_variable n : reads_safely (new_variable n).
Proof.
  eapply sound_total_exn; [apply assigned_bound_new_variable|].
  intros s. apply new_variable_total.
Qed.

Lemma rs_make_assign n v l : reads_safely (make_assign n v l).
Proof.
  eapply sound_total_exn; [apply assigned_bound_make_assign|].
  intros s. apply make_assign_total.
Qed.

Lemma rs_visit_variable n : reads_safely (visit_variable n).
Proof.
  eapply sound_total_exn; [apply assigned_bound_visit_variable|].
  intros s. apply visit_variable_succeeds.
Qed.

Lemma rs_set_returns :
  reads_safely (modify_self (fun p => set_returns p true)).
Proof. intros p w Hp. cbn. repeat split; auto. Qed.

Lemma rs_sub_parser ge kd kp kdest :
  sound assigned_bound (fun _ _ => True) no_name_error
        (sub_parser ge kd kp kdest) assigned_bound.
Proof.
  eapply sound_total_exn; [apply assigned_bound_sub_parser|].
  intros s. apply sub_parser_total.
Qed.

Ltac rs_steps :=
  first [ apply rs_GenSym_call | apply rs_ParseEnv_new | apply rs_reg_lambda
        | apply rs_new_variable | apply rs_make_assign
        | apply rs_visit_variable | apply rs_set_returns
        | intros; apply rs_sub_parser
        | intros; now apply assigned_bound_setitem
        | intros; exact I
        | intros; assumption ].

Lemma rs_expr fuel e : reads_safely (v_expr (visit fuel) e).
Proof. apply visit_sound_expr; rs_steps. Qed.

Lemma rs_slice fuel sl : reads_safely (v_slice (visit fuel) sl).
Proof. apply visit_sound_expr; rs_steps. Qed.

Lemma rs_bindV {A B} (m : M A) (k : A -> M B) V W :
  sound assigned_bound (fun _ _ => True) no_name_error m V ->
  (forall a, V a ->
     sound assigned_bound (fun _ _ => True) no_name_error (k a) W) ->
  sound assigned_bound (fun _ _ => True) no_name_error (bind m k) W.
Proof.
  intros Hm Hk p w Hp. unfold bind. specialize (Hm p w Hp).
  destruct (m (p, w)) as [a [p1 w1]| |]; auto.
  destruct Hm as (Hp1 & _ & Ha). exact (Hk a Ha p1 w1 Hp1).
Qed.

Lemma rs_bind {A B} (m : M A) (k : A -> M B) V :
  sound assigned_bound (fun _ _ => True) no_name_error m V ->
  (forall a, V a -> reads_safely (k a)) ->
  reads_safely (bind m k).
Proof. apply rs_bindV. Qed.

Lemma rs_get_self :
  sound assigned_bound (fun _ _ => True) no_name_error get_self assigned_bound.
Proof. intros p w Hp. cbn. auto. Qed.

Lemma rs_make_location pos : reads_safely (make_location pos).
Proof. apply sound_make_location; rs_steps. Qed.

Lemma rs_stamp (m : M MyiaASTNode) loc :
  reads_safely m -> reads_safely (r <- m ;; ret (at_ r loc)).
Proof. intros H. apply sound_stamp; try rs_steps. Qed.

Lemma rs_ret {A} (a : A) : reads_safely (ret a).
Proof. intros p w Hp. cbn. repeat split; auto. Qed.

Lemma rs_raise {A} e : is_NameError e = false -> reads_safely (@raise A e).
Proof. intros He p w Hp. exact He. Qed.

Lemma rs_body_loop rec stmts :
  Forall (fun st => forall kw, reads_safely (v_stmt rec kw st)) stmts ->
  forall results, reads_safely (body_loop rec stmts results).
Proof.
  induction 1 as [|st stmts Hst _ IH]; intros results; cbn [body_loop].
  - apply rs_ret.
  - eapply rs_bind; [apply rs_get_self|]. intros self _. cbv zeta.
    eapply rs_bind; [apply Hst|]. intros r _.
    destruct (returns self).
    + eapply rs_bind; [apply rs_make_location|]. intros loc _.
      now apply rs_raise.
    + apply IH.
Qed.

Lemma rs_body_wrapper rec stmts :
  Forall (fun st => forall kw, reads_safely (v_stmt rec kw st)) stmts ->
  reads_safely (body_wrapper rec stmts).
Proof.
  intros H. unfold body_wrapper.
  eapply rs_bind; [now apply rs_body_loop|]. intros r _. apply rs_ret.
Qed.

Lemma rs_lift_helper groups result : reads_safely (lift (helper groups result)).
Proof.
  intros p w Hp. destruct (helper groups result) as [e|n] eqn:E; cbn.
  - exact (helper_error _ _ _ E).
  - repeat split; auto.
Qed.

Lemma rs_construct_closure q args body :
  reads_safely (construct_closure q args body).
Proof. apply sound_construct_closure; rs_steps. Qed.

Lemma rs_mkapply rec test p1 g1 p2 g2 f1 f2 :
  (forall e, reads_safely (v_expr rec e)) ->
  reads_safely (mkapply rec test p1 g1 p2 g2 f1 f2).
Proof.
  intros He. unfold mkapply.
  eapply rs_bind; [apply rs_lift_helper|]. intros b1 _.
  eapply rs_bind; [apply rs_construct_closure|]. intros c1 _.
  eapply rs_bind; [apply rs_lift_helper|]. intros b2 _.
  eapply rs_bind; [apply rs_construct_closure|]. intros c2 _.
  eapply rs_bind; [apply He|]. intros t _. apply rs_ret.
Qed.

Lemma rs_lift_lookup p names :
  assigned_bound p -> incl names (local_assignments p) ->
  reads_safely (lift (map_exn (vt_getitem (vtrack p)) names)).
Proof.
  intros Hb Hi. destruct (assigned_bound_lookup p names Hb Hi) as (t & -> & _).
  apply rs_ret.
Qed.

Lemma rs_lift_lookup1 p a :
  assigned_bound p -> In a (local_assignments p) ->
  reads_safely (lift (vt_getitem (vtrack p) a)).
Proof.
  intros Hb Hi.
  destruct (assigned_bound_lookup p [a] Hb) as (t & E & _).
  { intros x [<-|[]]. exact Hi. }
  cbn in E. destruct (vt_getitem (vtrack p) a); [discriminate|].
  apply rs_ret.
Qed.

Lemma rs_merge_branches rec test loc g1 p1 g2 p2 :
  (forall e, reads_safely (v_expr rec e)) ->
  assigned_bound p1 -> assigned_bound p2 ->
  reads_safely (merge_branches rec test loc (g1, p1) (g2, p2)).
Proof.
  intros He H1 H2. cbn [merge_branches].
  destruct (negb (Bool.eqb (returns p1) (returns p2)));
    [now apply rs_raise|].
  destruct (negb (name_set_eqb (local_assignments p1) (local_assignments p2)))
    eqn:Es; [now apply rs_raise|].
  apply Bool.negb_false_iff in Es.
  pose proof (proj1 (name_set_eqb_spec _ _) Es) as Hs. clear Es.
  rename Hs into Es.
  destruct (returns p1).
  - eapply rs_bind; [apply rs_set_returns|]. intros _ _.
    now apply rs_mkapply.
  - cbv zeta.
    assert (Hmulti :
      reads_safely
        (t1 <- lift (map_exn (vt_getitem (vtrack p1))
                             (local_assignments p1)) ;;
         t2 <- lift (map_exn (vt_getitem (vtrack p2))
                             (local_assignments p1)) ;;
         app <- mkapply rec test p1 g1 p2 g2
                        (Some (Tuple (map Sym t1)))
                        (Some (Tuple (map Sym t2))) ;;
         multi_assign (local_assignments p1) app)).
    { eapply rs_bind; [apply rs_lift_lookup; [exact H1 | apply incl_refl]|].
      intros t1 _.
      eapply rs_bind.
      { apply rs_lift_lookup; [exact H2|]. intros k Hk. now apply Es. }
      intros t2 _.
      eapply rs_bind; [now apply rs_mkapply|]. intros app _.
      apply sound_multi_assign; rs_steps. }
    destruct (local_assignments p1) as [|a [|a' l]] eqn:El; try exact Hmulti.
    eapply rs_bind.
    { apply rs_lift_lookup1; [exact H1|]. rewrite El. now left. }
    intros x1 _.
    eapply rs_bind.
    { apply rs_lift_lookup1; [exact H2|]. apply Es. now left. }
    intros x2 _.
    eapply rs_bind; [now apply rs_mkapply|]. intros app _.
    apply rs_make_assign.
Qed.

Lemma rs_translate_branches rec body orelse :
  Forall (fun st => forall kw, reads_safely (v_stmt rec kw st)) body ->
  Forall (fun st => forall kw, reads_safely (v_stmt rec kw st)) orelse ->
  sound assigned_bound (fun _ _ => True) no_name_error
        (translate_branches rec body orelse)
        (fun r => assigned_bound (snd (fst r))
                  /\ assigned_bound (snd (snd r))).
Proof.
  intros Hb Ho. unfold translate_branches.
  eapply rs_bindV; [apply rs_get_self|]. intros self _.
  eapply rs_bindV; [apply rs_GenSym_call|]. intros ref1 _.
  eapply rs_bindV; [apply sound_prepare_closure; rs_steps|].
  intros p1 Hp1.
  eapply rs_bindV;
    [apply sound_on; [exact Hp1 | now apply rs_body_wrapper]|].
  intros [g1 q1] [_ Hq1].
  eapply rs_bindV; [apply rs_GenSym_call|]. intros ref2 _.
  eapply rs_bindV; [apply sound_prepare_closure; rs_steps|].
  intros p2 Hp2.
  eapply rs_bindV;
    [apply sound_on; [exact Hp2 | now apply rs_body_wrapper]|].
  intros [g2 q2] [_ Hq2].
  intros p w Hp. cbn. auto.
Qed.

Lemma rs_visit_If rec test body orelse loc :
  (forall e, reads_safely (v_expr rec e)) ->
  Forall (fun st => forall kw, reads_safely (v_stmt rec kw st)) body ->
  Forall (fun st => forall kw, reads_safely (v_stmt rec kw st)) orelse ->
  reads_safely (visit_If rec test body orelse loc).
Proof.
  intros He Hb Ho p w Hp. rewrite visit_If_split.
  revert p w Hp. eapply rs_bindV; [now apply rs_translate_branches|].
  intros [[g1 p1] [g2 p2]] [H1 H2]. now apply rs_merge_branches.
Qed.

Lemma rs_visit_FunctionDef rec name args body decorators loc allow :
  reads_safely (visit_FunctionDef rec name args body decorators loc allow).
Proof.
  unfold visit_FunctionDef.
  destruct (_ || _); [now apply rs_raise|].
  destruct (truthy_list _); [now apply rs_raise|].
  destruct (_ || _); [now apply rs_raise|].
  destruct (_ && _); [now apply rs_raise|].
  eapply rs_bind; [apply rs_get_self|]. intros self _. cbv zeta.
  eapply rs_bind; [apply rs_GenSym_call|]. intros ref _.
  eapply rs_bind; [apply rs_new_variable|]. intros sym _.
  rewrite call_make_closure_label.
  eapply rs_bind; [now apply (@rs_raise MyiaASTNode)|]. intros c _.
  apply rs_ret.
Qed.

Lemma forallb_Forall_impl {A} (f : A -> bool) (P : A -> Prop) l :
  (forall x, f x = true -> P x) -> forallb f l = true -> Forall P l.
Proof.
  intros H. induction l as [|x l IH]; cbn; [constructor|].
  intros E. apply andb_prop in E. destruct E. constructor; auto.
Qed.

Lemma rs_stmt fuel :
  forall kw st, no_strict_lookup st = true ->
    reads_safely (v_stmt (visit fuel) kw st).
Proof.
  induction fuel as [|fuel IH]; intros kw st Hst; cbn [visit v_stmt].
  - intros p w Hp. exact I.
  - destruct st; try discriminate;
      try (apply sound_visit_stmt_simple;
           first [ exact I | apply rs_expr | apply rs_slice | rs_steps ]).
    + unfold visit_stmt.
      eapply rs_bind; [apply rs_make_location|]. intros loc _.
      apply rs_stamp.
      apply rs_visit_FunctionDef.
    + cbn in Hst. apply andb_prop in Hst. destruct Hst as [Hb Ho].
      unfold visit_stmt.
      eapply rs_bind; [apply rs_make_location|]. intros loc _.
      apply rs_stamp.
      eapply rs_bind; [apply sound_no_kwargs; auto|]. intros _ _.
      apply rs_visit_If; [apply rs_expr | |];
        eapply forallb_Forall_impl; try eassumption; intros x Hx kw'; now apply IH.
    + unfold visit_stmt.
      eapply rs_bind; [apply rs_make_location|]. intros loc _.
      apply rs_stamp.
      now apply rs_raise.
Qed.

Lemma rs_explore_items fuel test body :
  forallb no_strict_lookup body = true ->
  reads_safely (explore_items (visit fuel)
                              [ExploreExpr test; ExploreStmts body]).
Proof.
  intros Hb. unfold explore_items. cbn [mapM].
  eapply rs_bind.
  { eapply rs_bind; [apply rs_expr|]. intros ? _. apply rs_ret. }
  intros ? _.
  eapply rs_bind.
  { eapply rs_bind.
    { eapply rs_bind.
      - apply rs_body_wrapper. eapply forallb_Forall_impl; [|exact Hb].
        intros x Hx kw. now apply rs_stmt.
      - intros ? _. apply rs_ret. }
    intros ? _. apply rs_ret. }
  intros ? _. apply rs_ret.
Qed.

(** *** The strict lookup of an augmented assignment *)

Lemma visit_variable_unbound x p w :
  bound_in_chain (vtrack p) x = false ->
  visit_variable x (p, w) = Ok (mkSymbol x (Some "global") 0 None) (p, w).
Proof.
  intros H. unfold visit_variable, bind, get_self. cbn [fst].
  rewrite (get_free_unbound _ _ H). reflexivity.
Qed.

Lemma visit_AugAssign_unbound fuel tpos x op value loc p w a s2 :
  bound_in_chain (vtrack p) x = false ->
  v_expr (visit fuel) value (p, w) = Ok a s2 ->
  visit_AugAssign (visit fuel) (ast.Name tpos x) op value loc (p, w)
  = Raise (NameError ("Undeclared variable: " ++ x)).
Proof.
  intros Hx Hv. destruct s2 as [p2 w2].
  pose proof (v_expr_frame _ _ _ _ _ _ _ Hv) as (_ & _ & Hb).
  assert (Hx2 : bound_in_chain (vtrack p2) x = false) by now rewrite Hb.
  unfold visit_AugAssign. rewrite (bind_Ok _ Hv).
  rewrite (bind_Ok _ (visit_variable_unbound x p2 w2 Hx2)).
  unfold bind, get_self, lift, vt_getitem. cbn [fst].
  rewrite (get_free_unbound _ _ Hx2). reflexivity.
Qed.

Lemma v_stmt_AugAssign_unbound fuel pos tpos x op value p w a s2 :
  bound_in_chain (vtrack p) x = false ->
  v_expr (visit fuel) value (p, w) = Ok a s2 ->
  v_stmt (visit (S fuel)) None
         (ast.AugAssign pos (ast.Name tpos x) op value) (p, w)
  = Raise (NameError ("Undeclared variable: " ++ x)).
Proof.
  intros Hx Hv. rewrite v_stmt_AugAssign.
  now rewrite (visit_AugAssign_unbound _ _ _ _ _ _ _ _ _ _ Hx Hv).
Qed.

Lemma body_wrapper_head_raise rec st rest s e :
  v_stmt rec None st s = Raise e ->
  body_wrapper rec (st :: rest) s = Raise e.
Proof.
  intros H. unfold body_wrapper. cbn [body_loop].
  unfold bind, get_self. rewrite H. reflexivity.
Qed.

Lemma discovery_translator_unbound self w re x :
  bound_in_chain (vtrack self) x = false ->
  bound_in_chain (vtrack (fst (discovery_translator self w re))) x = false.
Proof. intros H. cbn. exact H. Qed.

Lemma discovery_translator_assigned_bound self w re :
  assigned_bound (fst (discovery_translator self w re)).
Proof. intros n []. Qed.

(** C3, amended: in the discovery pass of a loop a name that no frame
    binds is no error where it is only read.  The pass over a test and a
    body without augmented assignment and without inner loop never ends in
    a [NameError], and a plain read of such a name is translated to a
    reference to the global of that name, the translator unchanged.  The
    error is that of the one strict lookup: an augmented assignment whose
    target is bound nowhere raises [NameError], "Undeclared variable: "
    followed by the name, once its operand is translated, in any
    translator, and so does the discovery pass of a loop whose body starts
    with it. *)
Theorem explore_vars_undeclared_names :
  (forall fuel test body re self w m,
      forallb no_strict_lookup body = true ->
      explore_vars (visit fuel) [ExploreExpr test; ExploreStmts body] re
                   (self, w)
      <> Raise (NameError m))
  /\ (forall fuel pos x p w,
         bound_in_chain (vtrack p) x = false ->
         v_expr (visit (S fuel)) (ast.Name pos x) (p, w)
         = Ok (Sym (mkSymbol x (Some "global") 0 None)) (p, w))
  /\ (forall fuel pos tpos x op value p w a s2,
         bound_in_chain (vtrack p) x = false ->
         v_expr (visit fuel) value (p, w) = Ok a s2 ->
         v_stmt (visit (S fuel)) None
                (ast.AugAssign pos (ast.Name tpos x) op value) (p, w)
         = Raise (NameError ("Undeclared variable: " ++ x)))
  /\ (forall fuel pos tpos x op value test rest re self w t s1 a s2,
         bound_in_chain (vtrack self) x = false ->
         v_expr (visit (S fuel)) test (discovery_translator self w re)
         = Ok t s1 ->
         v_expr (visit fuel) value s1 = Ok a s2 ->
         explore_vars (visit (S fuel))
                      [ExploreExpr test;
                       ExploreStmts
                         (ast.AugAssign pos (ast.Name tpos x) op value
                          :: rest)]
                      re (self, w)
         = Raise (NameError ("Undeclared variable: " ++ x))).
Proof.
  split; [|split; [|split]].
  - intros fuel test body re self w m Hb E.
    rewrite explore_vars_unfold in E.
    pose proof (rs_explore_items fuel test body Hb
                  (fst (discovery_translator self w re))
                  (snd (discovery_translator self w re))
                  (discovery_translator_assigned_bound self w re)) as H.
    rewrite <- surjective_pairing in H.
    destruct (explore_items _ _ _) as [u [testp w']| e |];
      try discriminate.
    injection E as ->. discriminate H.
  - intros fuel pos x p w Hx.
    change (v_expr (visit (S fuel)) (ast.Name pos x) (p, w))
      with ((loc <- make_location pos ;;
             rval <- (v <- visit_variable x ;; ret (Sym v)) ;;
             ret (at_ rval loc)) (p, w)).
    unfold make_location, bind at 1 2. cbn [get_self ret fst].
    unfold bind at 1. unfold bind at 1.
    rewrite (visit_variable_unbound x p w Hx). reflexivity.
  - intros. eapply v_stmt_AugAssign_unbound; eassumption.
  - intros fuel pos tpos x op value test rest re self w t [p1 w1] a s2
           Hx Ht Hv.
    rewrite explore_vars_unfold. unfold explore_items. cbn [mapM].
    rewrite bind_bind, (bind_Ok _ Ht). cbn [ret].
    assert (Hx1 : bound_in_chain (vtrack p1) x = false).
    { pose proof (discovery_translator_unbound self w re x Hx) as H0.
      destruct (discovery_translator self w re) as [p0 w0]. cbn [fst] in H0.
      pose proof (v_expr_frame _ _ _ _ _ _ _ Ht) as (_ & _ & Hb).
      now rewrite Hb. }
    pose proof (body_wrapper_head_raise (visit (S fuel)) _ rest _ _
                  (v_stmt_AugAssign_unbound _ pos tpos _ op _ _ _ _ _ Hx1 Hv))
      as Hw.
    unfold bind, ret. rewrite Hw. reflexivity.
Qed.

Lemma explore_vars_undeclared_names_witness :
  explore_vars (visit 2) [ExploreExpr (ast.Name pos0 "y");
                          ExploreStmts [assign "x" 1]] None (top0, world0)
  <> Raise (NameError "Undeclared variable: y")
  /\ v_expr (visit 1) (ast.Name pos0 "y") (top0, world0)
     = Ok (Sym (mkSymbol "y" (Some "global") 0 None)) (top0, world0)
  /\ v_stmt (visit 2) None aug_x (top0, world0)
     = Raise (NameError "Undeclared variable: x")
  /\ explore_vars (visit 2) undeclared_update None (top0, world0)
     = Raise (NameError "Undeclared variable: x").
Proof.
  split; [|split; [|split]].
  - exact (proj1 explore_vars_undeclared_names
                 2 (ast.Name pos0 "y") [assign "x" 1] None top0 world0
                 "Undeclared variable: y" eq_refl).
  - exact (proj1 (proj2 explore_vars_undeclared_names)
                 0 pos0 "y" top0 world0 eq_refl).
  - exact (proj1 (proj2 (proj2 explore_vars_undeclared_names))
                 1 pos0 pos0 "x" ast.Add (ast.Num pos0 1) top0 world0
                 (Value (ast.CNum 1)) (top0, world0) eq_refl eq_refl).
  - exact (proj2 (proj2 (proj2 explore_vars_undeclared_names))
                 1 pos0 pos0 "x" ast.Add (ast.Num pos0 1)
                 (ast.Name pos0 "c") [] None top0 world0
                 undeclared_test_node undeclared_test_state
                 (Value (ast.CNum 1)) undeclared_test_state
                 eq_refl eq_refl eq_refl).
Defined.

(** * The two branches of a conditional *)










(** * Merging the assignments of two branches *)





